(** * bibliaaberta: CSV -> validated -> nested JSON pipeline

    A shallow embedding of the pericope validator, the hierarchical
    assembler and the token extractor of
    [scripts/convert_to_lemmas.py] and
    [scripts/convert_csv_with_pericopes.py], with the properties the
    specification states about them.

    Conventions.
    - A pandas DataFrame is the list of its rows, in row order; a column
      of dtype int64 holds [Z] values (the scripts only compare them and
      add [1], on Python integers, so no wrap-around is involved).
    - A Python [str] is the list of its Unicode code points.
    - A Python [dict] is a [gmap]; [dict.get(k, d)] is [default d (m !! k)].
    - The logger is a sink: the validator returns every warning it logs,
      so the model keeps the returned list only. *)

From Stdlib Require Import ZArith Lia List Bool Permutation.
From stdpp Require Import gmap list sorting strings.
Import ListNotations.
Open Scope Z_scope.

(** ** Data model *)

(** A Python string, as code points. *)
Abbreviation pystr := (list Z).

(** One row of the verses table after [load_verses]: columns [chapter],
    [verse], [text].  An empty CSV cell is read as NaN, which is not a
    [str]: that is [None] here. *)
Module V.
Record row := mk { chapter : Z; verse : Z; text : option pystr }.
End V.

(** One row of the pericopes table after [load_pericopes].  The optional
    [order] column exists for the whole table or not at all, see
    [pericopes_df]; a row of a table without it carries an unused value. *)
Module P.
(* [pericope_id] and [title] are only read through [str(...)]: they are
   strings here. *)
Record row := mk {
  pericope_id : string;
  title : string;
  chapter : Z;
  start_verse : Z;
  end_verse : Z;
  order : Z
}.
End P.

Record pericopes_df := mk_df {
  has_order : bool;       (* 'order' in df.columns *)
  rows : list P.row
}.

(** ** Sorting and grouping (pandas) *)

Section Frames.
Context {A : Type}.

(** Lexicographic [<=] on the listed columns, the order of
    [df.sort_values([c1; c2; ...])]. *)
Fixpoint lex_leb (cols : list (A -> Z)) (x y : A) : bool :=
  match cols with
  | [] => true
  | c :: cs => (c x <? c y) || ((c x =? c y) && lex_leb cs x y)
  end.

Fixpoint insert_row (leb : A -> A -> bool) (x : A) (l : list A) : list A :=
  match l with
  | [] => [x]
  | y :: l' => if leb x y then x :: l else y :: insert_row leb x l'
  end.

(** [df.sort_values(cols, kind='mergesort')]: the stable sort.  A stable
    sort has one possible result, computed here by insertion from the
    right: a row goes in front of the first row that is not smaller. *)
Definition sort_values (cols : list (A -> Z)) (df : list A) : list A :=
  foldr (insert_row (lex_leb cols)) [] df.

End Frames.

(** [sorted(ks)] on integers. *)
Definition sorted (ks : list Z) : list Z :=
  foldr (insert_row Z.leb) [] ks.

(** [df.groupby(key)]: the groups in ascending key order, each with its
    rows in table order. *)
Definition groupby {A} (key : A -> Z) (df : list A) : list (Z * list A) :=
  map (fun k => (k, filter (fun r => key r = k) df))
      (sorted (remove_dups (map key df))).

(** [series.max()] of a non-empty integer column. *)
Definition col_max (l : list Z) : Z :=
  match l with
  | [] => 0
  | x :: l' => fold_left Z.max l' x
  end.

(** ** Pericope validator ([validate_pericopes], convert_to_lemmas.py) *)

(** The five messages of the validator, with the values each f-string
    interpolates, in the order they appear in the text. *)
Inductive warning :=
| W_overlap (chap start last_end : Z)
    (* "Cap {chap}: sobreposição: início {start} sobrepõe {last_end}." *)
| W_gap (chap last_end start : Z)
    (* "Cap {chap}: lacuna entre {last_end} e {start}." *)
| W_ends (chap last_end maxv : Z)
    (* "Cap {chap}: termina em {last_end}, mas deveria terminar em {maxv}." *)
| W_no_verses (chap : Z)
    (* "Cap {chap}: não há versos no CSV de versículos." *)
| W_beyond (chap : Z) (pid : string) (end_verse maxv : Z).
    (* "Cap {chap}: perícope {pid} termina em {end_verse} > {maxv}." *)

#[global] Instance warning_eq_dec : EqDecision warning.
Proof. solve_decision. Defined.

(** The two local variables the loops update. *)
Record vstate := mk_st { ok : bool; warnings : list warning }.

Definition warn (w : warning) (st : vstate) : vstate :=
  {| ok := ok st; warnings := warnings st ++ [w] |}.

Definition not_ok (st : vstate) : vstate :=
  {| ok := false; warnings := warnings st |}.

(** [last_verse = verses_df.groupby('chapter')['verse'].max().to_dict()] *)
Definition last_verse_of (verses_df : list V.row) : gmap Z Z :=
  list_to_map
    (map (fun cg : Z * list V.row => (cg.1, col_max (map V.verse cg.2)))
         (groupby V.chapter verses_df)).

(** Body of the inner loop, lines 91-99: the state and the cursor
    [last_end] before the row, to the state and the cursor after it. *)
Definition check_row (require_full_coverage : bool) (chap : Z)
    (acc : vstate * Z) (r : P.row) : vstate * Z :=
  let '(st, last_end) := acc in
  let st :=
    if (P.start_verse r <=? last_end) && negb (last_end =? 0)
    then warn (W_overlap chap (P.start_verse r) last_end) (not_ok st)
    else st in
  let st :=
    if negb (P.start_verse r =? last_end + 1)
    then let st := warn (W_gap chap last_end (P.start_verse r)) st in
         if require_full_coverage then not_ok st else st
    else st in
  (st, P.end_verse r).

(** The order in which the validator walks a chapter's pericopes, line 88:
    [grp.sort_values(['start_verse','end_verse'])].  On two columns pandas
    sorts lexicographically and keeps rows that tie on both in table
    order; such rows are alike to the loop, which reads these two columns
    only. *)
Definition walk_order (grp : list P.row) : list P.row :=
  sort_values [P.start_verse; P.end_verse] grp.

(** Body of the outer loop, lines 88-105, for one group of [groupby]. *)
Definition check_chapter (require_full_coverage : bool)
    (last_verse : gmap Z Z) (st : vstate) (cg : Z * list P.row) : vstate :=
  let chap := cg.1 in
  let grp := walk_order cg.2 in
  let '(st, last_end) :=
    fold_left (check_row require_full_coverage chap) grp (st, 0) in
  let maxv := default last_end (last_verse !! chap) in
  if negb (last_end =? maxv)
  then let st := warn (W_ends chap last_end maxv) st in
       if require_full_coverage then not_ok st else st
  else st.

(** Body of the second loop, lines 107-114. *)
Definition check_bounds (last_verse : gmap Z Z) (st : vstate) (r : P.row)
    : vstate :=
  match last_verse !! P.chapter r with
  | None => warn (W_no_verses (P.chapter r)) (not_ok st)
  | Some maxv =>
      if maxv <? P.end_verse r
      then warn (W_beyond (P.chapter r) (P.pericope_id r) (P.end_verse r) maxv)
                (not_ok st)
      else st
  end.

Definition validate_pericopes (verses_df : list V.row) (peris_df : pericopes_df)
    (require_full_coverage : bool) : bool * list warning :=
  let st := {| ok := true; warnings := [] |} in
  let last_verse := last_verse_of verses_df in
  let st := fold_left (check_chapter require_full_coverage last_verse)
                      (groupby P.chapter (rows peris_df)) st in
  let st := fold_left (check_bounds last_verse) (rows peris_df) st in
  (ok st, warnings st).

(** ** Overlap detector ([detect_overlaps], convert_csv_with_pericopes.py) *)

(** "Perícopes sobrepostas em capítulo {chap}: intervalo que começa em {s}
    sobrepõe o final {last_end}." *)
Record overlap_msg := mk_overlap { om_chap : Z; om_start : Z; om_last_end : Z }.

(** Body of the inner loop, lines 118-120, on an interval [(s, e)]. *)
Definition overlap_step (chap : Z) (acc : list (Z * overlap_msg) * Z)
    (se : Z * Z) : list (Z * overlap_msg) * Z :=
  let '(warnings, last_end) := acc in
  let warnings :=
    if se.1 <=? last_end
    then warnings ++ [(chap, mk_overlap chap se.1 last_end)]
    else warnings in
  (warnings, Z.max last_end se.2).

Definition detect_overlaps (peris : pericopes_df) : list (Z * overlap_msg) :=
  fold_left
    (fun warnings (cg : Z * list P.row) =>
       let intervals := map (fun r => (P.start_verse r, P.end_verse r)) cg.2 in
       let intervals_sorted := sort_values [fst; snd] intervals in
       (fold_left (overlap_step cg.1) intervals_sorted (warnings, - 10 ^ 9)).1)
    (groupby P.chapter (rows peris)) [].

(** ** Loaders: what [load_verses] and [load_pericopes] do to the frame
    once [read_csv], the column renaming and [astype(int)] are through *)

(** The frames of this development hold integers in their numeric
    columns, as a frame does after lines 47-48 and 69-72; on such a frame
    [astype(int)] changes nothing.  What [astype(int)] does to a column
    of another type (a float, an unsigned 64-bit value, a missing cell)
    and the check of the column names are not part of these two
    definitions: they are the sort and the [start_verse > end_verse]
    test. *)

Definition load_verses (df : list V.row) : list V.row :=
  sort_values [V.chapter; V.verse] df.

(** [None] is [sys.exit(1)]: some pericope has [start_verse > end_verse]. *)
Definition load_pericopes (df : pericopes_df) : option pericopes_df :=
  let sorted_rows :=
    if has_order df
    then sort_values [P.chapter; P.order; P.start_verse; P.end_verse] (rows df)
    else sort_values [P.chapter; P.start_verse; P.end_verse] (rows df) in
  let bad := filter (fun r => P.end_verse r < P.start_verse r) sorted_rows in
  match bad with
  | [] => Some {| has_order := has_order df; rows := sorted_rows |}
  | _ :: _ => None
  end.

(** ** Hierarchical assembler ([build_json], [build_chapter_structure]) *)

(** The output tree: the dictionaries that [json.dump] writes. *)
Module J.
Record verse_block (T : Type) := mk_verse { verse : Z; tokens : list T }.
Record pericope_block (T : Type) := mk_pericope {
  id : string;
  title : string;
  start_verse : Z;
  end_verse : Z;
  verses : list (verse_block T)
}.
Record chapter_block (T : Type) := mk_chapter {
  chapter : Z;
  pericopes : list (pericope_block T)
}.
Arguments mk_verse {T}.
Arguments verse {T}.
Arguments tokens {T}.
Arguments mk_pericope {T}.
Arguments id {T}.
Arguments title {T}.
Arguments start_verse {T}.
Arguments end_verse {T}.
Arguments verses {T}.
Arguments mk_chapter {T}.
Arguments chapter {T}.
Arguments pericopes {T}.
End J.

(** The three converters share the assembling loop line for line and
    differ in the tokenizer they call on [r.text]; the loop is stated once,
    over the tokenizer. *)
Section Assembler.
Context {T : Type} (tokenize : option pystr -> list T).

(** [sel = vdf[(vdf['verse'] >= start) & (vdf['verse'] <= end)]
           .sort_values('verse', kind='mergesort')] *)
Definition select_verses (vdf : list V.row) (row : P.row) : list V.row :=
  sort_values [V.verse]
    (filter (fun v => P.start_verse row <= V.verse v
                      /\ V.verse v <= P.end_verse row) vdf).

Definition verse_payload (r : V.row) : J.verse_block T :=
  {| J.verse := V.verse r; J.tokens := tokenize (V.text r) |}.

Definition pericope_payload (vdf : list V.row) (row : P.row)
    : J.pericope_block T :=
  {| J.id := P.pericope_id row;
     J.title := P.title row;
     J.start_verse := P.start_verse row;
     J.end_verse := P.end_verse row;
     J.verses := map verse_payload (select_verses vdf row) |}.

(** The chapter's pericopes in output order: by [order] when the frame
    has the column, then by interval.  A chapter without pericopes gets
    the empty frame, which has no [order] column. *)
Definition chapter_pericopes (pericopes_df : pericopes_df)
    (peris_by_chap : gmap Z (list P.row)) (chap : Z) : list P.row :=
  match peris_by_chap !! chap with
  | Some pdf =>
      if has_order pericopes_df
      then sort_values [P.order; P.start_verse; P.end_verse] pdf
      else sort_values [P.start_verse; P.end_verse] pdf
  | None => sort_values [P.start_verse; P.end_verse] []
  end.

Definition build_chapters (verses_df : list V.row)
    (pericopes_df : pericopes_df) : list (J.chapter_block T) :=
  let verses_by_chap : gmap Z (list V.row) :=
    list_to_map (groupby V.chapter verses_df) in
  let peris_by_chap : gmap Z (list P.row) :=
    list_to_map (groupby P.chapter (rows pericopes_df)) in
  map (fun chap =>
         let vdf := default [] (verses_by_chap !! chap) in
         let pdf := chapter_pericopes pericopes_df peris_by_chap chap in
         {| J.chapter := chap;
            J.pericopes := map (pericope_payload vdf) pdf |})
      (sorted (elements (dom verses_by_chap ∪ dom peris_by_chap))).
End Assembler.

(** ** Token extractors *)

(** *** The regular expressions

    The scripts' patterns are sequences of literals and of greedy [+]
    repetitions of a character class, some of them capturing.  [re] tries
    a greedy repetition at its longest run first and gives characters back
    one at a time while the rest of the pattern fails. *)

Inductive item :=
| Lit (c : Z)                               (* one literal character *)
| Plus (capture : bool) (cls : Z -> bool).  (* [cls+], [(cls+)] *)

Fixpoint run_length (cls : Z -> bool) (s : pystr) : nat :=
  match s with
  | c :: s' => if cls c then S (run_length cls s') else O
  | [] => O
  end.

(** The first success among [f k], [f (k-1)], ..., [f 1]. *)
Fixpoint longest_first {A : Type} (f : nat -> option A) (k : nat) : option A :=
  match k with
  | O => None
  | S k' => match f k with
            | Some r => Some r
            | None => longest_first f k'
            end
  end.

(** A match of the pattern at the start of [s]: the captured groups and
    the text left after the match. *)
Fixpoint match_here (p : list item) (s : pystr) : option (list pystr * pystr) :=
  match p with
  | [] => Some ([], s)
  | Lit c :: p' =>
      match s with
      | x :: s' => if x =? c then match_here p' s' else None
      | [] => None
      end
  | Plus capture cls :: p' =>
      longest_first
        (fun k =>
           match match_here p' (drop k s) with
           | Some (groups, rest) =>
               Some (if capture then take k s :: groups else groups, rest)
           | None => None
           end)
        (run_length cls s)
  end.

(** [pattern.findall(s)]: the groups of the matches found scanning left
    to right, each scan resuming where the last match ended.  [skip]
    counts the characters of a match still to step over.  The scripts'
    patterns take at least one character at every match. *)
Fixpoint findall_from (p : list item) (skip : nat) (s : pystr)
    : list (list pystr) :=
  match s with
  | [] => match skip, match_here p [] with
          | O, Some (groups, _) => [groups]
          | _, _ => []
          end
  | _ :: s' =>
      match skip with
      | S k => findall_from p k s'
      | O => match match_here p s with
             | Some (groups, rest) =>
                 groups :: findall_from p (length s - length rest - 1) s'
             | None => findall_from p O s'
             end
      end
  end.

Definition findall (p : list item) (s : pystr) : list (list pystr) :=
  findall_from p O s.

(** *** Character classes of [re] on [str] patterns

    [\s] is the Unicode whitespace of [str.isspace]; [\d] is the Unicode
    category Nd (the decimal digits of every script), here as of
    Unicode 14. *)

Definition in_ranges (rs : list (Z * Z)) (c : Z) : bool :=
  existsb (fun r => (r.1 <=? c) && (c <=? r.2)) rs.

Definition whitespace_ranges : list (Z * Z) :=
  [(0x9, 0xd); (0x1c, 0x20); (0x85, 0x85); (0xa0, 0xa0); (0x1680, 0x1680);
   (0x2000, 0x200a); (0x2028, 0x2029); (0x202f, 0x202f); (0x205f, 0x205f);
   (0x3000, 0x3000)].

Definition decimal_ranges : list (Z * Z) :=
  [(0x30, 0x39); (0x660, 0x669); (0x6f0, 0x6f9); (0x7c0, 0x7c9);
   (0x966, 0x96f); (0x9e6, 0x9ef); (0xa66, 0xa6f); (0xae6, 0xaef);
   (0xb66, 0xb6f); (0xbe6, 0xbef); (0xc66, 0xc6f); (0xce6, 0xcef);
   (0xd66, 0xd6f); (0xde6, 0xdef); (0xe50, 0xe59); (0xed0, 0xed9);
   (0xf20, 0xf29); (0x1040, 0x1049); (0x1090, 0x1099); (0x17e0, 0x17e9);
   (0x1810, 0x1819); (0x1946, 0x194f); (0x19d0, 0x19d9); (0x1a80, 0x1a89);
   (0x1a90, 0x1a99); (0x1b50, 0x1b59); (0x1bb0, 0x1bb9); (0x1c40, 0x1c49);
   (0x1c50, 0x1c59); (0xa620, 0xa629); (0xa8d0, 0xa8d9); (0xa900, 0xa909);
   (0xa9d0, 0xa9d9); (0xa9f0, 0xa9f9); (0xaa50, 0xaa59); (0xabf0, 0xabf9);
   (0xff10, 0xff19); (0x104a0, 0x104a9); (0x10d30, 0x10d39);
   (0x11066, 0x1106f); (0x110f0, 0x110f9); (0x11136, 0x1113f);
   (0x111d0, 0x111d9); (0x112f0, 0x112f9); (0x11450, 0x11459);
   (0x114d0, 0x114d9); (0x11650, 0x11659); (0x116c0, 0x116c9);
   (0x11730, 0x11739); (0x118e0, 0x118e9); (0x11950, 0x11959);
   (0x11c50, 0x11c59); (0x11d50, 0x11d59); (0x11da0, 0x11da9);
   (0x16a60, 0x16a69); (0x16ac0, 0x16ac9); (0x16b50, 0x16b59);
   (0x1d7ce, 0x1d7ff); (0x1e140, 0x1e149); (0x1e2f0, 0x1e2f9);
   (0x1e950, 0x1e959); (0x1fbf0, 0x1fbf9)].

Definition isspace : Z -> bool := in_ranges whitespace_ranges.   (* \s *)
Definition isdigit : Z -> bool := in_ranges decimal_ranges.      (* \d *)

Definition lbrace : Z := 0x7b.   (* { *)
Definition rbrace : Z := 0x7d.   (* } *)

(** [[^\s{}]] and [[^}]] *)
Definition surface_char (c : Z) : bool :=
  negb (isspace c || (c =? lbrace) || (c =? rbrace)).
Definition morph_char (c : Z) : bool := negb (c =? rbrace).

(** [TOKEN_RE = re.compile(r'([^\s{}]+)\s+(\d+)\s+\{([^}]+)\}')] *)
Definition TOKEN_RE : list item :=
  [Plus true surface_char; Plus false isspace; Plus true isdigit;
   Plus false isspace; Lit lbrace; Plus true morph_char; Lit rbrace].

(** [GREEK_WORD_RE = re.compile(r'([\u0370-\u03FF\u1F00-\u1FFF]+)')] *)
Definition greek_char : Z -> bool :=
  in_ranges [(0x370, 0x3ff); (0x1f00, 0x1fff)].
Definition GREEK_WORD_RE : list item := [Plus true greek_char].

(** *** [parse_tokens] (convert_csv_with_pericopes.py) *)

Record token := mk_token { greek : pystr; strongs : pystr; morph : pystr }.

(** [{"greek": g, "strongs": s, "morph": m} for g, s, m in ...]: the
    pattern has three groups, so every match unpacks. *)
Definition token_of_groups (groups : list pystr) : option token :=
  match groups with
  | [g; s; m] => Some {| greek := g; strongs := s; morph := m |}
  | _ => None
  end.

Definition parse_tokens (text : option pystr) : list token :=
  match text with
  | None => []           (* not isinstance(text, str) *)
  | Some text => omap token_of_groups (findall TOKEN_RE text)
  end.

(** *** [parse_lemmas_text_only] (convert_to_lemmas.py) *)

Record lemma_token := mk_lemma { lemma : pystr }.

(** [str.split()]: the maximal runs of characters that are not
    whitespace; [cur] is the run being read, reversed. *)
Fixpoint split_from (cur : pystr) (s : pystr) : list pystr :=
  match s with
  | [] => match cur with [] => [] | _ => [rev cur] end
  | c :: s' =>
      if isspace c
      then match cur with
           | [] => split_from [] s'
           | _ => rev cur :: split_from [] s'
           end
      else split_from (c :: cur) s'
  end.

Definition split (s : pystr) : list pystr := split_from [] s.

(** [str.strip()] *)
Definition lstrip (s : pystr) : pystr := drop (run_length isspace s) s.
Definition strip (s : pystr) : pystr := rev (lstrip (rev (lstrip s))).

Definition word_of_groups (groups : list pystr) : option pystr :=
  match groups with
  | [w] => Some w
  | _ => None
  end.

Definition parse_lemmas_text_only (fallback_ws : bool) (text : option pystr)
    : list lemma_token :=
  match text with
  | None => []
  | Some text =>
      let words := omap word_of_groups (findall GREEK_WORD_RE text) in
      match words, fallback_ws with
      | [], true =>
          let parts :=
            filter (fun w => strip w <> []) (split text) in
          map mk_lemma parts
      | _, _ => map mk_lemma words
      end
  end.

(** *** The assemblers of the two scripts *)

(** [build_json(verses_df, pericopes_df, logger, fallback_ws)]; the
    logger line for a verse without tokens leaves the result as it is. *)
Definition build_json (verses_df : list V.row) (pericopes_df : pericopes_df)
    (fallback_ws : bool) : list (J.chapter_block lemma_token) :=
  build_chapters (parse_lemmas_text_only fallback_ws) verses_df pericopes_df.

(** [build_chapter_structure(verses_df, pericopes_df)] *)
Definition build_chapter_structure (verses_df : list V.row)
    (pericopes_df : pericopes_df) : list (J.chapter_block token) :=
  build_chapters parse_tokens verses_df pericopes_df.

(** The text of the specification's example,
    "λόγος 3056 {N-NSM} ἦν 1510 {V-IAI3S}". *)
Definition logos_text : pystr :=
  [0x3bb; 0x3cc; 0x3b3; 0x3bf; 0x3c2; 0x20; 0x33; 0x30; 0x35; 0x36; 0x20;
   0x7b; 0x4e; 0x2d; 0x4e; 0x53; 0x4d; 0x7d; 0x20; 0x1f26; 0x3bd; 0x20;
   0x31; 0x35; 0x31; 0x30; 0x20; 0x7b; 0x56; 0x2d; 0x49; 0x41; 0x49; 0x33;
   0x53; 0x7d].

(** *** Small inputs *)

Definition verses_1_to (n : nat) (chap : Z) : list V.row :=
  map (fun i => V.mk chap (Z.of_nat i) (Some [])) (seq 1 n).

Definition peri (pid : string) (chap s e : Z) : P.row :=
  P.mk pid "t" chap s e 0.


(** ** The command line ([main], convert_to_lemmas.py)

    [main] on the two frames as [read_csv] gives them, with their required
    columns present and integer: what follows the column checks.
    [--verbose] and [--log-file] only steer the logger. *)

Record cli_args := mk_args {
  arg_require_full_coverage : bool;   (* --require-full-coverage *)
  arg_strict : bool;                  (* --strict *)
  arg_fallback_whitespace : bool      (* --fallback-whitespace *)
}.

(** How a run ends: [sys.exit(code)], or the tree written to the output
    file (exit status 0). *)
Inductive outcome :=
| Exit (code : Z)
| Saved (data : list (J.chapter_block lemma_token)).

Definition main (args : cli_args) (verses : list V.row) (peris : pericopes_df)
    : outcome :=
  let verses_df := load_verses verses in
  match load_pericopes peris with
  | None => Exit 1
  | Some pericopes_df =>
      let '(ok, warnings) :=
        validate_pericopes verses_df pericopes_df
          (arg_require_full_coverage args) in
      match arg_strict args, warnings with
      | true, _ :: _ => Exit 2      (* if args.strict and warnings *)
      | _, _ =>
          Saved (build_json verses_df pericopes_df
                   (arg_fallback_whitespace args))
      end
  end.

(** ** convert_to_lemmas_json.py

    The lemma-only converter: the pattern of [parse_tokens] with the
    surface as its one group, and the assembling loop over it. *)
Module LemmasJson.

(** [TOKEN_RE = re.compile(r'([^\s{}]+)\s+\d+\s+\{[^}]+\}')] *)
Definition TOKEN_RE : list item :=
  [Plus true surface_char; Plus false isspace; Plus false isdigit;
   Plus false isspace; Lit lbrace; Plus false morph_char; Lit rbrace].

Definition parse_lemmas (text : option pystr) : list lemma_token :=
  match text with
  | None => []           (* not isinstance(text, str) *)
  | Some text =>
      let lemmas := omap word_of_groups (findall TOKEN_RE text) in
      map mk_lemma lemmas
  end.

Definition build_json (verses_df : list V.row) (pericopes_df : pericopes_df)
    : list (J.chapter_block lemma_token) :=
  build_chapters parse_lemmas verses_df pericopes_df.

End LemmasJson.

(** ** Column names ([lower_map_cols], [_lower_map_cols])

    [str.lower] is the library's; the functions are stated over it. *)
Section Columns.
Variable lower : pystr -> pystr.

(** [{c.lower(): c for c in df.columns}] *)
Definition lower_map_cols (columns : list pystr) : gmap pystr pystr :=
  fold_left (fun cmap c => <[lower c := c]> cmap) columns ∅.

(** The column check of the loaders: the columns of the file that stand
    for the required names, [None] when one is missing
    ([sys.exit(1)], [SystemExit]). *)
Definition resolve_columns (required : list pystr) (columns : list pystr)
    : option (list pystr) :=
  let cmap := lower_map_cols columns in
  mapM (fun k => cmap !! k) required.

End Columns.

(** ** convert_csv_to_nested_json.py

    The converter without pericopes, on a frame whose [chapter] and
    [verse] columns read as integers. *)
Module Nested.

(** A cell of the [text] column: a string, or a value that is not one,
    which [text or ""] replaces by the empty string when it is falsy (0,
    0.0) and passes on when it is truthy (NaN, any other number). *)
Inductive cell :=
| Str (s : pystr)
| Falsy
| Truthy.

Record row := mk { chapter : Z; verse : Z; text : cell }.

(** [pattern.findall(text or "")]; [None] is the [TypeError] of [findall]
    on a value that is not a string. *)
Definition parse_tokens (text : cell) : option (list token) :=
  match text with
  | Str s => Some (omap token_of_groups (findall TOKEN_RE s))
  | Falsy => Some (omap token_of_groups (findall TOKEN_RE []))
  | Truthy => None
  end.

(** [itertools.groupby(rows, key)]: the runs of consecutive rows with the
    same key. *)
Fixpoint groupby_consecutive {A} (key : A -> Z) (l : list A)
    : list (Z * list A) :=
  match l with
  | [] => []
  | x :: l' =>
      match groupby_consecutive key l' with
      | (k, g) :: rest =>
          if decide (key x = k)
          then (k, x :: g) :: rest
          else (key x, [x]) :: (k, g) :: rest
      | [] => [(key x, [x])]
      end
  end.

(** The tree [convert_csv_to_json] dumps, from the frame with its three
    columns: a list of one-key objects [{str(chap): verses_list}], each
    verse a one-key object [{str(verse): tokens}]; the keys are kept as
    the integers they print.  [None] is the [TypeError]. *)
Definition convert_csv_to_json (df : list row)
    : option (list (Z * list (Z * list token))) :=
  let df := sort_values [chapter; verse] df in
  mapM (fun cg : Z * list row =>
          verses_list ← mapM (fun r => toks ← parse_tokens (text r);
                                       Some (verse r, toks)) cg.2;
          Some (cg.1, verses_list))
       (groupby_consecutive chapter df).

End Nested.
(** * Vocabulary of the properties *)

(** ** Validator *)

(** The pericopes of one chapter, in table order: the group that
    [groupby('chapter')] hands to the loop. *)
Definition chapter_rows (peris : pericopes_df) (chap : Z) : list P.row :=
  filter (fun r => P.chapter r = chap) (rows peris).

(** What one pass of the inner loop body does, read off [check_row]: the
    cursor it leaves and the warnings it appends. *)
Definition step_cursor (last_end : Z) (r : P.row) : Z :=
  (check_row false 0 (mk_st true [], last_end) r).2.

Definition row_warnings (chap last_end : Z) (r : P.row) : list warning :=
  warnings (check_row false chap (mk_st true [], last_end) r).1.

(** Each pericope of a walk with the cursor the loop holds on reaching it. *)
Fixpoint visits (last_end : Z) (grp : list P.row) : list (P.row * Z) :=
  match grp with
  | [] => []
  | r :: grp' => (r, last_end) :: visits (step_cursor last_end r) grp'
  end.

Definition last_cursor (last_end : Z) (grp : list P.row) : Z :=
  fold_left step_cursor grp last_end.

Definition chapter_visits (peris : pericopes_df) (chap : Z)
    : list (P.row * Z) :=
  visits 0 (walk_order (chapter_rows peris chap)).

(** The warnings that make the verdict [False]: every class when
    [require_full_coverage] is set, all but gaps and coverage mismatches
    when it is not. *)
Definition fatal (require_full_coverage : bool) (w : warning) : bool :=
  match w with
  | W_gap _ _ _ | W_ends _ _ _ => require_full_coverage
  | _ => true
  end.

Definition walk_warnings (chap last_end : Z) (grp : list P.row)
    : list warning :=
  flat_map (fun rc => row_warnings chap rc.2 rc.1) (visits last_end grp).

Definition end_warnings (last_verse : gmap Z Z) (chap last_end : Z)
    : list warning :=
  let maxv := default last_end (last_verse !! chap) in
  if negb (last_end =? maxv) then [W_ends chap last_end maxv] else [].

Definition chapter_warnings (last_verse : gmap Z Z) (chap : Z)
    (grp : list P.row) : list warning :=
  walk_warnings chap 0 (walk_order grp)
  ++ end_warnings last_verse chap (last_cursor 0 (walk_order grp)).

Definition bounds_warnings (last_verse : gmap Z Z) (r : P.row)
    : list warning :=
  warnings (check_bounds last_verse (mk_st true []) r).

Definition all_warnings (verses_df : list V.row) (peris : pericopes_df)
    : list warning :=
  flat_map (fun cg : Z * list P.row =>
              chapter_warnings (last_verse_of verses_df) cg.1 cg.2)
           (groupby P.chapter (rows peris))
  ++ flat_map (bounds_warnings (last_verse_of verses_df)) (rows peris).

(** [m] is the largest verse number the verses table has for [chap]. *)
Definition chapter_max (verses_df : list V.row) (chap m : Z) : Prop :=
  (exists v, v ∈ verses_df /\ V.chapter v = chap /\ V.verse v = m)
  /\ forall v, v ∈ verses_df -> V.chapter v = chap -> V.verse v <= m.

(** The specification's gap example: chapter 1 with pericopes 1-2 and 5-6. *)
Definition gap_table : pericopes_df :=
  mk_df false [peri "P1" 1 1 2; peri "P2" 1 5 6].

(** Pericopes 1-3 and 3-5 of chapter 1, which share verse 3. *)
Definition overlap_table : pericopes_df :=
  mk_df false [peri "P1" 1 1 3; peri "P2" 1 3 5].

(** A pericope nested in the one before it: 1-10, then 2-3. *)
Definition nested_table : pericopes_df :=
  mk_df false [peri "P1" 1 1 10; peri "P2" 1 2 3].

(** The order of a chapter's pericopes in the data model: by the
    [order] column when the table has it, else by interval.  It is the
    order [chapter_pericopes] puts them in for the output. *)
Definition canonical_order (peris : pericopes_df) (grp : list P.row)
    : list P.row :=
  if has_order peris
  then sort_values [P.order; P.start_verse; P.end_verse] grp
  else sort_values [P.start_verse; P.end_verse] grp.

(** A table whose [order] column puts verses 4-6 before verses 1-3. *)
Definition reordered_table : pericopes_df :=
  mk_df true [P.mk "A" "t" 1 4 6 1; P.mk "B" "t" 1 1 3 2].

(** The row with another value in its [order] column. *)
Definition set_order (f : P.row -> Z) (r : P.row) : P.row :=
  P.mk (P.pericope_id r) (P.title r) (P.chapter r)
       (P.start_verse r) (P.end_verse r) (f r).

(** Ascending [(start_verse, end_verse)]. *)
Definition interval_le (a b : P.row) : Prop :=
  P.start_verse a < P.start_verse b
  \/ (P.start_verse a = P.start_verse b /\ P.end_verse a <= P.end_verse b).

(** The messages of the first loop (overlap, gap, end of chapter) that are
    about chapter [chap]: what the walk of that chapter has to say. *)
Definition walk_warning (chap : Z) (w : warning) : bool :=
  match w with
  | W_overlap c _ _ | W_gap c _ _ | W_ends c _ _ => c =? chap
  | W_no_verses _ | W_beyond _ _ _ _ => false
  end.

(** ** Assembler *)

(** The chapter numbers of the output, [sorted(set(...) | set(...))]. *)
Definition chapter_keys (verses_df : list V.row) (peris : pericopes_df)
    : list Z :=
  sorted (elements (list_to_set (map V.chapter verses_df)
                    ∪ list_to_set (map P.chapter (rows peris)) : gset Z)).

(** The verse row lies in the pericope's chapter and inclusive interval. *)
Definition covers (r : P.row) (v : V.row) : Prop :=
  P.chapter r = V.chapter v
  /\ P.start_verse r <= V.verse v /\ V.verse v <= P.end_verse r.

#[global] Instance covers_dec r v : Decision (covers r v).
Proof. unfold covers. apply _. Defined.

(** The number of tokens in all the verse blocks of an output tree. *)
Definition n_tokens {T} (out : list (J.chapter_block T)) : nat :=
  sum_list_with
    (fun cb =>
       sum_list_with
         (fun pb => sum_list_with (fun vb => length (J.tokens vb)) (J.verses pb))
         (J.pericopes cb))
    out.

(** The count the specification gives: the extractor's tokens for the
    verse rows that some pericope covers, each row once. *)
Definition covered_once_tokens {T} (tokenize : option pystr -> list T)
    (verses_df : list V.row) (peris : pericopes_df) : nat :=
  sum_list_with (fun v => length (tokenize (V.text v)))
    (filter (fun v => Exists (fun r => covers r v) (rows peris)) verses_df).

(** The count the assembler produces: each verse row once for every
    pericope that covers it. *)
Definition covered_each_tokens {T} (tokenize : option pystr -> list T)
    (verses_df : list V.row) (peris : pericopes_df) : nat :=
  sum_list_with
    (fun v => (length (filter (fun r => covers r v) (rows peris))
               * length (tokenize (V.text v)))%nat)
    verses_df.

(** Verses 1..n of a chapter, each with the text of the example. *)
Definition logos_verses (n : nat) (chap : Z) : list V.row :=
  map (fun i => V.mk chap (Z.of_nat i) (Some logos_text)) (seq 1 n).

(** Chapter 1 with pericopes 1-2 and 5-6, and a pericope of chapter 2. *)
Definition sparse_table : pericopes_df :=
  mk_df false [peri "P1" 1 1 2; peri "P2" 1 5 6; peri "P3" 2 1 3].

(** ** Token extractor *)

(** A match of a pattern at the start of a text, as a relation: the
    groups it captures and the text it leaves. *)
Inductive Matches : list item -> pystr -> list pystr -> pystr -> Prop :=
| M_nil s : Matches [] s [] s
| M_lit c p s groups rest :
    Matches p s groups rest ->
    Matches (Lit c :: p) (c :: s) groups rest
| M_plus capture cls p run s groups rest :
    run <> [] ->
    Forall (fun c => cls c = true) run ->
    Matches p s groups rest ->
    Matches (Plus capture cls :: p) (run ++ s)
            (if capture then run :: groups else groups) rest.

(** The text does not go on with a character of the class. *)
Definition stops (cls : Z -> bool) (s : pystr) : Prop :=
  match s with
  | [] => True
  | c :: _ => cls c = false
  end.

(** No position of one list of ranges lies in a range of the other. *)
Definition ranges_disjoint (rs1 rs2 : list (Z * Z)) : bool :=
  forallb (fun a => forallb (fun b => (a.2 <? b.1) || (b.2 <? a.1)) rs2) rs1.

(** One occurrence of the triple pattern: a run of characters that are
    neither whitespace nor braces, whitespace, a decimal number,
    whitespace, and a code in braces.  [src] is the text of the
    occurrence. *)
Inductive Triple : pystr -> token -> Prop :=
| triple_intro g w1 d w2 m :
    g <> [] -> Forall (fun c => surface_char c = true) g ->
    w1 <> [] -> Forall (fun c => isspace c = true) w1 ->
    d <> [] -> Forall (fun c => isdigit c = true) d ->
    w2 <> [] -> Forall (fun c => isspace c = true) w2 ->
    m <> [] -> Forall (fun c => morph_char c = true) m ->
    Triple (g ++ w1 ++ d ++ w2 ++ [lbrace] ++ m ++ [rbrace])
           (mk_token g d m).

(** The occurrences of the triple pattern in a text, from left to right
    and without overlap: where an occurrence starts it is taken and the
    search goes on after it; elsewhere the search moves one character on. *)
Inductive Occurrences : pystr -> list token -> Prop :=
| occ_nil : Occurrences [] []
| occ_skip c s toks :
    (forall src tok rest, c :: s = src ++ rest -> ~ Triple src tok) ->
    Occurrences s toks ->
    Occurrences (c :: s) toks
| occ_match src tok rest toks :
    Triple src tok ->
    Occurrences rest toks ->
    Occurrences (src ++ rest) (tok :: toks).

(** Non-empty surface, all-digit non-empty strongs, non-empty morph. *)
Definition token_wf (tok : token) : Prop :=
  greek tok <> []
  /\ strongs tok <> [] /\ Forall (fun c => isdigit c = true) (strongs tok)
  /\ morph tok <> [].

(** The tokens of the specification's example. *)
Definition logos_tokens : list token :=
  [mk_token [0x3bb; 0x3cc; 0x3b3; 0x3bf; 0x3c2] [0x33; 0x30; 0x35; 0x36]
            [0x4e; 0x2d; 0x4e; 0x53; 0x4d];
   mk_token [0x1f26; 0x3bd] [0x31; 0x35; 0x31; 0x30]
            [0x56; 0x2d; 0x49; 0x41; 0x49; 0x33; 0x53]].

(** Inversion of a match of a pattern given item by item. *)
Ltac invert_match :=
  match goal with
  | H : Matches (_ :: _) _ _ _ |- _ => inversion H; subst; clear H
  | H : Matches [] _ _ _ |- _ => inversion H; subst; clear H
  end.

(** * Further vocabulary *)

(** ** Validator *)

(** The pericopes, in the order given, tile the verses [c + 1 .. m]: the
    first starts at [c + 1], each next one right after the end of the one
    before, and the last ends at [m]. *)
Fixpoint tiles (c : Z) (grp : list P.row) (m : Z) : Prop :=
  match grp with
  | [] => c = m
  | r :: grp' => P.start_verse r = c + 1 /\ tiles (P.end_verse r) grp' m
  end.

(** The chapter a warning is about. *)
Definition warning_chapter (w : warning) : Z :=
  match w with
  | W_overlap chap _ _ | W_gap chap _ _ | W_ends chap _ _
  | W_no_verses chap | W_beyond chap _ _ _ => chap
  end.

(** A clean table: chapter 1 in pericopes 1-3 and 4-6. *)
Definition clean_table : pericopes_df :=
  mk_df false [peri "P1" 1 1 3; peri "P2" 1 4 6].

(** ** Overlap detector *)

Definition interval_of (r : P.row) : Z * Z := (P.start_verse r, P.end_verse r).

(** Two inclusive intervals share a verse number. *)
Definition meets (a b : Z * Z) : Prop := a.1 <= b.2 /\ b.1 <= a.2.

(** No two pericopes of a chapter share a verse number. *)
Definition apart (r1 r2 : P.row) : Prop :=
  P.chapter r1 = P.chapter r2 -> ~ meets (interval_of r1) (interval_of r2).

(** The warnings the inner loop of [detect_overlaps] appends on a list of
    intervals, read off [overlap_step]. *)
Fixpoint scan_overlaps (chap last_end : Z) (ivs : list (Z * Z))
    : list (Z * overlap_msg) :=
  match ivs with
  | [] => []
  | se :: ivs' =>
      (overlap_step chap ([], last_end) se).1
      ++ scan_overlaps chap (overlap_step chap ([], last_end) se).2 ivs'
  end.

(** ** Loaders *)

(** The sort columns of [load_pericopes]. *)
Definition pericope_sort_cols (with_order : bool) : list (P.row -> Z) :=
  if with_order
  then [P.chapter; P.order; P.start_verse; P.end_verse]
  else [P.chapter; P.start_verse; P.end_verse].

(** A table with an [order] column, out of order, none inverted. *)
Definition shuffled_table : pericopes_df :=
  mk_df true [P.mk "C" "t" 2 1 4 1; P.mk "B" "t" 1 4 6 2; P.mk "A" "t" 1 1 3 1].

(** A table with an inverted pericope. *)
Definition inverted_table : pericopes_df :=
  mk_df false [peri "P1" 1 1 3; peri "P2" 1 6 4].

(** [shuffled_table] as [load_pericopes] returns it. *)
Definition loaded_table : pericopes_df :=
  mk_df true [P.mk "A" "t" 1 1 3 1; P.mk "B" "t" 1 4 6 2; P.mk "C" "t" 2 1 4 1].

(** ** Assembler *)

(** What identifies a pericope in the output: its chapter block and the
    fields its own block carries. *)
Definition block_key {T} (cb : J.chapter_block T) (pb : J.pericope_block T)
    : Z * string * string * Z * Z :=
  (J.chapter cb, J.id pb, J.title pb, J.start_verse pb, J.end_verse pb).

Definition row_key (r : P.row) : Z * string * string * Z * Z :=
  (P.chapter r, P.pericope_id r, P.title r, P.start_verse r, P.end_verse r).

(** ** Words *)

(** The words of a text for a class of characters: its maximal runs of
    characters of the class, from left to right. *)
Inductive Words (cls : Z -> bool) : pystr -> list pystr -> Prop :=
| words_nil : Words cls [] []
| words_skip c s ws :
    cls c = false -> Words cls s ws -> Words cls (c :: s) ws
| words_run w s ws :
    w <> [] -> Forall (fun c => cls c = true) w -> stops cls s ->
    Words cls s ws ->
    Words cls (w ++ s) (w :: ws).

Definition notspace (c : Z) : bool := negb (isspace c).

(** "ἐν ἀρχῇ" and "abc 12": a text with Greek words and one without. *)
Definition en_arche : pystr :=
  [0x1f10; 0x3bd; 0x20; 0x1f00; 0x3c1; 0x3c7; 0x1fc7].
Definition abc_12 : pystr := [0x61; 0x62; 0x63; 0x20; 0x31; 0x32].

(** ** Tokens and their text *)

(** The three parts of a token fit the pattern: a surface without
    whitespace and braces, a number in decimal digits, a code without a
    closing brace, none of them empty. *)
Definition token_fits (tok : token) : Prop :=
  greek tok <> [] /\ Forall (fun c => surface_char c = true) (greek tok)
  /\ strongs tok <> [] /\ Forall (fun c => isdigit c = true) (strongs tok)
  /\ morph tok <> [] /\ Forall (fun c => morph_char c = true) (morph tok).

(** The text of the verses table as the script's docstring gives it:
    "<greek> <strongs> {<morph>}", repeated with a space between. *)
Definition format_token (tok : token) : pystr :=
  greek tok ++ [0x20] ++ strongs tok ++ [0x20] ++ [lbrace] ++ morph tok
  ++ [rbrace].

Fixpoint format_tokens (toks : list token) : pystr :=
  match toks with
  | [] => []
  | tok :: toks' =>
      match toks' with
      | [] => format_token tok
      | _ :: _ => format_token tok ++ 0x20 :: format_tokens toks'
      end
  end.

(** The characters a token takes of its text at the least: its three
    parts, two separators and two braces. *)
Definition token_size (tok : token) : nat :=
  (length (greek tok) + length (strongs tok) + length (morph tok) + 4)%nat.

(** ** Column names *)

(** Lower case on ASCII letters, where [str.lower] does the same. *)
Definition ascii_lower (s : pystr) : pystr :=
  map (fun c => if (0x41 <=? c) && (c <=? 0x5a) then c + 0x20 else c) s.

(** "chapter", "verse", "text", "Chapter", "VERSE". *)
Definition col_chapter : pystr := [0x63; 0x68; 0x61; 0x70; 0x74; 0x65; 0x72].
Definition col_verse : pystr := [0x76; 0x65; 0x72; 0x73; 0x65].
Definition col_text : pystr := [0x74; 0x65; 0x78; 0x74].
Definition col_Chapter : pystr := [0x43; 0x68; 0x61; 0x70; 0x74; 0x65; 0x72].
Definition col_VERSE : pystr := [0x56; 0x45; 0x52; 0x53; 0x45].

(** ** The converter without pericopes *)

(** The tokens [Nested.parse_tokens] gives for a cell that does not make
    it fail. *)
Definition cell_tokens (text : Nested.cell) : list token :=
  match text with
  | Nested.Str s => parse_tokens (Some s)
  | _ => []
  end.

(** The verse of a row as the tree lists it under its chapter. *)
Definition nested_entry (r : Nested.row) : Z * Z * list token :=
  (Nested.chapter r, Nested.verse r, cell_tokens (Nested.text r)).

(** The verses of a tree, each with the chapter it is listed under. *)
Definition nested_flat (tree : list (Z * list (Z * list token)))
    : list (Z * Z * list token) :=
  concat (map (fun cv : Z * list (Z * list token) =>
                 map (fun vt : Z * list token => (cv.1, vt.1, vt.2)) cv.2)
              tree).

(** * Properties *)

(** ** Sorting *)

Section SortFacts.
Context {A : Type} (leb : A -> A -> bool).

Lemma insert_row_perm x l : insert_row leb x l ≡ₚ x :: l.
Proof.
  induction l as [|y l IH]; simpl; [done|].
  destruct (leb x y); [done|].
  rewrite IH. apply Permutation_swap.
Qed.

Lemma foldr_insert_perm l : foldr (insert_row leb) [] l ≡ₚ l.
Proof.
  induction l as [|x l IH]; simpl; [done|].
  rewrite insert_row_perm. by rewrite IH.
Qed.

Hypothesis leb_total : forall x y, leb x y = true \/ leb y x = true.
Hypothesis leb_trans :
  forall x y z, leb x y = true -> leb y z = true -> leb x z = true.

Lemma insert_row_sorted x l :
  StronglySorted (fun a b => leb a b = true) l ->
  StronglySorted (fun a b => leb a b = true) (insert_row leb x l).
Proof.
  induction 1 as [|y l Hs IH Hy]; simpl.
  - repeat constructor.
  - destruct (leb x y) eqn:Hxy.
    + constructor; [by constructor|].
      constructor; [done|].
      eapply Forall_impl; [exact Hy|]. intros z Hz. by eapply leb_trans.
    + constructor; [done|].
      eapply Forall_forall. intros z Hz.
      rewrite insert_row_perm in Hz.
      apply elem_of_cons in Hz as [->|Hz].
      * destruct (leb_total x y); congruence.
      * rewrite Forall_forall in Hy. by apply Hy.
Qed.

Lemma foldr_insert_sorted l :
  StronglySorted (fun a b => leb a b = true) (foldr (insert_row leb) [] l).
Proof.
  induction l; simpl; [constructor|]. by apply insert_row_sorted.
Qed.

(** Inserting into a sorted list and then selecting is selecting and
    then inserting: the sort is stable. *)
Lemma filter_insert_row (Q : A -> Prop) `{!forall x, Decision (Q x)} x l :
  StronglySorted (fun a b => leb a b = true) l ->
  filter Q (insert_row leb x l)
  = if decide (Q x) then insert_row leb x (filter Q l) else filter Q l.
Proof.
  induction 1 as [|y l Hs IH Hy]; simpl.
  - rewrite filter_cons, filter_nil. by destruct (decide (Q x)).
  - destruct (leb x y) eqn:Hxy.
    + rewrite !filter_cons. destruct (decide (Q x)); [|done].
      destruct (decide (Q y)); simpl; [by rewrite Hxy|].
      clear IH. induction l as [|z l IHl]; [done|].
      apply Forall_cons in Hy as [Hz Hy]. apply StronglySorted_inv in Hs as [Hs Hzl].
      rewrite filter_cons. destruct (decide (Q z)); simpl.
      * by rewrite (leb_trans x y z Hxy Hz).
      * by apply IHl.
    + rewrite !filter_cons. destruct (decide (Q y)); simpl.
      * rewrite IH. destruct (decide (Q x)); [|done]. by rewrite Hxy.
      * by rewrite IH.
Qed.

Lemma filter_foldr_insert (Q : A -> Prop) `{!forall x, Decision (Q x)} l :
  filter Q (foldr (insert_row leb) [] l)
  = foldr (insert_row leb) [] (filter Q l).
Proof.
  induction l as [|x l IH]; simpl; [done|].
  rewrite filter_insert_row by apply foldr_insert_sorted.
  rewrite filter_cons. destruct (decide (Q x)); simpl; by rewrite IH.
Qed.
End SortFacts.

Lemma lex_leb_total {A} (cols : list (A -> Z)) x y :
  lex_leb cols x y = true \/ lex_leb cols y x = true.
Proof.
  induction cols as [|c cs IH]; simpl; [by left|].
  destruct (Z.lt_total (c x) (c y)) as [H|[H|H]].
  - left. apply orb_true_iff. left. by apply Z.ltb_lt.
  - destruct IH as [IH|IH]; [left|right]; apply orb_true_iff; right;
      rewrite IH, andb_true_r; by apply Z.eqb_eq.
  - right. apply orb_true_iff. left. by apply Z.ltb_lt.
Qed.

Lemma lex_leb_trans {A} (cols : list (A -> Z)) x y z :
  lex_leb cols x y = true -> lex_leb cols y z = true -> lex_leb cols x z = true.
Proof.
  induction cols as [|c cs IH]; simpl; [done|].
  rewrite !orb_true_iff, !andb_true_iff, !Z.ltb_lt, !Z.eqb_eq.
  intros [H1|[H1 H1']] [H2|[H2 H2']]; try (left; lia).
  right. split; [lia|]. by apply IH.
Qed.

Lemma sort_values_perm {A} (cols : list (A -> Z)) df :
  sort_values cols df ≡ₚ df.
Proof. apply foldr_insert_perm. Qed.

Lemma sort_values_sorted {A} (cols : list (A -> Z)) df :
  StronglySorted (fun a b => lex_leb cols a b = true) (sort_values cols df).
Proof.
  apply foldr_insert_sorted; [apply lex_leb_total|apply lex_leb_trans].
Qed.

Lemma sort_values_filter {A} (cols : list (A -> Z)) (Q : A -> Prop)
    `{!forall x, Decision (Q x)} df :
  filter Q (sort_values cols df) = sort_values cols (filter Q df).
Proof.
  apply filter_foldr_insert; [apply lex_leb_total|apply lex_leb_trans].
Qed.

(** The sort is stable: rows that are alike to the sort columns keep
    their table order. *)
Lemma sort_values_stable {A} (cols : list (A -> Z)) (Q : A -> Prop)
    `{!forall x, Decision (Q x)} df :
  (forall x y, Q x -> Q y -> lex_leb cols x y = true) ->
  filter Q (sort_values cols df) = filter Q df.
Proof.
  intros Hq. rewrite sort_values_filter.
  assert (Forall Q (filter Q df)) as Hall.
  { apply Forall_forall. by intros x [? _]%list_elem_of_filter. }
  induction Hall as [|x l Hx Hl IH]; [done|].
  unfold sort_values in *. simpl. rewrite IH.
  destruct l as [|y l]; [done|]. simpl.
  apply Forall_cons in Hl as [Hy _]. by rewrite (Hq x y Hx Hy).
Qed.

Lemma sort_values_elem {A} (cols : list (A -> Z)) df x :
  x ∈ sort_values cols df <-> x ∈ df.
Proof. by rewrite sort_values_perm. Qed.

Lemma StronglySorted_weaken {A} (R1 R2 : A -> A -> Prop) l :
  (forall x y, R1 x y -> R2 x y) -> StronglySorted R1 l -> StronglySorted R2 l.
Proof.
  intros HR. induction 1 as [|x l Hs IH Hx]; constructor; [done|].
  eapply Forall_impl; [exact Hx|]. intros y. apply HR.
Qed.

Lemma sorted_perm ks : sorted ks ≡ₚ ks.
Proof. apply foldr_insert_perm. Qed.

Lemma sorted_sorted ks : StronglySorted Z.le (sorted ks).
Proof.
  eapply StronglySorted_weaken; [|apply (foldr_insert_sorted Z.leb)].
  - intros x y. apply Z.leb_le.
  - intros x y. destruct (Z.le_ge_cases x y); [left|right]; by apply Z.leb_le.
  - intros x y z. rewrite !Z.leb_le. lia.
Qed.

(** ** Grouping *)

Lemma map_fmap {A B} (f : A -> B) (l : list A) : map f l = f <$> l.
Proof. reflexivity. Qed.

Lemma groupby_keys {A} (key : A -> Z) df :
  (groupby key df).*1 = sorted (remove_dups (map key df)).
Proof.
  unfold groupby. rewrite (map_fmap _ (sorted _)), <- list_fmap_compose.
  apply list_fmap_id.
Qed.

Lemma groupby_keys_NoDup {A} (key : A -> Z) df : NoDup (groupby key df).*1.
Proof.
  rewrite groupby_keys, sorted_perm. apply NoDup_remove_dups.
Qed.

Lemma elem_of_groupby_keys {A} (key : A -> Z) df k :
  k ∈ (groupby key df).*1 <-> k ∈ map key df.
Proof. by rewrite groupby_keys, sorted_perm, elem_of_remove_dups. Qed.

Lemma elem_of_groupby {A} (key : A -> Z) df k g :
  (k, g) ∈ groupby key df
  <-> k ∈ map key df /\ g = filter (fun r => key r = k) df.
Proof.
  unfold groupby. rewrite list_elem_of_fmap. split.
  - intros (k' & [= -> ->] & Hk).
    rewrite sorted_perm, elem_of_remove_dups in Hk. done.
  - intros [Hk ->]. exists k. split; [done|].
    by rewrite sorted_perm, elem_of_remove_dups.
Qed.

Lemma lookup_groupby {A} (key : A -> Z) df k :
  (list_to_map (groupby key df) : gmap Z (list A)) !! k
  = if decide (k ∈ map key df)
    then Some (filter (fun r => key r = k) df) else None.
Proof.
  destruct (decide (k ∈ map key df)) as [Hk|Hk].
  - apply elem_of_list_to_map; [apply groupby_keys_NoDup|].
    by apply elem_of_groupby.
  - apply not_elem_of_list_to_map. by rewrite elem_of_groupby_keys.
Qed.

Lemma dom_groupby {A} (key : A -> Z) df :
  dom (list_to_map (groupby key df) : gmap Z (list A))
  = list_to_set (map key df).
Proof.
  apply set_eq. intros k.
  rewrite elem_of_dom, lookup_groupby, elem_of_list_to_set.
  destruct (decide _); split; intros H;
    first [done | by eexists | by destruct H].
Qed.

Lemma col_max_spec (l : list Z) :
  l <> [] -> col_max l ∈ l /\ forall x, x ∈ l -> x <= col_max l.
Proof.
  destruct l as [|x l]; [done|]. intros _. simpl.
  assert (Hgen : forall l a, (fold_left Z.max l a = a \/ fold_left Z.max l a ∈ l)
             /\ a <= fold_left Z.max l a
             /\ forall y, y ∈ l -> y <= fold_left Z.max l a).
  { clear. induction l as [|z l IH]; intros a; simpl.
    - split; [by left|]. split; [lia|]. intros y Hy. by apply elem_of_nil in Hy.
    - destruct (IH (Z.max a z)) as (H1 & H2 & H3). split; [|split].
      + destruct H1 as [H1|H1].
        * rewrite H1. destruct (Z.max_spec a z) as [[? ->]|[? ->]];
            [right; left|by left].
        * right. by right.
      + lia.
      + intros y [->|Hy]%elem_of_cons; [lia|by apply H3]. }
  destruct (Hgen l x) as (H1 & H2 & H3). split.
  - destruct H1 as [->|H1]; [left|by right].
  - intros y [->|Hy]%elem_of_cons; [done|by apply H3].
Qed.

Lemma lookup_list_to_map_snd {A B} (f : A -> B) (l : list (Z * A)) k :
  (list_to_map (map (fun ka : Z * A => (ka.1, f ka.2)) l) : gmap Z B) !! k
  = f <$> (list_to_map l : gmap Z A) !! k.
Proof.
  induction l as [|[k' a] l IH]; simpl.
  - by rewrite !lookup_empty.
  - destruct (decide (k' = k)) as [->|Hne].
    + by rewrite !lookup_insert_eq.
    + by rewrite !lookup_insert_ne.
Qed.

(** The dictionary [last_verse] holds, for each chapter of the verses
    table, the largest verse number of its rows. *)
Lemma last_verse_of_lookup verses_df chap :
  last_verse_of verses_df !! chap
  = if decide (chap ∈ map V.chapter verses_df)
    then Some (col_max (map V.verse
                 (filter (fun v => V.chapter v = chap) verses_df)))
    else None.
Proof.
  unfold last_verse_of.
  rewrite (lookup_list_to_map_snd (fun g => col_max (map V.verse g))).
  rewrite lookup_groupby. by destruct (decide _).
Qed.

Lemma last_verse_of_None verses_df chap :
  last_verse_of verses_df !! chap = None
  <-> forall v, v ∈ verses_df -> V.chapter v <> chap.
Proof.
  rewrite last_verse_of_lookup. destruct (decide _) as [Hin|Hnin].
  - split; [done|]. intros H. exfalso.
    apply list_elem_of_fmap in Hin as (v & -> & Hv). by apply (H v).
  - split; [|done]. intros _ v Hv Hc. apply Hnin.
    apply list_elem_of_fmap. by exists v.
Qed.

Lemma last_verse_of_Some verses_df chap m :
  last_verse_of verses_df !! chap = Some m <-> chapter_max verses_df chap m.
Proof.
  rewrite last_verse_of_lookup. unfold chapter_max.
  set (g := filter (fun v => V.chapter v = chap) verses_df).
  assert (Hg : forall v, v ∈ g <-> v ∈ verses_df /\ V.chapter v = chap).
  { intros v. unfold g. rewrite list_elem_of_filter. tauto. }
  destruct (decide _) as [Hin|Hnin].
  - apply list_elem_of_fmap in Hin as (v0 & Hc0 & Hv0).
    assert (Hne : map V.verse g <> []).
    { assert (v0 ∈ g) as Hv0g by by apply Hg.
      destruct g; [by apply elem_of_nil in Hv0g|done]. }
    destruct (col_max_spec _ Hne) as [Hmax1 Hmax2].
    apply list_elem_of_fmap in Hmax1 as (vm & Hvm & Hvmg).
    apply Hg in Hvmg as [Hvm1 Hvm2].
    assert (Hub : forall v, v ∈ verses_df -> V.chapter v = chap ->
                            V.verse v <= col_max (map V.verse g)).
    { intros v Hv Hc. apply Hmax2. apply list_elem_of_fmap. exists v.
      split; [done|]. by apply Hg. }
    split.
    + intros [= <-]. split; [by exists vm|done].
    + intros [(v & Hv & Hc & Hm) Hle]. f_equal.
      specialize (Hub v Hv Hc). specialize (Hle vm Hvm1 Hvm2). lia.
  - split; [done|]. intros [(v & Hv & Hc & _) _]. exfalso. apply Hnin.
    apply list_elem_of_fmap. by exists v.
Qed.

(** ** Validator: each loop appends its warnings and lowers [ok] exactly
    when one of them is fatal *)

Lemma check_row_spec rfc chap st c r :
  check_row rfc chap (st, c) r
  = (mk_st (ok st && forallb (fun w => negb (fatal rfc w)) (row_warnings chap c r))
           (warnings st ++ row_warnings chap c r),
     step_cursor c r).
Proof.
  unfold row_warnings, step_cursor, check_row. destruct st as [o ws].
  destruct (_ && negb _); destruct (negb (_ =? _)); destruct rfc;
    unfold warn, not_ok; simpl;
    rewrite ?app_nil_r, <- ?app_assoc, ?andb_true_r, ?andb_false_r;
    reflexivity.
Qed.

Lemma fold_check_row rfc chap grp : forall st c,
  fold_left (check_row rfc chap) grp (st, c)
  = (mk_st (ok st && forallb (fun w => negb (fatal rfc w))
                             (walk_warnings chap c grp))
           (warnings st ++ walk_warnings chap c grp),
     last_cursor c grp).
Proof.
  induction grp as [|r grp IH]; intros st c; cbn [fold_left].
  - unfold walk_warnings. simpl. rewrite andb_true_r, app_nil_r.
    by destruct st.
  - rewrite check_row_spec, IH. unfold walk_warnings.
    cbn [visits flat_map fst snd ok warnings last_cursor fold_left].
    rewrite forallb_app, andb_assoc, app_assoc. reflexivity.
Qed.

Lemma check_chapter_spec rfc lv st chap grp :
  check_chapter rfc lv st (chap, grp)
  = mk_st (ok st && forallb (fun w => negb (fatal rfc w))
                            (chapter_warnings lv chap grp))
          (warnings st ++ chapter_warnings lv chap grp).
Proof.
  unfold check_chapter, chapter_warnings, end_warnings. simpl.
  rewrite fold_check_row.
  destruct (negb (_ =? _)); destruct rfc; unfold warn, not_ok; simpl;
    rewrite ?forallb_app, ?app_nil_r, <- ?app_assoc; simpl;
    rewrite ?andb_true_r, ?andb_false_r; reflexivity.
Qed.

Lemma check_bounds_spec rfc lv st r :
  check_bounds lv st r
  = mk_st (ok st && forallb (fun w => negb (fatal rfc w)) (bounds_warnings lv r))
          (warnings st ++ bounds_warnings lv r).
Proof.
  unfold bounds_warnings, check_bounds. destruct st as [o ws].
  destruct (lv !! _) as [maxv|]; [destruct (_ <? _)|];
    unfold warn, not_ok; simpl;
    rewrite ?app_nil_r, ?andb_true_r, ?andb_false_r; reflexivity.
Qed.

Lemma fold_emits {X} (f : vstate -> X -> vstate) (W : X -> list warning) rfc :
  (forall st x,
     f st x = mk_st (ok st && forallb (fun w => negb (fatal rfc w)) (W x))
                    (warnings st ++ W x)) ->
  forall l st,
    fold_left f l st
    = mk_st (ok st && forallb (fun w => negb (fatal rfc w)) (flat_map W l))
            (warnings st ++ flat_map W l).
Proof.
  intros Hf. induction l as [|x l IH]; intros st; cbn [fold_left flat_map].
  - simpl. rewrite andb_true_r, app_nil_r. by destruct st.
  - rewrite IH, Hf. cbn [ok warnings].
    by rewrite forallb_app, andb_assoc, app_assoc.
Qed.

(** The validator returns the warnings of the chapter walks, chapter by
    chapter, then those of the per-pericope bounds check; the verdict is
    that none of them is fatal. *)
Lemma validate_pericopes_spec verses_df peris rfc :
  validate_pericopes verses_df peris rfc
  = (forallb (fun w => negb (fatal rfc w)) (all_warnings verses_df peris),
     all_warnings verses_df peris).
Proof.
  unfold validate_pericopes, all_warnings.
  rewrite (fold_emits _ (fun cg : Z * list P.row =>
             chapter_warnings (last_verse_of verses_df) cg.1 cg.2) rfc).
  2:{ intros st [chap grp]. apply check_chapter_spec. }
  rewrite (fold_emits _ (bounds_warnings (last_verse_of verses_df)) rfc).
  2:{ intros st r. apply check_bounds_spec. }
  simpl. by rewrite forallb_app.
Qed.

Lemma validate_warnings verses_df peris rfc :
  (validate_pericopes verses_df peris rfc).2 = all_warnings verses_df peris.
Proof. by rewrite validate_pericopes_spec. Qed.

Lemma validate_ok verses_df peris rfc :
  (validate_pericopes verses_df peris rfc).1
  = forallb (fun w => negb (fatal rfc w)) (all_warnings verses_df peris).
Proof. by rewrite validate_pericopes_spec. Qed.

Lemma elem_of_flat_map {A B} (f : A -> list B) (l : list A) (y : B) :
  y ∈ flat_map f l <-> exists x, x ∈ l /\ y ∈ f x.
Proof.
  rewrite list_elem_of_In, in_flat_map.
  split; intros (x & Hx & Hy); exists x; by rewrite ?list_elem_of_In in *.
Qed.

Lemma flat_map_split {A B} (f : A -> list B) (l : list A) (x : A) :
  x ∈ l -> exists l1 l2, flat_map f l = l1 ++ f x ++ l2.
Proof.
  intros (k1 & k2 & ->)%list_elem_of_split.
  exists (flat_map f k1), (flat_map f k2).
  by rewrite flat_map_app.
Qed.

Lemma step_cursor_end c r : step_cursor c r = P.end_verse r.
Proof. reflexivity. Qed.

(** The warnings of one pass of the loop body, by cases on its two tests. *)
Lemma row_warnings_cases chap c r :
  row_warnings chap c r
  = (if bool_decide (P.start_verse r <= c /\ c <> 0)
     then [W_overlap chap (P.start_verse r) c] else [])
    ++ (if bool_decide (P.start_verse r <> c + 1)
        then [W_gap chap c (P.start_verse r)] else []).
Proof.
  unfold row_warnings, check_row, warn, not_ok. simpl.
  repeat case_bool_decide;
    destruct (Z.leb_spec (P.start_verse r) c);
    destruct (Z.eqb_spec c 0);
    destruct (Z.eqb_spec (P.start_verse r) (c + 1)); simpl;
    try reflexivity; lia.
Qed.

Lemma elem_of_walk_warnings w chap c grp :
  w ∈ walk_warnings chap c grp
  <-> exists r c', (r, c') ∈ visits c grp /\ w ∈ row_warnings chap c' r.
Proof.
  unfold walk_warnings. rewrite elem_of_flat_map. split.
  - intros ([r c'] & H1 & H2). by exists r, c'.
  - intros (r & c' & H1 & H2). by exists (r, c').
Qed.

Lemma visits_rows c grp : (visits c grp).*1 = grp.
Proof.
  revert c. induction grp as [|r grp IH]; intros c; simpl; [done|].
  by rewrite IH.
Qed.

Lemma chapter_visits_chapter peris chap r c :
  (r, c) ∈ chapter_visits peris chap ->
  r ∈ rows peris /\ P.chapter r = chap.
Proof.
  intros H. assert (r ∈ (chapter_visits peris chap).*1) as Hr.
  { apply list_elem_of_fmap. by exists (r, c). }
  unfold chapter_visits in Hr. rewrite visits_rows in Hr.
  unfold walk_order in Hr. rewrite sort_values_perm in Hr.
  unfold chapter_rows in Hr. by apply list_elem_of_filter in Hr as [? ?].
Qed.

(** Where a warning of the validator comes from. *)
Lemma elem_of_all_warnings w verses_df peris :
  w ∈ all_warnings verses_df peris
  <-> (exists chap, chap ∈ map P.chapter (rows peris)
         /\ w ∈ chapter_warnings (last_verse_of verses_df) chap
                  (chapter_rows peris chap))
      \/ (exists r, r ∈ rows peris
            /\ w ∈ bounds_warnings (last_verse_of verses_df) r).
Proof.
  unfold all_warnings. rewrite elem_of_app, !elem_of_flat_map.
  apply or_iff_compat_r. split.
  - intros ([chap grp] & Hcg & Hw). apply elem_of_groupby in Hcg as [Hk ->].
    by exists chap.
  - intros (chap & Hk & Hw). exists (chap, chapter_rows peris chap).
    split; [|done]. by apply elem_of_groupby.
Qed.

Lemma elem_of_bounds_warnings w lv r :
  w ∈ bounds_warnings lv r
  <-> (lv !! P.chapter r = None /\ w = W_no_verses (P.chapter r))
      \/ (exists maxv, lv !! P.chapter r = Some maxv /\ maxv < P.end_verse r
            /\ w = W_beyond (P.chapter r) (P.pericope_id r) (P.end_verse r) maxv).
Proof.
  unfold bounds_warnings, check_bounds.
  destruct (lv !! P.chapter r) as [maxv|]; simpl.
  - destruct (Z.ltb_spec maxv (P.end_verse r)); simpl.
    + rewrite list_elem_of_singleton. split.
      * intros ->. right. by exists maxv.
      * intros [[? _]|(m & [= <-] & _ & ->)]; done.
    + split; [by intros ?%elem_of_nil|].
      intros [[? _]|(m & [= <-] & ? & _)]; [done|lia].
  - rewrite list_elem_of_singleton. split.
    + intros ->. by left.
    + intros [[_ ->]|(m & ? & _)]; done.
Qed.

Lemma overlap_in_all_warnings verses_df peris chap s c :
  W_overlap chap s c ∈ all_warnings verses_df peris
  <-> exists r, (r, c) ∈ chapter_visits peris chap
        /\ P.start_verse r = s /\ s <= c /\ c <> 0.
Proof.
  rewrite elem_of_all_warnings. split.
  - intros [(chap' & Hk & Hw)|(r & _ & Hw)].
    + unfold chapter_warnings, end_warnings in Hw.
      apply elem_of_app in Hw as [Hw|Hw].
      * apply elem_of_walk_warnings in Hw as (r & c' & Hv & Hw).
        rewrite row_warnings_cases in Hw.
        apply elem_of_app in Hw as [Hw|Hw]; case_bool_decide;
          try (by apply elem_of_nil in Hw);
          apply list_elem_of_singleton in Hw; [|done].
        simplify_eq. exists r. split; [exact Hv|]. split; [done|]. tauto.
      * destruct (negb _); [|by apply elem_of_nil in Hw].
        by apply list_elem_of_singleton in Hw.
    + apply elem_of_bounds_warnings in Hw as [[_ ?]|(? & _ & _ & ?)]; done.
  - intros (r & Hv & <- & Hle & Hne). left. exists chap. split.
    + destruct (chapter_visits_chapter _ _ _ _ Hv) as [Hr <-].
      apply list_elem_of_fmap. by exists r.
    + unfold chapter_warnings. apply elem_of_app. left.
      apply elem_of_walk_warnings. exists r, c. split; [done|].
      rewrite row_warnings_cases. apply elem_of_app. left.
      rewrite bool_decide_true by done. by left.
Qed.

Lemma gap_in_all_warnings verses_df peris chap c s :
  W_gap chap c s ∈ all_warnings verses_df peris
  <-> exists r, (r, c) ∈ chapter_visits peris chap
        /\ P.start_verse r = s /\ s <> c + 1.
Proof.
  rewrite elem_of_all_warnings. split.
  - intros [(chap' & Hk & Hw)|(r & _ & Hw)].
    + unfold chapter_warnings, end_warnings in Hw.
      apply elem_of_app in Hw as [Hw|Hw].
      * apply elem_of_walk_warnings in Hw as (r & c' & Hv & Hw).
        rewrite row_warnings_cases in Hw.
        apply elem_of_app in Hw as [Hw|Hw]; case_bool_decide;
          try (by apply elem_of_nil in Hw);
          apply list_elem_of_singleton in Hw; [done|].
        simplify_eq. exists r. naive_solver.
      * destruct (negb _); [|by apply elem_of_nil in Hw].
        by apply list_elem_of_singleton in Hw.
    + apply elem_of_bounds_warnings in Hw as [[_ ?]|(? & _ & _ & ?)]; done.
  - intros (r & Hv & <- & Hne). left. exists chap. split.
    + destruct (chapter_visits_chapter _ _ _ _ Hv) as [Hr <-].
      apply list_elem_of_fmap. by exists r.
    + unfold chapter_warnings. apply elem_of_app. left.
      apply elem_of_walk_warnings. exists r, c. split; [done|].
      rewrite row_warnings_cases. apply elem_of_app. right.
      rewrite bool_decide_true by done. by left.
Qed.

Lemma fatal_warning_not_ok verses_df peris rfc w :
  w ∈ (validate_pericopes verses_df peris rfc).2 ->
  fatal rfc w = true ->
  (validate_pericopes verses_df peris rfc).1 = false.
Proof.
  rewrite validate_warnings, validate_ok. intros Hw Hf.
  apply not_true_is_false. intros Hall.
  rewrite forallb_forall in Hall. apply list_elem_of_In in Hw.
  specialize (Hall w Hw). by rewrite Hf in Hall.
Qed.

(** ** The validator's overlap, gap and bounds checks *)

(** C4.  The validator emits the overlap warning of a chapter, with start
    [s] and cursor [c], exactly when its walk of that chapter reaches a
    pericope that starts at [s] with the cursor at [c], [s <= c] and
    [c <> 0].  Any overlap warning makes the verdict [false], whatever
    [require_full_coverage] is.  The first pericope of a walk is reached
    with the cursor at [0], so the loop body emits no overlap warning for
    it, whatever its [start_verse]. *)
Theorem overlap_warning_iff verses_df peris rfc :
  (forall chap s c,
      W_overlap chap s c ∈ (validate_pericopes verses_df peris rfc).2
      <-> exists r, (r, c) ∈ chapter_visits peris chap
            /\ P.start_verse r = s /\ s <= c /\ c <> 0)
  /\ ((exists chap s c,
         W_overlap chap s c ∈ (validate_pericopes verses_df peris rfc).2)
      -> (validate_pericopes verses_df peris rfc).1 = false)
  /\ (forall chap r c,
        head (chapter_visits peris chap) = Some (r, c) ->
        c = 0 /\ forall chap' s c', W_overlap chap' s c' ∉ row_warnings chap c r).
Proof.
  split; [|split].
  - intros chap s c. rewrite validate_warnings.
    apply overlap_in_all_warnings.
  - intros (chap & s & c & Hw).
    by apply (fatal_warning_not_ok _ _ _ _ Hw).
  - intros chap r c Hhd. unfold chapter_visits in Hhd.
    destruct (walk_order _) as [|r0 grp]; [done|]. simpl in Hhd.
    injection Hhd as -> <-. split; [done|].
    intros chap' s c'. rewrite row_warnings_cases.
    rewrite bool_decide_false by lia. simpl.
    case_bool_decide; [|apply not_elem_of_nil].
    by intros ?%list_elem_of_singleton.
Qed.

(** [overlap_warning_iff] on pericopes 1-3 and 3-5 of a chapter, and on a
    lone pericope 5-6. *)
Lemma overlap_warning_iff_witness :
  (validate_pericopes (verses_1_to 5 1) overlap_table false).1 = false
  /\ (validate_pericopes (verses_1_to 5 1) overlap_table true).1 = false
  /\ W_overlap 1 5 0 ∉ row_warnings 1 0 (peri "P" 1 5 6).
Proof.
  split; [|split].
  - apply (overlap_warning_iff (verses_1_to 5 1) overlap_table false).
    exists 1, 3, 3. apply list_elem_of_In. vm_compute. tauto.
  - apply (overlap_warning_iff (verses_1_to 5 1) overlap_table true).
    exists 1, 3, 3. apply list_elem_of_In. vm_compute. tauto.
  - destruct (overlap_warning_iff [] (mk_df false [peri "P" 1 5 6]) false)
      as (_ & _ & Hfirst).
    destruct (Hfirst 1 (peri "P" 1 5 6) 0) as [_ Hno]; [reflexivity|].
    apply Hno.
Defined.

(** C5.  The validator emits the gap warning of a chapter, with cursor
    [c] and start [s], exactly when its walk reaches a pericope that starts
    at [s] with the cursor at [c] and [s <> c + 1].  Without
    [require_full_coverage] the verdict is [true] exactly when every
    warning is a gap or a coverage mismatch; with it, a gap warning makes
    the verdict [false].  On pericopes 1-2 and 5-6 of chapter 1 with
    verses 1..6 the two settings give [ok = true] with the gap warning and
    [ok = false]. *)
Theorem gap_warning_iff verses_df peris :
  (forall rfc chap c s,
      W_gap chap c s ∈ (validate_pericopes verses_df peris rfc).2
      <-> exists r, (r, c) ∈ chapter_visits peris chap
            /\ P.start_verse r = s /\ s <> c + 1)
  /\ ((validate_pericopes verses_df peris false).1 = true
      <-> forall w, w ∈ (validate_pericopes verses_df peris false).2 ->
            (exists chap c s, w = W_gap chap c s)
            \/ (exists chap e m, w = W_ends chap e m))
  /\ ((exists chap c s,
         W_gap chap c s ∈ (validate_pericopes verses_df peris true).2)
      -> (validate_pericopes verses_df peris true).1 = false)
  /\ validate_pericopes (verses_1_to 6 1) gap_table false
     = (true, [W_gap 1 2 5])
  /\ validate_pericopes (verses_1_to 6 1) gap_table true
     = (false, [W_gap 1 2 5]).
Proof.
  split; [|split; [|split; [|split]]].
  - intros rfc chap c s. rewrite validate_warnings.
    apply gap_in_all_warnings.
  - rewrite validate_ok, validate_warnings, forallb_forall. split.
    + intros H w Hw%list_elem_of_In. specialize (H w Hw).
      destruct w; simpl in H; try done; [left|right]; by do 3 eexists.
    + intros H w Hw%list_elem_of_In.
      destruct (H w Hw) as [(? & ? & ? & ->)|(? & ? & ? & ->)]; done.
  - intros (chap & c & s & Hw).
    by apply (fatal_warning_not_ok _ _ _ _ Hw).
  - vm_compute. reflexivity.
  - vm_compute. reflexivity.
Qed.

(** [gap_warning_iff] on the gap example. *)
Lemma gap_warning_iff_witness :
  (validate_pericopes (verses_1_to 6 1) gap_table true).1 = false
  /\ (validate_pericopes (verses_1_to 6 1) gap_table false).1 = true.
Proof.
  destruct (gap_warning_iff (verses_1_to 6 1) gap_table)
    as (_ & Hok & Hstrict & _).
  split.
  - apply Hstrict. exists 1, 2, 5. apply list_elem_of_In. vm_compute. tauto.
  - apply Hok. intros w Hw. apply list_elem_of_In in Hw. vm_compute in Hw.
    destruct Hw as [<-|[]]. left. by exists 1, 2, 5.
Defined.

(** C6.  For every pericope of the table: when the verses table has no
    row of its chapter, the verdict is [false] and the "no verses" warning
    of that chapter is returned; when its [end_verse] is beyond the largest
    verse number the verses table has for its chapter, the verdict is
    [false] and the warning naming the pericope is returned.  Neither
    depends on [require_full_coverage]. *)
Theorem pericope_bounds_errors verses_df peris rfc r :
  r ∈ rows peris ->
  ((forall v, v ∈ verses_df -> V.chapter v <> P.chapter r) ->
     (validate_pericopes verses_df peris rfc).1 = false
     /\ W_no_verses (P.chapter r)
        ∈ (validate_pericopes verses_df peris rfc).2)
  /\ (forall m, chapter_max verses_df (P.chapter r) m ->
        m < P.end_verse r ->
        (validate_pericopes verses_df peris rfc).1 = false
        /\ W_beyond (P.chapter r) (P.pericope_id r) (P.end_verse r) m
           ∈ (validate_pericopes verses_df peris rfc).2).
Proof.
  intros Hr. split.
  - intros Hnone%last_verse_of_None.
    assert (W_no_verses (P.chapter r)
            ∈ (validate_pericopes verses_df peris rfc).2) as Hw.
    { rewrite validate_warnings, elem_of_all_warnings. right. exists r.
      split; [done|]. apply elem_of_bounds_warnings. by left. }
    split; [|done]. by apply (fatal_warning_not_ok _ _ _ _ Hw).
  - intros m Hmax%last_verse_of_Some Hlt.
    assert (W_beyond (P.chapter r) (P.pericope_id r) (P.end_verse r) m
            ∈ (validate_pericopes verses_df peris rfc).2) as Hw.
    { rewrite validate_warnings, elem_of_all_warnings. right. exists r.
      split; [done|]. apply elem_of_bounds_warnings. right. by exists m. }
    split; [|done]. by apply (fatal_warning_not_ok _ _ _ _ Hw).
Qed.

(** [pericope_bounds_errors] on a pericope of a chapter without verses and
    on a pericope that ends at 8 in a chapter of 6 verses. *)
Lemma pericope_bounds_errors_witness :
  ((validate_pericopes (verses_1_to 6 1)
      (mk_df false [peri "P1" 1 1 6; peri "P2" 2 1 4]) false).1 = false
   /\ W_no_verses 2
      ∈ (validate_pericopes (verses_1_to 6 1)
           (mk_df false [peri "P1" 1 1 6; peri "P2" 2 1 4]) false).2)
  /\ ((validate_pericopes (verses_1_to 6 1)
         (mk_df false [peri "P1" 1 1 8]) false).1 = false
      /\ W_beyond 1 "P1" 8 6
         ∈ (validate_pericopes (verses_1_to 6 1)
              (mk_df false [peri "P1" 1 1 8]) false).2).
Proof.
  split.
  - apply (pericope_bounds_errors (verses_1_to 6 1)
             (mk_df false [peri "P1" 1 1 6; peri "P2" 2 1 4]) false
             (peri "P2" 2 1 4)).
    + apply list_elem_of_In. simpl. tauto.
    + intros v Hv. apply list_elem_of_In in Hv. simpl in Hv.
      intuition (subst; discriminate).
  - apply (pericope_bounds_errors (verses_1_to 6 1)
             (mk_df false [peri "P1" 1 1 8]) false (peri "P1" 1 1 8)).
    + apply list_elem_of_In. simpl. tauto.
    + split.
      * exists (V.mk 1 6 (Some [])). split; [|done].
        apply list_elem_of_In. simpl. tauto.
      * intros v Hv _. apply list_elem_of_In in Hv. simpl in Hv.
        intuition (subst; simpl; lia).
    + simpl. lia.
Defined.

(** C10.  Whenever the validator returns an overlap warning, its walk
    reached a pericope for which the loop body emitted that overlap
    warning and, next to it, the gap warning with the same cursor and
    start: an overlap never comes without its gap. *)
Theorem overlap_brings_gap verses_df peris rfc chap s c :
  W_overlap chap s c ∈ (validate_pericopes verses_df peris rfc).2 ->
  exists r l1 l2,
    (r, c) ∈ chapter_visits peris chap
    /\ row_warnings chap c r = [W_overlap chap s c; W_gap chap c s]
    /\ (validate_pericopes verses_df peris rfc).2
       = l1 ++ [W_overlap chap s c; W_gap chap c s] ++ l2.
Proof.
  rewrite validate_warnings. intros Hw.
  apply overlap_in_all_warnings in Hw as (r & Hv & <- & Hle & Hne).
  assert (row_warnings chap c r
          = [W_overlap chap (P.start_verse r) c; W_gap chap c (P.start_verse r)])
    as Hrow.
  { rewrite row_warnings_cases.
    rewrite bool_decide_true by done. by rewrite bool_decide_true by lia. }
  assert ((chap, chapter_rows peris chap) ∈ groupby P.chapter (rows peris))
    as Hcg.
  { apply elem_of_groupby. split; [|done].
    destruct (chapter_visits_chapter _ _ _ _ Hv) as [Hr <-].
    apply list_elem_of_fmap. by exists r. }
  destruct (flat_map_split
              (fun cg : Z * list P.row =>
                 chapter_warnings (last_verse_of verses_df) cg.1 cg.2)
              _ _ Hcg) as (a1 & a2 & Ha).
  destruct (flat_map_split (fun rc => row_warnings chap rc.2 rc.1) _ _ Hv)
    as (b1 & b2 & Hb).
  exists r. eexists (a1 ++ b1), _. split; [done|]. split; [done|].
  unfold all_warnings. rewrite Ha. simpl. unfold chapter_warnings.
  unfold walk_warnings. unfold chapter_visits in Hb. rewrite Hb. simpl.
  rewrite Hrow. rewrite <- !app_assoc. simpl. reflexivity.
Qed.

(** [overlap_brings_gap] on pericopes 1-3 and 3-5 of a chapter. *)
Lemma overlap_brings_gap_witness :
  exists r l1 l2,
    (r, 3) ∈ chapter_visits overlap_table 1
    /\ row_warnings 1 3 r = [W_overlap 1 3 3; W_gap 1 3 3]
    /\ (validate_pericopes (verses_1_to 5 1) overlap_table false).2
       = l1 ++ [W_overlap 1 3 3; W_gap 1 3 3] ++ l2.
Proof.
  apply (overlap_brings_gap (verses_1_to 5 1) overlap_table false 1 3 3).
  apply list_elem_of_In. vm_compute. tauto.
Defined.

(** ** The cursor *)

Lemma last_cursor_snoc c grp r : last_cursor c (grp ++ [r]) = P.end_verse r.
Proof. unfold last_cursor. by rewrite fold_left_app. Qed.

(** In [detect_overlaps] the cursor after an interval is the larger of
    the cursor before it and the interval's end. *)
Lemma overlap_step_cursor chap ws c se :
  (overlap_step chap (ws, c) se).2 = Z.max c se.2.
Proof. reflexivity. Qed.

(** C1.  In [validate_pericopes] the cursor after a pericope is that
    pericope's [end_verse], not the larger of it and the cursor before:
    on pericopes 1-10 and 2-3 of a chapter with verses 1..10 the walk ends
    with the cursor at 3, and the validator reports that the chapter ends
    at 3 instead of 10.  [detect_overlaps] keeps the larger one on the same
    intervals. *)
Theorem validate_cursor_is_last_end_verse :
  (forall c grp r, last_cursor c (grp ++ [r]) = P.end_verse r)
  /\ chapter_visits nested_table 1
     = [(peri "P1" 1 1 10, 0); (peri "P2" 1 2 3, 10)]
  /\ step_cursor 10 (peri "P2" 1 2 3) = 3
  /\ Z.max 10 (P.end_verse (peri "P2" 1 2 3)) = 10
  /\ validate_pericopes (verses_1_to 10 1) nested_table false
     = (false, [W_overlap 1 2 10; W_gap 1 10 2; W_ends 1 3 10])
  /\ (fold_left (overlap_step 1) [(1, 10); (2, 3)] ([], - 10 ^ 9)).2 = 10
  /\ detect_overlaps nested_table = [(1, mk_overlap 1 2 10)].
Proof.
  split; [apply last_cursor_snoc|].
  repeat split; vm_compute; reflexivity.
Qed.

(** ** The order of the validator's walk *)

Lemma insert_row_map {A} (leb : A -> A -> bool) (g : A -> A) x l :
  (forall a b, leb (g a) (g b) = leb a b) ->
  insert_row leb (g x) (map g l) = map g (insert_row leb x l).
Proof.
  intros Hg. induction l as [|y l IH]; simpl; [done|].
  rewrite Hg. destruct (leb x y); simpl; [done|]. by rewrite IH.
Qed.

Lemma sort_values_map {A} (cols : list (A -> Z)) (g : A -> A) l :
  (forall a b, lex_leb cols (g a) (g b) = lex_leb cols a b) ->
  sort_values cols (map g l) = map g (sort_values cols l).
Proof.
  intros Hg. unfold sort_values.
  induction l as [|x l IH]; simpl; [done|].
  rewrite IH. by apply insert_row_map.
Qed.

Lemma fold_left_map {A B C} (f : A -> B -> A) (g : C -> B) l a :
  fold_left f (map g l) a = fold_left (fun a x => f a (g x)) l a.
Proof. revert a. induction l as [|x l IH]; intros a; simpl; [done|]. apply IH. Qed.

Lemma filter_map_key {A} (key : A -> Z) (g : A -> A) k l :
  (forall a, key (g a) = key a) ->
  filter (fun r => key r = k) (map g l)
  = map g (filter (fun r => key r = k) l).
Proof.
  intros Hg. induction l as [|x l IH]; simpl; [done|].
  rewrite !filter_cons, Hg. destruct (decide _); simpl; by rewrite IH.
Qed.

Lemma validate_set_order verses_df peris rfc b f :
  validate_pericopes verses_df (mk_df b (map (set_order f) (rows peris))) rfc
  = validate_pericopes verses_df peris rfc.
Proof.
  unfold validate_pericopes. cbn [rows].
  rewrite (fold_left_map _ (set_order f)).
  change (fun a x => check_bounds ?lv a (set_order f x)) with (check_bounds lv).
  f_equal; f_equal; f_equal.
  all: unfold groupby.
  all: rewrite map_map; simpl; change (map (fun x => P.chapter x)) with (map P.chapter).
  all: rewrite !(map_fmap _ (sorted _)), !fold_left_map.
  all: generalize (sorted (remove_dups (map P.chapter (rows peris)))).
  all: intros ks; generalize (mk_st true []).
  all: induction ks as [|k ks IH]; intros st; simpl; [done|].
  all: rewrite <- IH; f_equal.
  all: unfold check_chapter; simpl.
  all: rewrite (filter_map_key P.chapter) by done.
  all: unfold walk_order; rewrite sort_values_map by done.
  all: by rewrite fold_left_map.
Qed.

Lemma flat_map_nil_iff {A B} (f : A -> list B) (l : list A) :
  flat_map f l = [] <-> forall x, x ∈ l -> f x = [].
Proof.
  induction l as [|x l IH]; simpl.
  - split; [by intros _ ? ?%elem_of_nil|done].
  - rewrite app_nil, IH. split.
    + intros [Hx Hl] y [->|Hy]%elem_of_cons; [done|by apply Hl].
    + intros Hall. split; [apply Hall; left|].
      intros y Hy. apply Hall. by right.
Qed.

Lemma interval_sorted_unique (grp grp' : list P.row) :
  grp ≡ₚ grp' ->
  StronglySorted interval_le grp -> StronglySorted interval_le grp' ->
  map interval_of grp = map interval_of grp'.
Proof.
  intros Hp Hs Hs'.
  rewrite !map_fmap.
  apply (StronglySorted_unique_strong
           (fun a b : Z * Z => a.1 < b.1 \/ (a.1 = b.1 /\ a.2 <= b.2))).
  - intros [a1 a2] [b1 b2] _ _; simpl. intros H1 H2. f_equal; lia.
  - eapply StronglySorted_fmap; [|exact Hs]. by intros x y H.
  - eapply StronglySorted_fmap; [|exact Hs']. by intros x y H.
  - by apply fmap_Permutation.
Qed.

Lemma walk_by_intervals chap grp : forall grp' c,
  map interval_of grp = map interval_of grp' ->
  walk_warnings chap c grp = walk_warnings chap c grp'
  /\ last_cursor c grp = last_cursor c grp'.
Proof.
  induction grp as [|r grp IH]; intros [|r' grp'] c Heq; try discriminate.
  - done.
  - simpl in Heq. unfold interval_of at 1 3 in Heq.
    injection Heq as Hs He Hrest.
    unfold walk_warnings, last_cursor. cbn [visits flat_map fold_left fst snd].
    assert (step_cursor c r = step_cursor c r') as ->.
    { unfold step_cursor, check_row. simpl. exact He. }
    assert (row_warnings chap c r = row_warnings chap c r') as ->.
    { unfold row_warnings, check_row. simpl. by rewrite Hs. }
    destruct (IH grp' (step_cursor c r') Hrest) as [Hw Hc].
    unfold walk_warnings, last_cursor in Hw, Hc. simpl in Hw |- *.
    by rewrite Hw, Hc.
Qed.

Lemma walk_warning_row_warnings chap chap' c r :
  filter (fun w => walk_warning chap w = true) (row_warnings chap' c r)
  = if decide (chap' = chap) then row_warnings chap' c r else [].
Proof.
  unfold row_warnings, check_row. simpl.
  destruct ((P.start_verse r <=? c) && negb (c =? 0)),
           (negb (P.start_verse r =? c + 1)); simpl;
    destruct (decide (chap' = chap)) as [->|Hne];
    rewrite ?filter_cons, ?filter_nil; simpl;
    rewrite ?Z.eqb_refl; try done;
    repeat (case_decide as Hd; [apply Z.eqb_eq in Hd; done|]); done.
Qed.

Lemma filter_flat_map {A B} (Q : B -> Prop) `{!forall x, Decision (Q x)}
    (f : A -> list B) (l : list A) :
  filter Q (flat_map f l) = flat_map (fun x => filter Q (f x)) l.
Proof.
  induction l as [|x l IH]; simpl; [done|].
  by rewrite filter_app, IH.
Qed.

Lemma walk_warning_chapter_warnings lv chap chap' grp :
  filter (fun w => walk_warning chap w = true) (chapter_warnings lv chap' grp)
  = if decide (chap' = chap) then chapter_warnings lv chap' grp else [].
Proof.
  unfold chapter_warnings, walk_warnings, end_warnings.
  rewrite filter_app, filter_flat_map.
  rewrite (flat_map_ext _
             (fun rc => if decide (chap' = chap)
                        then row_warnings chap' rc.2 rc.1 else []))
    by (intros rc; apply walk_warning_row_warnings).
  destruct (decide (chap' = chap)) as [->|Hne].
  - f_equal. destruct (negb _); [|done].
    rewrite filter_cons, filter_nil. simpl. by rewrite Z.eqb_refl.
  - rewrite (proj2 (flat_map_nil_iff _ _)) by done. simpl.
    destruct (negb _); [|done].
    rewrite filter_cons, filter_nil. simpl.
    case_decide as Hd; [apply Z.eqb_eq in Hd; done|done].
Qed.

Lemma walk_warning_bounds_warnings lv chap r :
  filter (fun w => walk_warning chap w = true) (bounds_warnings lv r) = [].
Proof.
  unfold bounds_warnings, check_bounds.
  destruct (lv !! P.chapter r) as [maxv|]; simpl; [|done].
  by destruct (maxv <? P.end_verse r).
Qed.

Lemma flat_map_pick {B} (G : Z -> list B) (ks : list Z) chap :
  NoDup ks ->
  flat_map (fun k => if decide (k = chap) then G k else []) ks
  = if decide (chap ∈ ks) then G chap else [].
Proof.
  induction 1 as [|k ks Hk Hnd IH]; cbn [flat_map].
  - rewrite decide_False; [done|]. apply not_elem_of_nil.
  - rewrite IH. destruct (decide (k = chap)) as [->|Hne].
    + rewrite (decide_False (P := chap ∈ ks)) by done.
      rewrite decide_True by left. apply app_nil_r.
    + simpl. destruct (decide (chap ∈ ks)).
      * rewrite decide_True; [done|by right].
      * rewrite decide_False; [done|].
        by intros [?|?]%elem_of_cons.
Qed.

Lemma walk_warning_all_warnings verses_df peris chap :
  filter (fun w => walk_warning chap w = true) (all_warnings verses_df peris)
  = if decide (chap ∈ map P.chapter (rows peris))
    then chapter_warnings (last_verse_of verses_df) chap
           (chapter_rows peris chap)
    else [].
Proof.
  unfold all_warnings.
  rewrite filter_app, !filter_flat_map.
  rewrite (proj2 (flat_map_nil_iff _ (rows peris)))
    by (intros r _; apply walk_warning_bounds_warnings).
  rewrite app_nil_r.
  unfold groupby. rewrite flat_map_concat_map, map_map, <- flat_map_concat_map.
  cbn [fst snd].
  rewrite (flat_map_ext _
    (fun k => if decide (k = chap)
              then chapter_warnings (last_verse_of verses_df) k
                     (chapter_rows peris k)
              else []))
    by (intros k; apply walk_warning_chapter_warnings).
  rewrite flat_map_pick.
  - destruct (decide (chap ∈ map P.chapter (rows peris))) as [Hin|Hnin].
    + rewrite decide_True; [done|].
      by rewrite sorted_perm, elem_of_remove_dups.
    + rewrite decide_False; [done|].
      by rewrite sorted_perm, elem_of_remove_dups.
  - rewrite sorted_perm. apply NoDup_remove_dups.
Qed.

(** C2 (as the code has it).  For every chapter that has pericopes,
    and whether or not the table has an [order] column, the overlap, gap
    and end-of-chapter warnings that [validate_pericopes] returns for the
    chapter are, in the order returned, those of a walk that starts with
    the cursor at 0 and takes the chapter's pericopes in ascending
    [(start_verse, end_verse)]: any arrangement [grp] of the chapter's
    rows in that order gives them.  The verdict is [False] exactly when a
    returned warning is fatal under the flag, and neither the verdict nor
    the warnings change when the [order] column is given other values,
    added or removed. *)
Theorem validator_walk_by_interval verses_df peris rfc chap grp :
  grp <> [] ->
  grp ≡ₚ chapter_rows peris chap ->
  StronglySorted interval_le grp ->
  filter (fun w => walk_warning chap w = true)
         (validate_pericopes verses_df peris rfc).2
  = walk_warnings chap 0 grp
    ++ end_warnings (last_verse_of verses_df) chap (last_cursor 0 grp)
  /\ (validate_pericopes verses_df peris rfc).1
     = forallb (fun w => negb (fatal rfc w))
               (validate_pericopes verses_df peris rfc).2
  /\ forall b f,
       validate_pericopes verses_df
         (mk_df b (map (set_order f) (rows peris))) rfc
       = validate_pericopes verses_df peris rfc.
Proof.
  intros Hne Hp Hs. split; [|split].
  - rewrite validate_warnings, walk_warning_all_warnings.
    rewrite decide_True.
    + unfold chapter_warnings.
      destruct (walk_by_intervals chap (walk_order (chapter_rows peris chap))
                  grp 0) as [-> ->]; [|done].
      apply interval_sorted_unique.
      * unfold walk_order. by rewrite sort_values_perm.
      * unfold walk_order.
        eapply StronglySorted_weaken; [|apply sort_values_sorted].
        intros a b. unfold interval_le. cbn [lex_leb].
        repeat (rewrite ?orb_true_iff, ?andb_true_iff).
        rewrite !Z.ltb_lt, !Z.eqb_eq.
        intros [H|[H [H'|[H' _]]]]; lia.
      * done.
    + destruct grp as [|r grp]; [done|].
      assert (r ∈ chapter_rows peris chap) as Hr
        by (rewrite <- Hp; left).
      unfold chapter_rows in Hr. apply list_elem_of_filter in Hr as [Hc Hr].
      rewrite <- Hc. apply list_elem_of_In, in_map, list_elem_of_In, Hr.
  - by rewrite validate_warnings, validate_ok.
  - intros b f. apply validate_set_order.
Qed.

(** [validator_walk_by_interval] on the table whose [order] column puts
    verses 4-6 before verses 1-3: the walk is the one over 1-3, then 4-6. *)
Lemma validator_walk_by_interval_witness :
  filter (fun w => walk_warning 1 w = true)
         (validate_pericopes (verses_1_to 6 1) reordered_table true).2
  = walk_warnings 1 0 [P.mk "B" "t" 1 1 3 2; P.mk "A" "t" 1 4 6 1]
    ++ end_warnings (last_verse_of (verses_1_to 6 1)) 1
         (last_cursor 0 [P.mk "B" "t" 1 1 3 2; P.mk "A" "t" 1 4 6 1]).
Proof.
  apply (validator_walk_by_interval (verses_1_to 6 1) reordered_table true 1
           [P.mk "B" "t" 1 1 3 2; P.mk "A" "t" 1 4 6 1]).
  - discriminate.
  - vm_compute. apply perm_swap.
  - repeat constructor; unfold interval_le; simpl; lia.
Defined.

(** C2 fails as stated: on a table with an [order] column that puts
    verses 4-6 before verses 1-3, the validator walks 1-3 first and finds a
    clean partition, where the walk in [order] would report a gap and an
    overlap. *)
Lemma validator_walk_not_canonical :
  load_pericopes reordered_table = Some reordered_table
  /\ has_order reordered_table = true
  /\ map P.pericope_id
       (canonical_order reordered_table (chapter_rows reordered_table 1))
     = ["A"; "B"]
  /\ map P.pericope_id (chapter_visits reordered_table 1).*1 = ["B"; "A"]
  /\ (chapter_visits reordered_table 1).*1
     <> canonical_order reordered_table (chapter_rows reordered_table 1)
  /\ validate_pericopes (verses_1_to 6 1) reordered_table true = (true, [])
  /\ warnings
       (fold_left (check_row true 1)
          (canonical_order reordered_table (chapter_rows reordered_table 1))
          (mk_st true [], 0)).1
     = [W_gap 1 0 4; W_overlap 1 1 6; W_gap 1 6 1].
Proof.
  repeat split; try (vm_compute; reflexivity).
  vm_compute. discriminate.
Qed.

(** ** Assembler *)

Lemma sort_values_nil {A} (cols : list (A -> Z)) : sort_values cols [] = [].
Proof. reflexivity. Qed.

Lemma default_lookup_groupby {A} (key : A -> Z) df k :
  default [] ((list_to_map (groupby key df) : gmap Z (list A)) !! k)
  = filter (fun r => key r = k) df.
Proof.
  rewrite lookup_groupby. destruct (decide _) as [Hin|Hnin]; simpl; [done|].
  symmetry. induction df as [|x df IH]; [done|].
  rewrite filter_cons. destruct (decide (key x = k)) as [<-|Hne].
  - exfalso. apply Hnin. simpl. left.
  - apply IH. intros Hin'. apply Hnin. simpl. by right.
Qed.

Lemma chapter_pericopes_canonical peris chap :
  chapter_pericopes peris (list_to_map (groupby P.chapter (rows peris))) chap
  = canonical_order peris (chapter_rows peris chap).
Proof.
  unfold chapter_pericopes, canonical_order, chapter_rows.
  pose proof (default_lookup_groupby P.chapter (rows peris) chap) as Hd.
  destruct (_ !! chap) as [pdf|]; simpl in Hd; rewrite <- Hd; [done|].
  by destruct (has_order peris).
Qed.

(** The output tree, chapter by chapter. *)
Lemma build_chapters_spec {T} (tokenize : option pystr -> list T)
    verses_df peris :
  build_chapters tokenize verses_df peris
  = map (fun chap =>
           J.mk_chapter chap
             (map (pericope_payload tokenize
                     (filter (fun v => V.chapter v = chap) verses_df))
                  (canonical_order peris (chapter_rows peris chap))))
        (chapter_keys verses_df peris).
Proof.
  unfold build_chapters, chapter_keys. rewrite !dom_groupby.
  apply map_ext. intros chap.
  by rewrite default_lookup_groupby, chapter_pericopes_canonical.
Qed.

Lemma elem_of_chapter_keys verses_df peris c :
  c ∈ chapter_keys verses_df peris
  <-> c ∈ map V.chapter verses_df \/ c ∈ map P.chapter (rows peris).
Proof.
  unfold chapter_keys.
  rewrite sorted_perm, elem_of_elements, elem_of_union, !elem_of_list_to_set.
  done.
Qed.

Lemma chapter_keys_NoDup verses_df peris : NoDup (chapter_keys verses_df peris).
Proof. unfold chapter_keys. rewrite sorted_perm. apply NoDup_elements. Qed.

Lemma StronglySorted_le_NoDup_lt (l : list Z) :
  StronglySorted Z.le l -> NoDup l -> StronglySorted Z.lt l.
Proof.
  induction 1 as [|x l Hs IH Hx]; intros Hnd; [constructor|].
  apply NoDup_cons in Hnd as [Hx' Hnd]. constructor; [by apply IH|].
  rewrite Forall_forall in Hx |- *. intros y Hy.
  specialize (Hx y Hy). assert (x <> y) by (intros ->; done). lia.
Qed.

Lemma chapter_keys_sorted verses_df peris :
  StronglySorted Z.lt (chapter_keys verses_df peris).
Proof.
  apply StronglySorted_le_NoDup_lt; [|apply chapter_keys_NoDup].
  apply sorted_sorted.
Qed.

Lemma build_chapters_chapters {T} (tokenize : option pystr -> list T)
    verses_df peris :
  map J.chapter (build_chapters tokenize verses_df peris)
  = chapter_keys verses_df peris.
Proof. rewrite build_chapters_spec, map_map. simpl. apply map_id. Qed.

Lemma canonical_order_perm peris grp : canonical_order peris grp ≡ₚ grp.
Proof.
  unfold canonical_order. destruct (has_order peris); apply sort_values_perm.
Qed.

Lemma filter_nil_iff {A} (Q : A -> Prop) `{!forall x, Decision (Q x)} l :
  filter Q l = [] <-> forall x, x ∈ l -> ~ Q x.
Proof.
  induction l as [|x l IH]; [by split; [intros _ ? ?%elem_of_nil|]|].
  rewrite filter_cons. destruct (decide (Q x)) as [Hq|Hq].
  - split; [done|]. intros Hall. exfalso. apply (Hall x); [left|done].
  - rewrite IH. split.
    + intros Hall y [->|Hy]%elem_of_cons; [done|by apply Hall].
    + intros Hall y Hy. apply Hall. by right.
Qed.

Lemma select_verses_perm vdf row :
  select_verses vdf row
  ≡ₚ filter (fun v => P.start_verse row <= V.verse v
                      /\ V.verse v <= P.end_verse row) vdf.
Proof. apply sort_values_perm. Qed.

Lemma select_verses_sorted vdf row :
  StronglySorted (fun a b => V.verse a <= V.verse b) (select_verses vdf row).
Proof.
  eapply StronglySorted_weaken; [|apply sort_values_sorted].
  intros a b. cbn [lex_leb].
  repeat (rewrite ?orb_true_iff, ?andb_true_iff).
  rewrite !Z.ltb_lt, !Z.eqb_eq. lia.
Qed.

Lemma filter_chapter_interval (verses_df : list V.row) chap s e :
  filter (fun v => s <= V.verse v /\ V.verse v <= e)
         (filter (fun v => V.chapter v = chap) verses_df)
  = filter (fun v => V.chapter v = chap /\ s <= V.verse v /\ V.verse v <= e)
           verses_df.
Proof.
  induction verses_df as [|v l IH]; [done|].
  rewrite !filter_cons.
  destruct (decide (V.chapter v = chap)); simpl.
  - rewrite filter_cons, IH.
    destruct (decide (s <= V.verse v /\ V.verse v <= e));
      destruct (decide (_ /\ _ /\ _)); try done; tauto.
  - rewrite IH. destruct (decide (_ /\ _ /\ _)); [tauto|done].
Qed.

Lemma elem_of_map {A B} (f : A -> B) (l : list A) (y : B) :
  y ∈ map f l <-> exists x, y = f x /\ x ∈ l.
Proof. apply list_elem_of_fmap. Qed.

Lemma elem_of_build_chapters {T} (tokenize : option pystr -> list T)
    verses_df peris cb :
  cb ∈ build_chapters tokenize verses_df peris
  <-> exists chap,
        chap ∈ chapter_keys verses_df peris
        /\ cb = J.mk_chapter chap
                  (map (pericope_payload tokenize
                          (filter (fun v => V.chapter v = chap) verses_df))
                       (canonical_order peris (chapter_rows peris chap))).
Proof.
  rewrite build_chapters_spec, elem_of_map. split.
  - intros (chap & -> & Hk). by exists chap.
  - intros (chap & Hk & ->). by exists chap.
Qed.

Lemma elem_of_chapter_block {T} (tokenize : option pystr -> list T)
    verses_df peris cb pb :
  cb ∈ build_chapters tokenize verses_df peris ->
  pb ∈ J.pericopes cb ->
  exists r, r ∈ rows peris /\ P.chapter r = J.chapter cb
    /\ pb = pericope_payload tokenize
              (filter (fun v => V.chapter v = J.chapter cb) verses_df) r.
Proof.
  intros (chap & Hk & ->)%elem_of_build_chapters Hpb. simpl in *.
  apply elem_of_map in Hpb as (r & -> & Hr).
  rewrite canonical_order_perm in Hr.
  apply list_elem_of_filter in Hr as [Hc Hr]. by exists r.
Qed.

Lemma pericope_has_block {T} (tokenize : option pystr -> list T)
    verses_df peris r :
  r ∈ rows peris ->
  exists cb, cb ∈ build_chapters tokenize verses_df peris
    /\ J.chapter cb = P.chapter r
    /\ pericope_payload tokenize
         (filter (fun v => V.chapter v = P.chapter r) verses_df) r
       ∈ J.pericopes cb.
Proof.
  intros Hr. eexists. split; [|split].
  - apply elem_of_build_chapters. exists (P.chapter r). split; [|done].
    apply elem_of_chapter_keys. right. apply elem_of_map. by exists r.
  - done.
  - simpl. apply elem_of_map. exists r. split; [done|].
    rewrite canonical_order_perm. by apply list_elem_of_filter.
Qed.

(** C9.  The chapter numbers of the assembler's output are in strictly
    ascending order (so each occurs once) and are those of the verses
    table together with those of the pericopes table.  A chapter that only
    the pericopes table has gets its block: one pericope block for each of
    its pericopes, at least one, all with an empty [verses] list; and the
    validator returns the "no verses" warning for it. *)
Theorem chapters_are_union {T} (tokenize : option pystr -> list T)
    verses_df peris :
  StronglySorted Z.lt (map J.chapter (build_chapters tokenize verses_df peris))
  /\ (forall c,
        c ∈ map J.chapter (build_chapters tokenize verses_df peris)
        <-> c ∈ map V.chapter verses_df \/ c ∈ map P.chapter (rows peris))
  /\ (forall c,
        c ∈ map P.chapter (rows peris) -> c ∉ map V.chapter verses_df ->
        exists cb,
          cb ∈ build_chapters tokenize verses_df peris
          /\ J.chapter cb = c
          /\ map J.id (J.pericopes cb)
             ≡ₚ map P.pericope_id (chapter_rows peris c)
          /\ J.pericopes cb <> []
          /\ Forall (fun pb => J.verses pb = []) (J.pericopes cb)
          /\ forall rfc,
               W_no_verses c ∈ (validate_pericopes verses_df peris rfc).2).
Proof.
  split; [|split].
  - rewrite build_chapters_chapters. apply chapter_keys_sorted.
  - intros c. rewrite build_chapters_chapters. apply elem_of_chapter_keys.
  - intros c Hp Hv.
    assert (filter (fun v => V.chapter v = c) verses_df = []) as Hnil.
    { apply filter_nil_iff. intros v Hin Hc. apply Hv.
      apply elem_of_map. by exists v. }
    apply elem_of_map in Hp as (r & -> & Hr).
    eexists. split.
    { apply elem_of_build_chapters. exists (P.chapter r). split; [|done].
      apply elem_of_chapter_keys. right. apply elem_of_map. by exists r. }
    split; [reflexivity|].
    cbn [J.pericopes]. rewrite Hnil. split; [|split; [|split]].
    + rewrite map_map. simpl. by rewrite canonical_order_perm.
    + intros Hmap. apply map_eq_nil in Hmap.
      assert (r ∈ canonical_order peris (chapter_rows peris (P.chapter r)))
        as Hin.
      { rewrite canonical_order_perm. by apply list_elem_of_filter. }
      rewrite Hmap in Hin. by apply elem_of_nil in Hin.
    + apply Forall_forall. intros pb (r' & -> & _)%elem_of_map. done.
    + intros rfc. rewrite validate_warnings, elem_of_all_warnings. right.
      exists r. split; [done|]. apply elem_of_bounds_warnings. left.
      split; [|done]. apply last_verse_of_None. intros v Hin Hc. apply Hv.
      apply elem_of_map. by exists v.
Qed.

(** [chapters_are_union] on a pericope of chapter 3 when the verses are
    all of chapter 1. *)
Lemma chapters_are_union_witness :
  exists cb,
    cb ∈ build_chapter_structure (logos_verses 2 1)
           (mk_df false [peri "P1" 1 1 2; peri "P2" 3 1 4])
    /\ J.chapter cb = 3
    /\ map J.id (J.pericopes cb)
       ≡ₚ map P.pericope_id
            (chapter_rows (mk_df false [peri "P1" 1 1 2; peri "P2" 3 1 4]) 3)
    /\ J.pericopes cb <> []
    /\ Forall (fun pb => J.verses pb = []) (J.pericopes cb)
    /\ forall rfc,
         W_no_verses 3
         ∈ (validate_pericopes (logos_verses 2 1)
              (mk_df false [peri "P1" 1 1 2; peri "P2" 3 1 4]) rfc).2.
Proof.
  apply (chapters_are_union parse_tokens (logos_verses 2 1)
           (mk_df false [peri "P1" 1 1 2; peri "P2" 3 1 4])).
  - apply list_elem_of_In. simpl. tauto.
  - intros Hin. apply list_elem_of_In in Hin. simpl in Hin.
    intuition discriminate.
Defined.

(** C7.  Every pericope block of the output stands for a pericope of its
    chapter, and its [verses] are the payloads of the verse rows of that
    chapter whose verse number lies in the inclusive interval, each row
    once, in ascending verse order.  Every pericope of the table has its
    block, with an empty [verses] list when no verse row lies in its
    interval.  A verse row that lies in no pericope's interval has no verse
    block under its chapter anywhere in the output. *)
Theorem pericope_block_verses {T} (tokenize : option pystr -> list T)
    verses_df peris :
  (forall cb pb,
      cb ∈ build_chapters tokenize verses_df peris ->
      pb ∈ J.pericopes cb ->
      exists r sel,
        r ∈ rows peris /\ P.chapter r = J.chapter cb
        /\ J.id pb = P.pericope_id r /\ J.title pb = P.title r
        /\ J.start_verse pb = P.start_verse r
        /\ J.end_verse pb = P.end_verse r
        /\ J.verses pb = map (verse_payload tokenize) sel
        /\ sel ≡ₚ filter (fun v => V.chapter v = J.chapter cb
                                   /\ J.start_verse pb <= V.verse v
                                   /\ V.verse v <= J.end_verse pb) verses_df
        /\ StronglySorted (fun a b => V.verse a <= V.verse b) sel)
  /\ (forall r,
        r ∈ rows peris ->
        exists cb pb,
          cb ∈ build_chapters tokenize verses_df peris
          /\ pb ∈ J.pericopes cb
          /\ J.chapter cb = P.chapter r
          /\ J.id pb = P.pericope_id r
          /\ J.start_verse pb = P.start_verse r
          /\ J.end_verse pb = P.end_verse r
          /\ ((forall v, v ∈ verses_df -> ~ covers r v) -> J.verses pb = []))
  /\ (forall v,
        v ∈ verses_df ->
        (forall r, r ∈ rows peris -> ~ covers r v) ->
        forall cb pb vb,
          cb ∈ build_chapters tokenize verses_df peris ->
          pb ∈ J.pericopes cb -> vb ∈ J.verses pb ->
          J.chapter cb = V.chapter v -> J.verse vb <> V.verse v).
Proof.
  split; [|split].
  - intros cb pb Hcb Hpb.
    destruct (elem_of_chapter_block _ _ _ _ _ Hcb Hpb) as (r & Hr & Hc & ->).
    exists r, (select_verses
                 (filter (fun v => V.chapter v = J.chapter cb) verses_df) r).
    simpl. repeat (split; [done|]). split; [|apply select_verses_sorted].
    rewrite select_verses_perm. by rewrite filter_chapter_interval.
  - intros r Hr.
    destruct (pericope_has_block tokenize verses_df peris r Hr)
      as (cb & Hcb & Hc & Hpb).
    eexists cb, _. split; [done|]. split; [exact Hpb|]. simpl.
    repeat (split; [done|]). intros Hnone.
    assert (select_verses
              (filter (fun v => V.chapter v = P.chapter r) verses_df) r = [])
      as ->; [|done].
    apply Permutation_nil_r. rewrite select_verses_perm.
    rewrite filter_chapter_interval.
    replace (filter _ verses_df) with (@nil V.row); [done|].
    symmetry. apply filter_nil_iff.
    intros v Hv (Hc' & Hs & He). apply (Hnone v Hv). by split.
  - intros v Hv Hnone cb pb vb Hcb Hpb Hvb Hchap Hverse.
    destruct (elem_of_chapter_block _ _ _ _ _ Hcb Hpb) as (r & Hr & Hc & ->).
    simpl in Hvb. apply elem_of_map in Hvb as (v' & -> & Hv').
    rewrite select_verses_perm, filter_chapter_interval in Hv'.
    apply list_elem_of_filter in Hv' as [(Hc' & Hs & He) _].
    simpl in Hverse. apply (Hnone r Hr). unfold covers.
    rewrite <- Hverse. split; [congruence|done].
Qed.

(** [pericope_block_verses] on chapter 1 with pericopes 1-2 and 5-6 over
    verses 1..6, and a pericope of chapter 2, which has no verses. *)
Lemma pericope_block_verses_witness :
  (exists r sel,
      r ∈ rows sparse_table /\ P.chapter r = 1
      /\ "P2" = P.pericope_id r /\ "t" = P.title r
      /\ 5 = P.start_verse r /\ 6 = P.end_verse r
      /\ map (verse_payload parse_tokens)
           [V.mk 1 5 (Some logos_text); V.mk 1 6 (Some logos_text)]
         = map (verse_payload parse_tokens) sel
      /\ sel ≡ₚ filter (fun v => V.chapter v = 1
                                 /\ 5 <= V.verse v /\ V.verse v <= 6)
                       (logos_verses 6 1)
      /\ StronglySorted (fun a b => V.verse a <= V.verse b) sel)
  /\ (exists cb pb,
        cb ∈ build_chapter_structure (logos_verses 6 1) sparse_table
        /\ pb ∈ J.pericopes cb /\ J.id pb = "P3" /\ J.verses pb = [])
  /\ (forall cb pb vb,
        cb ∈ build_chapter_structure (logos_verses 6 1) sparse_table ->
        pb ∈ J.pericopes cb -> vb ∈ J.verses pb ->
        J.chapter cb = 1 -> J.verse vb <> 3).
Proof.
  destruct (pericope_block_verses parse_tokens (logos_verses 6 1) sparse_table)
    as (Hblock & Hrow & Hout).
  split; [|split].
  - apply (Hblock
             (J.mk_chapter 1
                [pericope_payload parse_tokens (logos_verses 6 1) (peri "P1" 1 1 2);
                 pericope_payload parse_tokens (logos_verses 6 1) (peri "P2" 1 5 6)])
             (pericope_payload parse_tokens (logos_verses 6 1) (peri "P2" 1 5 6))).
    + apply list_elem_of_In. vm_compute. tauto.
    + apply list_elem_of_In. vm_compute. tauto.
  - destruct (Hrow (peri "P3" 2 1 3)) as (cb & pb & H1 & H2 & _ & H3 & _ & _ & H4).
    + apply list_elem_of_In. simpl. tauto.
    + exists cb, pb. repeat (split; [done|]). apply H4.
      intros v Hv. apply list_elem_of_In in Hv. simpl in Hv.
      unfold covers. intuition (subst; simpl in *; lia).
  - apply (Hout (V.mk 1 3 (Some logos_text))).
    + apply list_elem_of_In. simpl. tauto.
    + intros r Hr. apply list_elem_of_In in Hr. simpl in Hr.
      unfold covers. intuition (subst; simpl in *; lia).
Defined.

(** ** Counting tokens *)

Lemma sum_list_with_zero {A} (l : list A) : sum_list_with (fun _ => O) l = O.
Proof. induction l; simpl; done. Qed.

Section Sums.
Context {A : Type}.
Implicit Types (f g : A -> nat) (l : list A).

Lemma sum_list_with_ext f g l :
  (forall x, x ∈ l -> f x = g x) -> sum_list_with f l = sum_list_with g l.
Proof.
  induction l as [|x l IH]; intros Hfg; simpl; [done|].
  rewrite Hfg by left. f_equal. apply IH. intros y Hy. apply Hfg. by right.
Qed.

Lemma sum_list_with_map {B} (h : B -> A) f (k : list B) :
  sum_list_with f (map h k) = sum_list_with (fun x => f (h x)) k.
Proof. induction k as [|x k IH]; simpl; [done|]. by rewrite IH. Qed.

Lemma sum_list_with_filter (Q : A -> Prop) `{!forall x, Decision (Q x)} f l :
  sum_list_with f (filter Q l)
  = sum_list_with (fun x => if decide (Q x) then f x else O) l.
Proof.
  induction l as [|x l IH]; simpl; [done|].
  rewrite filter_cons. destruct (decide (Q x)); simpl; by rewrite IH.
Qed.

Lemma sum_list_with_plus f g l :
  sum_list_with (fun x => (f x + g x)%nat) l
  = (sum_list_with f l + sum_list_with g l)%nat.
Proof. induction l as [|x l IH]; simpl; [done|]. rewrite IH. lia. Qed.

Lemma sum_list_with_count (Q : A -> Prop) `{!forall x, Decision (Q x)}
    (n : nat) l :
  sum_list_with (fun x => if decide (Q x) then n else O) l
  = (length (filter Q l) * n)%nat.
Proof.
  induction l as [|x l IH]; simpl; [done|].
  rewrite filter_cons, IH. destruct (decide (Q x)); simpl; lia.
Qed.
End Sums.

Lemma sum_list_with_swap {A B} (h : A -> B -> nat) (l : list A) (k : list B) :
  sum_list_with (fun x => sum_list_with (fun y => h x y) k) l
  = sum_list_with (fun y => sum_list_with (fun x => h x y) l) k.
Proof.
  induction l as [|x l IH]; simpl.
  - by rewrite sum_list_with_zero.
  - rewrite IH.
    by rewrite (sum_list_with_plus (h x)
                  (fun y => sum_list_with (fun x => h x y) l)).
Qed.

Lemma sum_list_with_pick (g : Z -> nat) (k : Z) (l : list Z) :
  NoDup l -> k ∈ l ->
  sum_list_with (fun c => if decide (k = c) then g c else O) l = g k.
Proof.
  induction 1 as [|c l Hc Hnd IH]; intros Hk; [by apply elem_of_nil in Hk|].
  simpl. destruct (decide (k = c)) as [->|Hne].
  - rewrite (sum_list_with_ext _ (fun _ => O)).
    + rewrite sum_list_with_zero. lia.
    + intros y Hy. destruct (decide (c = y)) as [->|]; [done|done].
  - apply elem_of_cons in Hk as [?|Hk]; [done|]. by rewrite IH.
Qed.

(** The tokens of the output, as a sum over the verses table: each verse
    row counts once for every pericope that covers it. *)
Lemma n_tokens_build_chapters {T} (tokenize : option pystr -> list T)
    verses_df peris :
  n_tokens (build_chapters tokenize verses_df peris)
  = covered_each_tokens tokenize verses_df peris.
Proof.
  unfold n_tokens, covered_each_tokens.
  rewrite build_chapters_spec, sum_list_with_map. cbn [J.pericopes].
  set (w := fun v : V.row => length (tokenize (V.text v))).
  transitivity
    (sum_list_with
       (fun chap =>
          sum_list_with
            (fun r => if decide (P.chapter r = chap)
                      then sum_list_with
                             (fun v => if decide (covers r v) then w v else O)
                             verses_df
                      else O)
            (rows peris))
       (chapter_keys verses_df peris)).
  { apply sum_list_with_ext. intros chap _.
    rewrite sum_list_with_map, canonical_order_perm.
    unfold chapter_rows. rewrite sum_list_with_filter.
    apply sum_list_with_ext. intros r _.
    destruct (decide (P.chapter r = chap)) as [Hc|]; [|done].
    cbn [pericope_payload J.verses].
    rewrite sum_list_with_map, select_verses_perm, filter_chapter_interval.
    rewrite sum_list_with_filter. apply sum_list_with_ext. intros v _.
    cbn [verse_payload J.tokens]. unfold covers.
    destruct (decide _) as [Hq|Hq]; destruct (decide _) as [Hq'|Hq'];
      try done; exfalso.
    - apply Hq'. destruct Hq as [Hq1 Hq2]. split; [congruence|done].
    - apply Hq. destruct Hq' as [Hq1 Hq2]. split; [congruence|done]. }
  rewrite sum_list_with_swap.
  transitivity
    (sum_list_with
       (fun r => sum_list_with
                   (fun v => if decide (covers r v) then w v else O) verses_df)
       (rows peris)).
  { apply sum_list_with_ext. intros r Hr.
    apply (sum_list_with_pick
             (fun _ => sum_list_with
                         (fun v => if decide (covers r v) then w v else O)
                         verses_df)).
    - apply chapter_keys_NoDup.
    - apply elem_of_chapter_keys. right. apply elem_of_map. by exists r. }
  rewrite sum_list_with_swap. apply sum_list_with_ext. intros v _.
  apply (sum_list_with_count (fun r => covers r v)).
Qed.

Lemma filter_length_zero {A} (Q : A -> Prop) `{!forall x, Decision (Q x)}
    (l : list A) :
  length (filter Q l) = O <-> ~ Exists Q l.
Proof.
  rewrite length_zero_iff_nil, filter_nil_iff, Exists_exists. split.
  - intros Hall (x & Hx & Hq). by apply (Hall x).
  - intros Hex x Hx Hq. apply Hex. by exists x.
Qed.

(** C3 (as the code has it).  The tokens of all the verse blocks of the
    output are the extractor's tokens for the verse rows, each row counted
    once for every pericope whose chapter and inclusive interval contain
    it.  When no verse row lies in two pericopes this is the sum over the
    covered rows, each counted once. *)
Theorem token_total_counts_every_cover {T} (tokenize : option pystr -> list T)
    verses_df peris :
  n_tokens (build_chapters tokenize verses_df peris)
  = covered_each_tokens tokenize verses_df peris
  /\ ((forall v, v ∈ verses_df ->
         (length (filter (fun r => covers r v) (rows peris)) <= 1)%nat) ->
      n_tokens (build_chapters tokenize verses_df peris)
      = covered_once_tokens tokenize verses_df peris).
Proof.
  split; [apply n_tokens_build_chapters|].
  intros Honce. rewrite n_tokens_build_chapters.
  unfold covered_each_tokens, covered_once_tokens.
  rewrite sum_list_with_filter. apply sum_list_with_ext. intros v Hv.
  specialize (Honce v Hv).
  destruct (decide (Exists (fun r => covers r v) (rows peris))) as [Hex|Hex].
  - destruct (length (filter _ (rows peris))) as [|[|n]] eqn:Hlen; [|lia|lia].
    by apply filter_length_zero in Hlen.
  - apply (filter_length_zero (fun r => covers r v)) in Hex.
    rewrite Hex. lia.
Qed.

(** [token_total_counts_every_cover] on the gap example, where no verse
    lies in two pericopes. *)
Lemma token_total_counts_every_cover_witness :
  n_tokens (build_chapter_structure (logos_verses 6 1) gap_table)
  = covered_once_tokens parse_tokens (logos_verses 6 1) gap_table.
Proof.
  apply (token_total_counts_every_cover parse_tokens (logos_verses 6 1)
           gap_table).
  intros v Hv. apply list_elem_of_In in Hv. simpl in Hv.
  intuition (subst; vm_compute; lia).
Defined.

(** C3 fails as stated: with pericopes 1-3 and 3-5 over verses 1..5 of two
    tokens each, verse 3 is assembled under both pericopes and its tokens
    are counted twice: 12 tokens in the output, 10 by the count that takes
    each covered row once. *)
Lemma token_total_counts_overlap_twice :
  n_tokens (build_chapter_structure (logos_verses 5 1) overlap_table) = 12%nat
  /\ covered_once_tokens parse_tokens (logos_verses 5 1) overlap_table = 10%nat
  /\ n_tokens (build_chapter_structure (logos_verses 5 1) overlap_table)
     <> covered_once_tokens parse_tokens (logos_verses 5 1) overlap_table.
Proof.
  split; [|split]; vm_compute; [reflexivity|reflexivity|discriminate].
Qed.

(** ** The pattern matcher *)

Lemma run_length_le cls s : (run_length cls s <= length s)%nat.
Proof.
  induction s as [|c s IH]; simpl; [lia|]. destruct (cls c); simpl; lia.
Qed.

Lemma take_run_Forall cls s k :
  (k <= run_length cls s)%nat -> Forall (fun c => cls c = true) (take k s).
Proof.
  revert k. induction s as [|c s IH]; intros k Hk.
  - rewrite take_nil. constructor.
  - destruct k as [|k]; [constructor|]. simpl in *.
    destruct (cls c) eqn:Hc; [|lia].
    constructor; [done|]. apply IH. lia.
Qed.

Lemma run_length_run cls run s :
  Forall (fun c => cls c = true) run -> stops cls s ->
  run_length cls (run ++ s) = length run.
Proof.
  induction 1 as [|c run Hc Hrun IH]; intros Hs; simpl.
  - destruct s as [|c s]; [done|]. simpl in *. by rewrite Hs.
  - rewrite Hc. f_equal. by apply IH.
Qed.

Lemma longest_first_Some {A} (f : nat -> option A) k r :
  longest_first f k = Some r ->
  exists j, (1 <= j <= k)%nat /\ f j = Some r.
Proof.
  induction k as [|k IH]; simpl; [done|].
  destruct (f (S k)) as [r'|] eqn:Hf.
  - intros [= <-]. exists (S k). split; [lia|done].
  - intros (j & Hj & Hfj)%IH. exists j. split; [lia|done].
Qed.

Lemma longest_first_top {A} (f : nat -> option A) k r :
  k <> O -> f k = Some r -> longest_first f k = Some r.
Proof. destruct k as [|k]; [done|]. intros _ Hf. simpl. by rewrite Hf. Qed.

(** Every result of [match_here] is a match. *)
Lemma match_here_sound p : forall s groups rest,
  match_here p s = Some (groups, rest) -> Matches p s groups rest.
Proof.
  induction p as [|[c|capture cls] p IH]; intros s groups rest; simpl.
  - intros [= <- <-]. constructor.
  - destruct s as [|x s]; [done|]. destruct (Z.eqb_spec x c) as [->|]; [|done].
    intros H. constructor. by apply IH.
  - intros (j & Hj & Hf)%longest_first_Some.
    destruct (match_here p (drop j s)) as [[groups' rest']|] eqn:Hm; [|done].
    injection Hf as <- <-. rewrite <- (take_drop j s) at 1.
    constructor.
    + pose proof (run_length_le cls s). destruct s; simpl in *; [lia|].
      destruct j; [lia|done].
    + apply take_run_Forall. lia.
    + by apply IH.
Qed.

(** A match leaves a suffix of the text. *)
Lemma Matches_suffix p s groups rest :
  Matches p s groups rest -> exists src, s = src ++ rest.
Proof.
  induction 1 as [s|c p s groups rest _ [src ->]
                 |capture cls p run s groups rest _ _ _ [src ->]].
  - by exists [].
  - by exists (c :: src).
  - exists (run ++ src). by rewrite app_assoc.
Qed.

(** A greedy repetition that takes its whole run, when the rest of the
    pattern matches after it, is the match [re] finds: it is tried first. *)
Lemma match_here_plus_greedy capture cls p run s groups rest :
  run <> [] -> Forall (fun c => cls c = true) run -> stops cls s ->
  match_here p s = Some (groups, rest) ->
  match_here (Plus capture cls :: p) (run ++ s)
  = Some (if capture then run :: groups else groups, rest).
Proof.
  intros Hne Hrun Hstop Hm. simpl. rewrite run_length_run by done.
  apply longest_first_top; [by destruct run|].
  rewrite drop_app_length, Hm. by rewrite take_app_length.
Qed.

Lemma match_here_lit c p s :
  match_here (Lit c :: p) (c :: s) = match_here p s.
Proof. simpl. by rewrite Z.eqb_refl. Qed.

(** [findall] *)

Lemma findall_from_drop p : forall s skip,
  (skip <= length s)%nat -> findall_from p skip s = findall p (drop skip s).
Proof.
  induction s as [|c s IH]; intros skip Hskip; simpl in *.
  - by replace skip with O by lia.
  - destruct skip as [|k]; [done|]. simpl. apply IH. lia.
Qed.

Lemma findall_nil p : findall p [] = match match_here p [] with
                                     | Some (groups, _) => [groups]
                                     | None => []
                                     end.
Proof. reflexivity. Qed.

Lemma findall_skip p c s :
  match_here p (c :: s) = None -> findall p (c :: s) = findall p s.
Proof. unfold findall. simpl. by intros ->. Qed.

Lemma findall_match p c s groups src rest :
  match_here p (c :: s) = Some (groups, rest) ->
  c :: s = src ++ rest -> src <> [] ->
  findall p (c :: s) = groups :: findall p rest.
Proof.
  intros Hm Hs Hsrc. unfold findall at 1. cbn [findall_from]. rewrite Hm.
  f_equal. destruct src as [|c' src]; [done|]. simpl in Hs.
  injection Hs as -> ->. rewrite findall_from_drop.
  - f_equal. simpl. rewrite length_app.
    replace (S (length src + length rest) - length rest - 1)%nat
      with (length src) by lia.
    apply drop_app_length.
  - simpl. rewrite length_app. lia.
Qed.

(** ** [TOKEN_RE] *)

Lemma in_ranges_iff rs c :
  in_ranges rs c = true <-> exists r, r ∈ rs /\ r.1 <= c /\ c <= r.2.
Proof.
  unfold in_ranges. rewrite existsb_exists. split.
  - intros (r & Hr & Hc). apply andb_true_iff in Hc as [?%Z.leb_le ?%Z.leb_le].
    exists r. by rewrite list_elem_of_In.
  - intros (r & Hr & H1 & H2). exists r. rewrite <- list_elem_of_In.
    split; [done|]. apply andb_true_iff. by rewrite !Z.leb_le.
Qed.

Lemma in_ranges_disjoint rs1 rs2 c :
  ranges_disjoint rs1 rs2 = true ->
  in_ranges rs1 c = true -> in_ranges rs2 c = false.
Proof.
  intros Hd (a & Ha & Ha1 & Ha2)%in_ranges_iff.
  apply not_true_is_false. intros (b & Hb & Hb1 & Hb2)%in_ranges_iff.
  unfold ranges_disjoint in Hd. rewrite forallb_forall in Hd.
  apply list_elem_of_In in Ha, Hb. specialize (Hd a Ha).
  rewrite forallb_forall in Hd. specialize (Hd b Hb).
  apply orb_true_iff in Hd as [?%Z.ltb_lt|?%Z.ltb_lt]; lia.
Qed.

(** No decimal digit is whitespace. *)
Lemma isdigit_not_space c : isdigit c = true -> isspace c = false.
Proof. apply in_ranges_disjoint. vm_compute. reflexivity. Qed.

Lemma isspace_not_digit c : isspace c = true -> isdigit c = false.
Proof. apply in_ranges_disjoint. vm_compute. reflexivity. Qed.

Lemma isspace_not_surface c : isspace c = true -> surface_char c = false.
Proof. intros H. unfold surface_char. by rewrite H. Qed.

Lemma stops_app_head (cls cls' : Z -> bool) run s :
  run <> [] -> Forall (fun c => cls' c = true) run ->
  (forall c, cls' c = true -> cls c = false) ->
  stops cls (run ++ s).
Proof.
  intros Hne Hrun Hc. destruct run as [|c run]; [done|]. simpl.
  apply Hc. by apply Forall_cons in Hrun as [? _].
Qed.

(** Where an occurrence of the triple starts, the pattern matches, takes
    that occurrence and captures its three parts. *)
Lemma match_here_Triple src tok rest :
  Triple src tok ->
  match_here TOKEN_RE (src ++ rest)
  = Some ([greek tok; strongs tok; morph tok], rest).
Proof.
  intros [g w1 d w2 m Hg Hg' Hw1 Hw1' Hd Hd' Hw2 Hw2' Hm Hm'].
  rewrite <- !app_assoc. unfold TOKEN_RE. cbn [greek strongs morph].
  apply (match_here_plus_greedy true); [done|done|..].
  { eapply stops_app_head; [exact Hw1|exact Hw1'|]. apply isspace_not_surface. }
  apply (match_here_plus_greedy false); [done|done|..].
  { eapply stops_app_head; [exact Hd|exact Hd'|]. apply isdigit_not_space. }
  apply (match_here_plus_greedy true); [done|done|..].
  { eapply stops_app_head; [exact Hw2|exact Hw2'|]. apply isspace_not_digit. }
  apply (match_here_plus_greedy false); [done|done|reflexivity|].
  cbn [app]. rewrite match_here_lit.
  apply (match_here_plus_greedy true); [done|done|reflexivity|].
  cbn [app]. by rewrite match_here_lit.
Qed.

(** Every match of the pattern takes an occurrence of the triple. *)
Lemma match_here_TOKEN_RE_sound s groups rest :
  match_here TOKEN_RE s = Some (groups, rest) ->
  exists src tok,
    Triple src tok /\ s = src ++ rest
    /\ groups = [greek tok; strongs tok; morph tok].
Proof.
  intros H%match_here_sound. unfold TOKEN_RE in H.
  repeat invert_match.
  exists (run ++ run0 ++ run1 ++ run2 ++ [lbrace] ++ run3 ++ [rbrace]),
         (mk_token run run1 run3).
  split; [by constructor|]. split; [|done].
  by rewrite <- !app_assoc.
Qed.

(** An occurrence of the triple is not empty. *)
Lemma Triple_nonempty src tok : Triple src tok -> src <> [].
Proof. intros [g w1 d w2 m Hg _ _ _ _ _ _ _ _ _]. by destruct g. Qed.

Lemma Triple_wf src tok : Triple src tok -> token_wf tok.
Proof. intros [g w1 d w2 m Hg _ _ _ Hd Hdd _ _ Hm _]. by repeat split. Qed.

(** At most one occurrence of the triple starts at a position. *)
Lemma Triple_unique src1 tok1 rest1 src2 tok2 rest2 :
  Triple src1 tok1 -> Triple src2 tok2 ->
  src1 ++ rest1 = src2 ++ rest2 ->
  src1 = src2 /\ tok1 = tok2 /\ rest1 = rest2.
Proof.
  intros H1 H2 Heq.
  pose proof (match_here_Triple _ _ rest1 H1) as M1.
  pose proof (match_here_Triple _ _ rest2 H2) as M2.
  rewrite Heq, M2 in M1. injection M1 as Hg Hs Hm <-.
  apply app_inv_tail in Heq as ->.
  split; [done|]. split; [|done].
  destruct tok1, tok2; simpl in *; congruence.
Qed.

(** ** [parse_tokens] *)

Lemma parse_tokens_nil : parse_tokens (Some []) = [].
Proof. reflexivity. Qed.

Lemma parse_tokens_match src tok rest :
  Triple src tok ->
  parse_tokens (Some (src ++ rest)) = tok :: parse_tokens (Some rest).
Proof.
  intros Ht. pose proof (match_here_Triple _ _ rest Ht) as Hm.
  pose proof (Triple_nonempty _ _ Ht) as Hne.
  unfold parse_tokens.
  destruct (src ++ rest) as [|c s] eqn:Hs.
  { by destruct src. }
  rewrite (findall_match _ _ _ _ src rest Hm (eq_sym Hs) Hne). simpl.
  by destruct tok.
Qed.

Lemma parse_tokens_skip c s :
  (forall src tok rest, c :: s = src ++ rest -> ~ Triple src tok) ->
  parse_tokens (Some (c :: s)) = parse_tokens (Some s).
Proof.
  intros Hno. unfold parse_tokens. rewrite findall_skip; [done|].
  destruct (match_here TOKEN_RE (c :: s)) as [[groups rest]|] eqn:Hm; [|done].
  apply match_here_TOKEN_RE_sound in Hm as (src & tok & Ht & Hs & _).
  by destruct (Hno src tok rest).
Qed.

(** The extractor returns the occurrences of the triple. *)
Lemma parse_tokens_Occurrences text : Occurrences text (parse_tokens (Some text)).
Proof.
  remember (length text) as n eqn:Hn. revert text Hn.
  induction n as [n IH] using lt_wf_ind. intros text ->.
  destruct text as [|c s]; [constructor|].
  destruct (match_here TOKEN_RE (c :: s)) as [[groups rest]|] eqn:Hm.
  - apply match_here_TOKEN_RE_sound in Hm as (src & tok & Ht & Hs & _).
    rewrite Hs, (parse_tokens_match _ _ _ Ht). constructor; [done|].
    apply (IH (length rest)); [|done].
    rewrite Hs, length_app. pose proof (Triple_nonempty _ _ Ht).
    destruct src; [done|]. simpl. lia.
  - assert (forall src tok rest, c :: s = src ++ rest -> ~ Triple src tok)
      as Hno.
    { intros src tok rest Hs Ht.
      by rewrite Hs, (match_here_Triple _ _ rest Ht) in Hm. }
    rewrite (parse_tokens_skip _ _ Hno). constructor; [done|].
    apply (IH (length s)); [simpl; lia|done].
Qed.

Lemma Occurrences_parse_tokens text toks :
  Occurrences text toks -> parse_tokens (Some text) = toks.
Proof.
  induction 1 as [|c s toks Hno _ IH|src tok rest toks Ht _ IH].
  - done.
  - by rewrite (parse_tokens_skip _ _ Hno).
  - by rewrite (parse_tokens_match _ _ _ Ht), IH.
Qed.

Lemma Occurrences_wf text toks : Occurrences text toks -> Forall token_wf toks.
Proof.
  induction 1 as [|c s toks _ _ IH|src tok rest toks Ht _ IH];
    [constructor|done|].
  constructor; [by eapply Triple_wf|done].
Qed.

(** C8.  When the occurrences of the triple pattern in a text, from left
    to right and without overlap, are [toks], the extractor returns
    exactly [toks]: as many tokens, in that order, each with a non-empty
    surface, a non-empty all-digit strongs and a non-empty morph.  Every
    text has such a list of occurrences.  The text
    "λόγος 3056 {N-NSM} ἦν 1510 {V-IAI3S}" yields the tokens
    (λόγος, 3056, N-NSM) and (ἦν, 1510, V-IAI3S). *)
Theorem parse_tokens_occurrences :
  (forall text toks,
      Occurrences text toks ->
      parse_tokens (Some text) = toks
      /\ length (parse_tokens (Some text)) = length toks
      /\ Forall token_wf (parse_tokens (Some text)))
  /\ (forall text, exists toks, Occurrences text toks)
  /\ parse_tokens (Some logos_text) = logos_tokens.
Proof.
  split; [|split].
  - intros text toks Hocc.
    rewrite (Occurrences_parse_tokens _ _ Hocc).
    split; [done|]. split; [done|]. by eapply Occurrences_wf.
  - intros text. eexists. apply parse_tokens_Occurrences.
  - vm_compute. reflexivity.
Qed.

Lemma Triple_head c src tok : Triple (c :: src) tok -> surface_char c = true.
Proof.
  intros Ht. remember (c :: src) as s eqn:Hs.
  destruct Ht as [g w1 d w2 m Hg Hgs _ _ _ _ _ _ _ _].
  destruct g as [|c0 g]; [done|]. simpl in Hs. injection Hs as -> _.
  by apply Forall_cons in Hgs as [? _].
Qed.

Lemma no_Triple_at_space c s :
  isspace c = true ->
  forall src tok rest, c :: s = src ++ rest -> ~ Triple src tok.
Proof.
  intros Hc src tok rest Hs Ht.
  pose proof (Triple_nonempty _ _ Ht) as Hne.
  destruct src as [|c' src]; [done|]. simpl in Hs. injection Hs as <- _.
  apply Triple_head in Ht. by rewrite (isspace_not_surface _ Hc) in Ht.
Qed.

(** [parse_tokens_occurrences] on the example text, whose two occurrences
    are separated by one space. *)
Lemma parse_tokens_occurrences_witness :
  parse_tokens (Some logos_text) = logos_tokens
  /\ length (parse_tokens (Some logos_text)) = length logos_tokens
  /\ Forall token_wf (parse_tokens (Some logos_text)).
Proof.
  apply (proj1 parse_tokens_occurrences logos_text logos_tokens).
  apply (occ_match
           [0x3bb; 0x3cc; 0x3b3; 0x3bf; 0x3c2; 0x20; 0x33; 0x30; 0x35; 0x36;
            0x20; 0x7b; 0x4e; 0x2d; 0x4e; 0x53; 0x4d; 0x7d]).
  { apply (triple_intro [0x3bb; 0x3cc; 0x3b3; 0x3bf; 0x3c2] [0x20]
             [0x33; 0x30; 0x35; 0x36] [0x20] [0x4e; 0x2d; 0x4e; 0x53; 0x4d]);
      first [discriminate | repeat constructor]. }
  apply occ_skip; [by apply no_Triple_at_space|].
  apply (occ_match
           [0x1f26; 0x3bd; 0x20; 0x31; 0x35; 0x31; 0x30; 0x20; 0x7b; 0x56;
            0x2d; 0x49; 0x41; 0x49; 0x33; 0x53; 0x7d] _ []).
  { apply (triple_intro [0x1f26; 0x3bd] [0x20] [0x31; 0x35; 0x31; 0x30] [0x20]
             [0x56; 0x2d; 0x49; 0x41; 0x49; 0x33; 0x53]);
      first [discriminate | repeat constructor]. }
  apply occ_nil.
Defined.

(** * Further properties *)

(** ** The validator's verdict and the clean case *)

Lemma forallb_fatal_true (ws : list warning) :
  forallb (fun w => negb (fatal true w)) ws = true <-> ws = [].
Proof.
  destruct ws as [|w ws]; [done|]. simpl. split; [|done].
  by destruct w.
Qed.

Lemma row_warnings_nil chap c r :
  row_warnings chap c r = [] <-> P.start_verse r = c + 1.
Proof.
  rewrite row_warnings_cases, app_nil.
  repeat case_bool_decide; split; (intros [? ?] || intros ?);
    try done; try lia; try (split; done).
Qed.

Lemma walk_warnings_cons chap c r grp :
  walk_warnings chap c (r :: grp)
  = row_warnings chap c r ++ walk_warnings chap (P.end_verse r) grp.
Proof. reflexivity. Qed.

Lemma walk_tiles chap grp : forall c m,
  walk_warnings chap c grp = [] /\ last_cursor c grp = m <-> tiles c grp m.
Proof.
  induction grp as [|r grp IH]; intros c m.
  - simpl. unfold walk_warnings. simpl. tauto.
  - rewrite walk_warnings_cons, app_nil, row_warnings_nil.
    cbn [tiles last_cursor fold_left]. rewrite step_cursor_end.
    rewrite <- IH. unfold last_cursor. tauto.
Qed.

Lemma end_warnings_nil lv chap c :
  end_warnings lv chap c = [] <-> lv !! chap = None \/ lv !! chap = Some c.
Proof.
  unfold end_warnings. destruct (lv !! chap) as [m|]; simpl.
  - destruct (Z.eqb_spec c m) as [->|Hne]; simpl.
    + split; [by right|done].
    + split; [done|]. intros [?|[= ->]]; done.
  - rewrite Z.eqb_refl. simpl. split; [by left|done].
Qed.

Lemma bounds_warnings_nil lv r :
  bounds_warnings lv r = []
  <-> exists m, lv !! P.chapter r = Some m /\ P.end_verse r <= m.
Proof.
  unfold bounds_warnings, check_bounds.
  destruct (lv !! P.chapter r) as [m|]; simpl.
  - destruct (Z.ltb_spec m (P.end_verse r)); simpl.
    + split; [done|]. intros (m' & [= <-] & ?). lia.
    + split; [|done]. intros _. exists m. split; [done|lia].
  - split; [done|]. by intros (m & ? & _).
Qed.

(** The validator has nothing to report exactly when every chapter of
    the pericopes table has verses and its pericopes, by interval, tile
    the verses from 1 to the chapter's largest verse number. *)
Lemma all_warnings_nil_iff verses_df peris :
  all_warnings verses_df peris = []
  <-> forall chap,
        chap ∈ map P.chapter (rows peris) ->
        exists m,
          chapter_max verses_df chap m
          /\ tiles 0 (walk_order (chapter_rows peris chap)) m
          /\ forall r, r ∈ chapter_rows peris chap -> P.end_verse r <= m.
Proof.
  unfold all_warnings. rewrite app_nil, !flat_map_nil_iff. split.
  - intros [Hwalk Hbounds] chap Hchap.
    apply elem_of_map in Hchap as (r & -> & Hr).
    destruct (proj1 (bounds_warnings_nil _ _) (Hbounds r Hr)) as (m & Hm & _).
    exists m. split; [by apply last_verse_of_Some|]. split.
    + specialize (Hwalk (P.chapter r, chapter_rows peris (P.chapter r))).
      cbn [fst snd] in Hwalk. unfold chapter_warnings in Hwalk.
      rewrite app_nil, end_warnings_nil in Hwalk.
      destruct Hwalk as [Hw Hend].
      { apply elem_of_groupby. split; [|done]. apply elem_of_map. by exists r. }
      apply walk_tiles with (chap := P.chapter r). split; [done|].
      destruct Hend as [Hend|Hend]; congruence.
    + intros r' [Hc Hr']%list_elem_of_filter.
      destruct (proj1 (bounds_warnings_nil _ _) (Hbounds r' Hr'))
        as (m' & Hm' & Hle).
      rewrite Hc, Hm in Hm'. by injection Hm' as <-.
  - intros Hall. split.
    + intros [chap grp] [Hchap ->]%elem_of_groupby. cbn [fst snd].
      destruct (Hall chap Hchap) as (m & Hm%last_verse_of_Some & Ht & _).
      apply (walk_tiles chap) in Ht as [Hw Hc].
      unfold chapter_rows in *. unfold chapter_warnings. rewrite app_nil, end_warnings_nil.
      split; [done|]. right. by rewrite Hc.
    + intros r Hr. apply bounds_warnings_nil.
      destruct (Hall (P.chapter r)) as (m & Hm%last_verse_of_Some & _ & Hle).
      { apply elem_of_map. by exists r. }
      exists m. split; [done|]. apply Hle. by apply list_elem_of_filter.
Qed.

(** X1.  The warnings the validator returns do not depend on
    [require_full_coverage].  With the flag set the verdict is [true]
    exactly when no warning is returned, and a [true] verdict with the
    flag set is a [true] verdict without it. *)
Theorem validate_flag_effect verses_df peris :
  (validate_pericopes verses_df peris true).2
  = (validate_pericopes verses_df peris false).2
  /\ ((validate_pericopes verses_df peris true).1 = true
      <-> (validate_pericopes verses_df peris true).2 = [])
  /\ ((validate_pericopes verses_df peris true).1 = true ->
      (validate_pericopes verses_df peris false).1 = true).
Proof.
  rewrite !validate_warnings, !validate_ok, forallb_fatal_true.
  split; [done|]. split; [done|]. by intros ->.
Qed.

(** [validate_flag_effect] on the clean table and verses 1..6. *)
Lemma validate_flag_effect_witness :
  (validate_pericopes (verses_1_to 6 1) clean_table false).1 = true.
Proof.
  apply (validate_flag_effect (verses_1_to 6 1) clean_table).
  vm_compute. reflexivity.
Defined.



(** Pericopes that tile [c + 1 .. m] and are not inverted hold each verse
    number of that range once, and no other. *)
Lemma tiles_cover_once grp : forall c m,
  tiles c grp m ->
  Forall (fun r => P.start_verse r <= P.end_verse r) grp ->
  c <= m
  /\ forall n,
       length (filter (fun r => P.start_verse r <= n /\ n <= P.end_verse r) grp)
       = if decide (c < n /\ n <= m) then 1%nat else 0%nat.
Proof.
  induction grp as [|r grp IH]; intros c m Ht Hvalid; simpl in Ht.
  - subst. split; [lia|]. intros n. rewrite filter_nil.
    destruct (decide _); [lia|done].
  - destruct Ht as [Hs Ht]. apply Forall_cons in Hvalid as [Hr Hvalid].
    destruct (IH _ _ Ht Hvalid) as [Hle Hcount]. split; [lia|].
    intros n. rewrite filter_cons. specialize (Hcount n).
    destruct (decide (P.start_verse r <= n /\ n <= P.end_verse r));
      simpl; rewrite Hcount;
      destruct (decide (P.end_verse r < n /\ n <= m));
      destruct (decide (c < n /\ n <= m)); lia.
Qed.

Lemma filter_covers_chapter (peris : pericopes_df) (v : V.row) :
  filter (fun r => covers r v) (rows peris)
  = filter (fun r => P.start_verse r <= V.verse v /\ V.verse v <= P.end_verse r)
           (chapter_rows peris (V.chapter v)).
Proof.
  unfold chapter_rows, covers.
  induction (rows peris) as [|r l IH]; [done|].
  rewrite !filter_cons.
  destruct (decide (P.chapter r = V.chapter v)); simpl.
  - rewrite filter_cons, IH.
    destruct (decide (_ /\ _ /\ _)); destruct (decide (_ <= _ /\ _ <= _));
      try done; tauto.
  - rewrite IH. destruct (decide (_ /\ _ /\ _)); [tauto|done].
Qed.

(** With nothing to report and no inverted pericope, a verse row numbered
    from 1 in a chapter of the pericopes table lies in exactly one
    pericope. *)
Lemma clean_covers_once verses_df peris v :
  all_warnings verses_df peris = [] ->
  (forall r, r ∈ rows peris -> P.start_verse r <= P.end_verse r) ->
  v ∈ verses_df -> 1 <= V.verse v ->
  V.chapter v ∈ map P.chapter (rows peris) ->
  length (filter (fun r => covers r v) (rows peris)) = 1%nat.
Proof.
  intros Hclean Hvalid Hv Hpos Hchap.
  destruct (proj1 (all_warnings_nil_iff _ _) Hclean _ Hchap)
    as (m & [_ Hmax] & Ht & _).
  rewrite filter_covers_chapter.
  rewrite <- (sort_values_perm [P.start_verse; P.end_verse]
                (chapter_rows peris (V.chapter v))).
  destruct (tiles_cover_once _ _ _ Ht) as [_ Hcount].
  - apply Forall_forall. intros r Hr. unfold walk_order in Hr.
    rewrite sort_values_perm in Hr.
    apply list_elem_of_filter in Hr as [_ Hr]. by apply Hvalid.
  - unfold walk_order in Hcount. rewrite Hcount.
    specialize (Hmax v Hv eq_refl). destruct (decide _); [done|lia].
Qed.

(** X3.  When the validator returns no warning and no pericope has
    [start_verse > end_verse] (what [load_pericopes] lets through), every
    verse row numbered from 1 whose chapter has pericopes lies in the
    interval of exactly one pericope of its chapter. *)
Theorem clean_validation_covers_once verses_df peris rfc v :
  (validate_pericopes verses_df peris rfc).2 = [] ->
  (forall r, r ∈ rows peris -> P.start_verse r <= P.end_verse r) ->
  v ∈ verses_df -> 1 <= V.verse v ->
  V.chapter v ∈ map P.chapter (rows peris) ->
  length (filter (fun r => covers r v) (rows peris)) = 1%nat.
Proof. rewrite validate_warnings. apply clean_covers_once. Qed.

(** [clean_validation_covers_once] on verse 4 of the clean table. *)
Lemma clean_validation_covers_once_witness :
  length (filter (fun r => covers r (V.mk 1 4 (Some [])))
                 (rows clean_table)) = 1%nat.
Proof.
  apply (clean_validation_covers_once (verses_1_to 6 1) clean_table false).
  - vm_compute. reflexivity.
  - intros r Hr. apply list_elem_of_In in Hr. simpl in Hr.
    intuition (subst; simpl; lia).
  - apply list_elem_of_In. simpl. tauto.
  - simpl. lia.
  - apply list_elem_of_In. simpl. tauto.
Defined.

(** X4.  When the validator returns no warning, no pericope has
    [start_verse > end_verse], and every verse row is numbered from 1 in
    a chapter that has pericopes, the output holds the extractor's tokens
    of every verse row once: nothing is dropped and nothing is repeated. *)
Theorem clean_validation_token_total {T} (tokenize : option pystr -> list T)
    verses_df peris rfc :
  (validate_pericopes verses_df peris rfc).2 = [] ->
  (forall r, r ∈ rows peris -> P.start_verse r <= P.end_verse r) ->
  (forall v, v ∈ verses_df ->
     1 <= V.verse v /\ V.chapter v ∈ map P.chapter (rows peris)) ->
  n_tokens (build_chapters tokenize verses_df peris)
  = sum_list_with (fun v => length (tokenize (V.text v))) verses_df.
Proof.
  rewrite validate_warnings. intros Hclean Hvalid Hrows.
  rewrite n_tokens_build_chapters. unfold covered_each_tokens.
  apply sum_list_with_ext. intros v Hv. destruct (Hrows v Hv) as [Hpos Hc].
  rewrite (clean_covers_once verses_df peris v) by done. lia.
Qed.

(** [clean_validation_token_total] on the clean table and six verses of
    two tokens each. *)
Lemma clean_validation_token_total_witness :
  n_tokens (build_chapter_structure (logos_verses 6 1) clean_table)
  = sum_list_with (fun v => length (parse_tokens (V.text v)))
                  (logos_verses 6 1).
Proof.
  apply (clean_validation_token_total parse_tokens (logos_verses 6 1)
           clean_table false).
  - vm_compute. reflexivity.
  - intros r Hr. apply list_elem_of_In in Hr. simpl in Hr.
    intuition (subst; simpl; lia).
  - intros v Hv. apply list_elem_of_In in Hv. simpl in Hv.
    split; [intuition (subst; simpl; lia)|].
    apply list_elem_of_In. simpl. intuition (subst; simpl; tauto).
Defined.

Lemma warning_chapter_row_warnings w chap c r :
  w ∈ row_warnings chap c r -> warning_chapter w = chap.
Proof.
  rewrite row_warnings_cases, elem_of_app.
  intros [Hw|Hw]; case_bool_decide;
    first [by apply elem_of_nil in Hw
          | by apply list_elem_of_singleton in Hw as ->].
Qed.

(** X5.  Every warning the validator returns is about a chapter of the
    pericopes table: a chapter that only the verses table has is never
    reported.  The assembler gives such a chapter a block without
    pericopes, so its verses are in no verse block. *)
Theorem verses_only_chapter_is_silent {T} (tokenize : option pystr -> list T)
    verses_df peris rfc :
  (forall w, w ∈ (validate_pericopes verses_df peris rfc).2 ->
     warning_chapter w ∈ map P.chapter (rows peris))
  /\ (forall c, c ∈ map V.chapter verses_df ->
        c ∉ map P.chapter (rows peris) ->
        J.mk_chapter c [] ∈ build_chapters tokenize verses_df peris).
Proof.
  split.
  - intros w. rewrite validate_warnings, elem_of_all_warnings.
    intros [(chap & Hchap & Hw)|(r & Hr & Hw)].
    + unfold chapter_warnings, end_warnings in Hw.
      apply elem_of_app in Hw as [Hw|Hw].
      * apply elem_of_walk_warnings in Hw as (r & c & _ & Hw).
        by rewrite (warning_chapter_row_warnings _ _ _ _ Hw).
      * destruct (negb _); [|by apply elem_of_nil in Hw].
        by apply list_elem_of_singleton in Hw as ->.
    + apply elem_of_bounds_warnings in Hw as [[_ ->]|(m & _ & _ & ->)];
        simpl; apply elem_of_map; by exists r.
  - intros c Hv Hp. apply elem_of_build_chapters. exists c. split.
    { apply elem_of_chapter_keys. by left. }
    f_equal.
    assert (chapter_rows peris c = []) as ->.
    { apply filter_nil_iff. intros r Hr Hc. apply Hp.
      apply elem_of_map. by exists r. }
    unfold canonical_order. by destruct (has_order peris).
Qed.

(** [verses_only_chapter_is_silent] on verses of chapters 1 and 2 with
    pericopes of chapter 1 only. *)
Lemma verses_only_chapter_is_silent_witness :
  J.mk_chapter 2 []
  ∈ build_chapter_structure (logos_verses 6 1 ++ logos_verses 3 2) clean_table.
Proof.
  apply (verses_only_chapter_is_silent parse_tokens
           (logos_verses 6 1 ++ logos_verses 3 2) clean_table false).
  - apply list_elem_of_In. simpl. tauto.
  - intros Hin. apply list_elem_of_In in Hin. simpl in Hin.
    intuition discriminate.
Defined.

(** ** The overlap detector *)

Lemma overlap_step_spec chap ws c se :
  overlap_step chap (ws, c) se
  = (ws ++ (overlap_step chap ([], c) se).1, Z.max c se.2).
Proof.
  unfold overlap_step. simpl. destruct (se.1 <=? c); simpl; [done|].
  by rewrite app_nil_r.
Qed.

Lemma fold_overlap_step chap ivs : forall ws c,
  fold_left (overlap_step chap) ivs (ws, c)
  = (ws ++ scan_overlaps chap c ivs, fold_left Z.max (map snd ivs) c).
Proof.
  induction ivs as [|se ivs IH]; intros ws c; cbn [fold_left map scan_overlaps].
  - by rewrite app_nil_r.
  - rewrite overlap_step_spec, IH. by rewrite <- app_assoc.
Qed.

(** The detector's warnings, chapter by chapter. *)
Lemma detect_overlaps_spec peris :
  detect_overlaps peris
  = flat_map (fun cg : Z * list P.row =>
                scan_overlaps cg.1 (- 10 ^ 9)
                  (sort_values [fst; snd] (map interval_of cg.2)))
             (groupby P.chapter (rows peris)).
Proof.
  unfold detect_overlaps.
  rewrite <- (app_nil_l (flat_map _ _)). generalize (@nil (Z * overlap_msg)).
  induction (groupby P.chapter (rows peris)) as [|cg l IH]; intros ws;
    cbn [fold_left flat_map].
  - by rewrite app_nil_r.
  - rewrite IH. rewrite fold_overlap_step. cbn [fst]. by rewrite app_assoc.
Qed.

Lemma scan_overlaps_cons chap c se ivs :
  scan_overlaps chap c (se :: ivs)
  = (if se.1 <=? c then [(chap, mk_overlap chap se.1 c)] else [])
    ++ scan_overlaps chap (Z.max c se.2) ivs.
Proof. simpl. by destruct (se.1 <=? c). Qed.

Lemma FOP_cons_iff {A} (R : A -> A -> Prop) x l :
  ForallOrdPairs R (x :: l) <-> Forall (R x) l /\ ForallOrdPairs R l.
Proof.
  split.
  - inversion 1; subst. by split.
  - intros [? ?]. by constructor.
Qed.

Lemma FOP_perm {A} (R : A -> A -> Prop) l1 l2 :
  (forall x y, R x y -> R y x) ->
  l1 ≡ₚ l2 -> ForallOrdPairs R l1 -> ForallOrdPairs R l2.
Proof.
  intros Hsym. induction 1 as [|x l1 l2 Hp IH|x y l|l1 l2 l3 _ IH1 _ IH2].
  - done.
  - rewrite !FOP_cons_iff. intros [Hx Hl]. split; [by rewrite <- Hp|by apply IH].
  - rewrite !FOP_cons_iff, !Forall_cons.
    intros ((Hyx & Hy) & Hx & Hl). repeat split; try done. by apply Hsym.
  - intros H. by apply IH2, IH1.
Qed.

Lemma FOP_map {A B} (R : B -> B -> Prop) (f : A -> B) l :
  ForallOrdPairs R (map f l) <-> ForallOrdPairs (fun a b => R (f a) (f b)) l.
Proof.
  induction l as [|x l IH]; simpl.
  - split; constructor.
  - rewrite !FOP_cons_iff, IH, Forall_map. done.
Qed.

Lemma FOP_by_key {A} (key : A -> Z) (R : A -> A -> Prop) l :
  ForallOrdPairs (fun a b => key a = key b -> R a b) l
  <-> forall k, ForallOrdPairs R (filter (fun a => key a = k) l).
Proof.
  induction l as [|x l IH].
  - split; [intros _ k; constructor|intros _; constructor].
  - rewrite FOP_cons_iff, IH. split.
    + intros [Hx Hl] k. rewrite filter_cons.
      destruct (decide (key x = k)) as [<-|Hne]; [|done].
      rewrite FOP_cons_iff. split; [|done].
      apply Forall_forall. intros y [Hk Hy]%list_elem_of_filter.
      rewrite Forall_forall in Hx. by apply Hx.
    + intros Hall. split.
      * apply Forall_forall. intros y Hy Hk. specialize (Hall (key x)).
        rewrite filter_cons, decide_True in Hall by done.
        apply FOP_cons_iff in Hall as [Hall _].
        rewrite Forall_forall in Hall. apply Hall.
        by apply list_elem_of_filter.
      * intros k. specialize (Hall k). rewrite filter_cons in Hall.
        destruct (decide (key x = k)); [|done].
        by apply FOP_cons_iff in Hall as [_ ?].
Qed.

(** On intervals in ascending order of their starts, none inverted, the
    loop has nothing to report exactly when every interval starts after
    the cursor and no two intervals meet. *)
Lemma scan_overlaps_nil_iff chap ivs : forall c,
  StronglySorted (fun a b : Z * Z => a.1 <= b.1) ivs ->
  Forall (fun a : Z * Z => a.1 <= a.2) ivs ->
  scan_overlaps chap c ivs = []
  <-> Forall (fun a => c < a.1) ivs
      /\ ForallOrdPairs (fun a b => ~ meets a b) ivs.
Proof.
  induction ivs as [|a ivs IH]; intros c Hsorted Hvalid.
  - split; [intros _; split; constructor|done].
  - apply StronglySorted_inv in Hsorted as [Hsorted Ha].
    apply Forall_cons in Hvalid as [Hva Hvalid].
    rewrite scan_overlaps_cons, app_nil, (IH _ Hsorted Hvalid).
    rewrite Forall_cons, FOP_cons_iff.
    assert ((if a.1 <=? c then [(chap, mk_overlap chap a.1 c)] else []) = []
            <-> c < a.1) as ->.
    { destruct (Z.leb_spec a.1 c); split; (done || lia). }
    rewrite !Forall_forall in *. unfold meets. split.
    + intros (Hc & Hmax & Hfop). repeat split; try done.
      * intros b Hb. specialize (Hmax b Hb). lia.
      * intros b Hb. specialize (Hmax b Hb). lia.
    + intros ((Hc & Hall) & Hapart & Hfop). repeat split; try done.
      intros b Hb. specialize (Hall b Hb). specialize (Hapart b Hb).
      specialize (Ha b Hb). specialize (Hvalid b Hb). lia.
Qed.

Lemma insert_row_fmap {A B} (lebA : A -> A -> bool) (lebB : B -> B -> bool)
    (g : A -> B) x l :
  (forall a b, lebB (g a) (g b) = lebA a b) ->
  insert_row lebB (g x) (map g l) = map g (insert_row lebA x l).
Proof.
  intros Hg. induction l as [|y l IH]; simpl; [done|].
  rewrite Hg. destruct (lebA x y); simpl; [done|]. by rewrite IH.
Qed.

Lemma sort_values_fmap {A B} (colsA : list (A -> Z)) (colsB : list (B -> Z))
    (g : A -> B) l :
  (forall a b, lex_leb colsB (g a) (g b) = lex_leb colsA a b) ->
  sort_values colsB (map g l) = map g (sort_values colsA l).
Proof.
  intros Hg. unfold sort_values.
  induction l as [|x l IH]; simpl; [done|].
  rewrite IH. by apply insert_row_fmap.
Qed.

(** The detector sorts the intervals as the validator sorts the rows. *)
Lemma sorted_intervals_walk_order grp :
  sort_values [fst; snd] (map interval_of grp) = map interval_of (walk_order grp).
Proof. by apply sort_values_fmap. Qed.

Lemma walk_order_starts_sorted grp :
  StronglySorted (fun a b : Z * Z => a.1 <= b.1) (map interval_of (walk_order grp)).
Proof.
  rewrite <- sorted_intervals_walk_order.
  eapply StronglySorted_weaken; [|apply sort_values_sorted].
  intros a b. cbn [lex_leb].
  repeat (rewrite ?orb_true_iff, ?andb_true_iff).
  rewrite !Z.ltb_lt, !Z.eqb_eq. lia.
Qed.

Lemma apart_sym r1 r2 :
  ~ meets (interval_of r1) (interval_of r2) ->
  ~ meets (interval_of r2) (interval_of r1).
Proof. unfold meets. tauto. Qed.

(** X6.  When every pericope has [-10^9 < start_verse <= end_verse], the
    detector returns no warning exactly when no two pericopes of the same
    chapter (two rows of the table) share a verse number. *)
Theorem detect_overlaps_nil_iff peris :
  (forall r, r ∈ rows peris ->
     - 10 ^ 9 < P.start_verse r /\ P.start_verse r <= P.end_verse r) ->
  detect_overlaps peris = [] <-> ForallOrdPairs apart (rows peris).
Proof.
  intros Hrows. rewrite detect_overlaps_spec, flat_map_nil_iff.
  unfold apart. rewrite (FOP_by_key P.chapter
    (fun r1 r2 => ~ meets (interval_of r1) (interval_of r2))).
  assert (forall chap,
    scan_overlaps chap (- 10 ^ 9)
      (sort_values [fst; snd] (map interval_of (chapter_rows peris chap))) = []
    <-> ForallOrdPairs (fun r1 r2 => ~ meets (interval_of r1) (interval_of r2))
          (chapter_rows peris chap)) as Hchap.
  { intros chap. rewrite sorted_intervals_walk_order.
    assert (forall r, r ∈ walk_order (chapter_rows peris chap) ->
              - 10 ^ 9 < P.start_verse r /\ P.start_verse r <= P.end_verse r)
      as Hgrp.
    { intros r Hr. unfold walk_order in Hr. rewrite sort_values_perm in Hr.
      apply list_elem_of_filter in Hr as [_ Hr]. by apply Hrows. }
    rewrite scan_overlaps_nil_iff.
    - rewrite FOP_map. split.
      + intros [_ Hfop]. eapply FOP_perm; [|apply sort_values_perm|exact Hfop].
        intros x y. apply apart_sym.
      + intros Hfop. split.
        * apply Forall_map, Forall_forall. intros r Hr. by apply Hgrp.
        * eapply FOP_perm; [|symmetry; apply sort_values_perm|exact Hfop].
          intros x y. apply apart_sym.
    - apply walk_order_starts_sorted.
    - apply Forall_map, Forall_forall. intros r Hr. by apply Hgrp. }
  split.
  - intros Hall k. apply Hchap.
    destruct (decide (k ∈ map P.chapter (rows peris))) as [Hk|Hk].
    + apply (Hall (k, chapter_rows peris k)). by apply elem_of_groupby.
    + assert (chapter_rows peris k = []) as ->; [|done].
      apply filter_nil_iff. intros r Hr Hc. apply Hk.
      apply elem_of_map. by exists r.
  - intros Hall [chap grp] [_ ->]%elem_of_groupby. cbn [fst snd].
    apply Hchap, Hall.
Qed.

(** [detect_overlaps_nil_iff] on the clean table. *)
Lemma detect_overlaps_nil_iff_witness : ForallOrdPairs apart (rows clean_table).
Proof.
  apply (detect_overlaps_nil_iff clean_table).
  - intros r Hr. apply list_elem_of_In in Hr. simpl in Hr.
    intuition (subst; simpl; lia).
  - vm_compute. reflexivity.
Defined.

Lemma elem_of_scan_overlaps_visit chap r c grp : forall cv cd,
  cv = 0 \/ cv <= cd ->
  (r, c) ∈ visits cv grp -> P.start_verse r <= c -> c <> 0 ->
  exists c', c <= c'
    /\ (chap, mk_overlap chap (P.start_verse r) c')
       ∈ scan_overlaps chap cd (map interval_of grp).
Proof.
  induction grp as [|r0 grp IH]; intros cv cd Hinv Hin Hle Hne.
  - by apply elem_of_nil in Hin.
  - cbn [visits map] in *. rewrite scan_overlaps_cons.
    apply elem_of_cons in Hin as [[= -> ->]|Hin].
    + exists cd. destruct Hinv as [->|Hinv]; [done|]. split; [done|].
      apply elem_of_app. left. cbn [interval_of fst].
      rewrite (proj2 (Z.leb_le _ _)) by lia. left.
    + rewrite step_cursor_end in Hin.
      destruct (IH (P.end_verse r0) (Z.max cd (interval_of r0).2))
        as (c' & Hc' & Hin'); try done.
      { right. cbn [interval_of snd]. lia. }
      exists c'. split; [done|]. apply elem_of_app. by right.
Qed.

(** X7.  Every overlap the validator reports, the detector reports too:
    for the same chapter and start, against a cursor that is at least the
    validator's (the detector keeps the largest end seen). *)
Theorem validator_overlap_is_detected verses_df peris rfc chap s c :
  W_overlap chap s c ∈ (validate_pericopes verses_df peris rfc).2 ->
  exists c', c <= c' /\ (chap, mk_overlap chap s c') ∈ detect_overlaps peris.
Proof.
  rewrite validate_warnings.
  intros (r & Hv & <- & Hle & Hne)%overlap_in_all_warnings.
  destruct (elem_of_scan_overlaps_visit chap r c _ 0 (- 10 ^ 9) (or_introl eq_refl)
              Hv Hle Hne) as (c' & Hc' & Hin).
  exists c'. split; [done|].
  rewrite detect_overlaps_spec, elem_of_flat_map.
  exists (chap, chapter_rows peris chap). split.
  - apply elem_of_groupby. split; [|done].
    destruct (chapter_visits_chapter _ _ _ _ Hv) as [Hr <-].
    apply elem_of_map. by exists r.
  - cbn [fst snd]. by rewrite sorted_intervals_walk_order.
Qed.

(** [validator_overlap_is_detected] on pericopes 1-10 and 2-3. *)
Lemma validator_overlap_is_detected_witness :
  exists c', 10 <= c' /\ (1, mk_overlap 1 2 c') ∈ detect_overlaps nested_table.
Proof.
  apply (validator_overlap_is_detected (verses_1_to 10 1) nested_table false).
  apply list_elem_of_In. vm_compute. tauto.
Defined.

(** ** The loaders *)

Lemma foldr_insert_sorted_id {A} (leb : A -> A -> bool) l :
  StronglySorted (fun a b => leb a b = true) l ->
  foldr (insert_row leb) [] l = l.
Proof.
  induction 1 as [|x l Hs IH Hx]; simpl; [done|].
  rewrite IH. destruct l as [|y l]; [done|]. simpl.
  apply Forall_cons in Hx as [Hxy _]. by rewrite Hxy.
Qed.

(** Sorting a sorted frame leaves it as it is. *)
Lemma sort_values_sorted_id {A} (cols : list (A -> Z)) df :
  StronglySorted (fun a b => lex_leb cols a b = true) df ->
  sort_values cols df = df.
Proof. apply foldr_insert_sorted_id. Qed.

Lemma sort_values_idem {A} (cols : list (A -> Z)) df :
  sort_values cols (sort_values cols df) = sort_values cols df.
Proof. apply sort_values_sorted_id, sort_values_sorted. Qed.

Lemma load_pericopes_sorted_rows df :
  (if has_order df
   then sort_values [P.chapter; P.order; P.start_verse; P.end_verse] (rows df)
   else sort_values [P.chapter; P.start_verse; P.end_verse] (rows df))
  = sort_values (pericope_sort_cols (has_order df)) (rows df).
Proof. by destruct (has_order df). Qed.

Lemma load_pericopes_cases df :
  load_pericopes df
  = if decide (Forall (fun r => P.start_verse r <= P.end_verse r) (rows df))
    then Some (mk_df (has_order df)
                 (sort_values (pericope_sort_cols (has_order df)) (rows df)))
    else None.
Proof.
  unfold load_pericopes. rewrite load_pericopes_sorted_rows.
  set (l := sort_values _ _).
  destruct (filter _ l) as [|r bad] eqn:Hbad.
  - rewrite decide_True; [done|].
    apply Forall_forall. intros r Hr.
    pose proof (proj1 (filter_nil_iff _ _) Hbad r) as Hno.
    unfold l in Hno. rewrite sort_values_perm in Hno.
    specialize (Hno Hr). lia.
  - rewrite decide_False; [done|]. intros Hall.
    assert (r ∈ filter (fun r => P.end_verse r < P.start_verse r) l) as Hr.
    { rewrite Hbad. left. }
    apply list_elem_of_filter in Hr as [Hlt Hr].
    unfold l in Hr. rewrite sort_values_perm in Hr.
    rewrite Forall_forall in Hall. specialize (Hall r Hr). lia.
Qed.

(** X8.  [load_pericopes] stops exactly when some pericope has
    [start_verse > end_verse].  Otherwise it keeps the [order] column as it
    found it and returns the same rows, none dropped or repeated, none
    inverted, sorted by chapter, then [order] when the column is there,
    then interval. *)
Theorem load_pericopes_result df :
  (load_pericopes df = None
   <-> exists r, r ∈ rows df /\ P.end_verse r < P.start_verse r)
  /\ forall df',
       load_pericopes df = Some df' ->
       has_order df' = has_order df
       /\ rows df' ≡ₚ rows df
       /\ Forall (fun r => P.start_verse r <= P.end_verse r) (rows df')
       /\ StronglySorted
            (fun a b => lex_leb (pericope_sort_cols (has_order df)) a b = true)
            (rows df').
Proof.
  rewrite load_pericopes_cases.
  destruct (decide _) as [Hall|Hnall]; split.
  - split; [done|]. intros (r & Hr & Hlt).
    rewrite Forall_forall in Hall. specialize (Hall r Hr). lia.
  - intros df' [= <-]. cbn [has_order rows].
    split; [done|]. split; [apply sort_values_perm|].
    split; [by rewrite sort_values_perm|apply sort_values_sorted].
  - split; [|done]. intros _.
    apply not_Forall_Exists in Hnall; [|apply _].
    apply Exists_exists in Hnall as (r & Hr & Hlt). exists r.
    unfold compose in Hlt. split; [done|lia].
  - done.
Qed.

(** [load_pericopes_result] on a table with an inverted pericope and on a
    table out of order. *)
Lemma load_pericopes_result_witness :
  load_pericopes inverted_table = None
  /\ rows (mk_df true [P.mk "A" "t" 1 1 3 1; P.mk "B" "t" 1 4 6 2;
                       P.mk "C" "t" 2 1 4 1])
     ≡ₚ rows shuffled_table.
Proof.
  split.
  - apply (load_pericopes_result inverted_table).
    exists (peri "P2" 1 6 4). split; [|simpl; lia].
    apply list_elem_of_In. simpl. tauto.
  - apply (load_pericopes_result shuffled_table). reflexivity.
Defined.

Lemma load_pericopes_cases_None df :
  load_pericopes df = None
  <-> exists r, r ∈ rows df /\ P.end_verse r < P.start_verse r.
Proof.
  rewrite load_pericopes_cases. destruct (decide _) as [Hall|Hnall].
  - split; [done|]. intros (r & Hr & Hlt).
    rewrite Forall_forall in Hall. specialize (Hall r Hr). lia.
  - split; [|done]. intros _.
    apply not_Forall_Exists in Hnall; [|apply _].
    apply Exists_exists in Hnall as (r & Hr & Hlt). exists r.
    unfold compose in Hlt. split; [done|lia].
Qed.

(** X9.  Loading is idempotent: a verses frame that [load_verses] has
    sorted, and a pericopes frame that [load_pericopes] has let through,
    come back unchanged from a second pass. *)
Theorem loaders_idempotent :
  (forall df, load_verses (load_verses df) = load_verses df)
  /\ (forall df df', load_pericopes df = Some df' -> load_pericopes df' = Some df').
Proof.
  split.
  - intros df. apply sort_values_idem.
  - intros df df'. rewrite !load_pericopes_cases.
    destruct (decide _) as [Hall|]; [|done]. intros [= <-].
    cbn [has_order rows]. rewrite decide_True.
    + by rewrite sort_values_idem.
    + by rewrite sort_values_perm.
Qed.

(** [loaders_idempotent] on a table out of order. *)
Lemma loaders_idempotent_witness :
  load_pericopes
    (mk_df true [P.mk "A" "t" 1 1 3 1; P.mk "B" "t" 1 4 6 2;
                 P.mk "C" "t" 2 1 4 1])
  = Some (mk_df true [P.mk "A" "t" 1 1 3 1; P.mk "B" "t" 1 4 6 2;
                      P.mk "C" "t" 2 1 4 1]).
Proof.
  apply (proj2 loaders_idempotent shuffled_table). reflexivity.
Defined.

(** X10.  On a frame whose [chapter] and [verse] columns hold integers
    (the frame after [astype(int)], lines 47-48), the sort of
    [load_verses] (line 49) returns the same rows, none dropped or
    repeated, in ascending [(chapter, verse)]; rows with the same chapter
    and verse number are all kept, in the order the frame has them. *)
Theorem load_verses_result (df : list V.row) :
  load_verses df ≡ₚ df
  /\ StronglySorted
       (fun a b => V.chapter a < V.chapter b
                   \/ (V.chapter a = V.chapter b /\ V.verse a <= V.verse b))
       (load_verses df)
  /\ forall chap n,
       filter (fun v => V.chapter v = chap /\ V.verse v = n) (load_verses df)
       = filter (fun v => V.chapter v = chap /\ V.verse v = n) df.
Proof.
  unfold load_verses. split; [apply sort_values_perm|]. split.
  - eapply StronglySorted_weaken; [|apply sort_values_sorted].
    intros a b. cbn [lex_leb].
    repeat (rewrite ?orb_true_iff, ?andb_true_iff).
    rewrite !Z.ltb_lt, !Z.eqb_eq. lia.
  - intros chap n. apply sort_values_stable.
    intros x y [Hx1 Hx2] [Hy1 Hy2]. cbn [lex_leb].
    rewrite Hx1, Hx2, Hy1, Hy2, !Z.eqb_refl, !Z.ltb_irrefl. reflexivity.
Qed.

(** ** Assembling loaded tables *)

Lemma StronglySorted_filter {A} (R : A -> A -> Prop) (Q : A -> Prop)
    `{!forall x, Decision (Q x)} l :
  StronglySorted R l -> StronglySorted R (filter Q l).
Proof.
  induction 1 as [|x l Hs IH Hx]; [constructor|].
  rewrite filter_cons. destruct (decide (Q x)); [|done].
  constructor; [done|]. apply Forall_forall.
  intros y [_ Hy]%list_elem_of_filter. rewrite Forall_forall in Hx. by apply Hx.
Qed.

Lemma StronglySorted_weaken_in {A} (R1 R2 : A -> A -> Prop) l :
  (forall x y, x ∈ l -> y ∈ l -> R1 x y -> R2 x y) ->
  StronglySorted R1 l -> StronglySorted R2 l.
Proof.
  intros HR Hs. induction Hs as [|x l Hs IH Hx].
  - constructor.
  - constructor.
    + apply IH. intros a b Ha Hb. apply HR; by right.
    + apply Forall_forall. intros y Hy. rewrite Forall_forall in Hx.
      apply HR; [left|by right|by apply Hx].
Qed.

Lemma lex_leb_cons_eq {A} (c : A -> Z) cs a b :
  c a = c b -> lex_leb (c :: cs) a b = lex_leb cs a b.
Proof. intros Hc. cbn [lex_leb]. by rewrite Hc, Z.ltb_irrefl, Z.eqb_refl. Qed.

(** The rows of one key value of a frame sorted on that key first are
    sorted on the other columns. *)
Lemma group_of_sorted {A} (key : A -> Z) cols k l :
  StronglySorted (fun a b => lex_leb (key :: cols) a b = true) l ->
  StronglySorted (fun a b => lex_leb cols a b = true)
                 (filter (fun r => key r = k) l).
Proof.
  intros Hs. eapply StronglySorted_weaken_in;
    [|apply (StronglySorted_filter _ (fun r => key r = k)), Hs].
  intros a b [Ha _]%list_elem_of_filter [Hb _]%list_elem_of_filter.
  rewrite lex_leb_cons_eq by congruence. done.
Qed.

Lemma select_verses_loaded df chap row :
  select_verses (filter (fun v => V.chapter v = chap) (load_verses df)) row
  = filter (fun v => P.start_verse row <= V.verse v
                     /\ V.verse v <= P.end_verse row)
           (filter (fun v => V.chapter v = chap) (load_verses df)).
Proof.
  unfold select_verses. apply sort_values_sorted_id.
  apply StronglySorted_filter, (group_of_sorted V.chapter).
  apply sort_values_sorted.
Qed.

Lemma canonical_order_loaded peris peris' chap :
  load_pericopes peris = Some peris' ->
  canonical_order peris' (chapter_rows peris' chap) = chapter_rows peris' chap.
Proof.
  rewrite load_pericopes_cases. destruct (decide _); [|done].
  intros [= <-]. unfold canonical_order, chapter_rows. cbn [has_order rows].
  destruct (has_order peris); apply sort_values_sorted_id;
    apply (group_of_sorted P.chapter), sort_values_sorted.
Qed.

Lemma walk_order_loaded peris peris' chap :
  load_pericopes peris = Some peris' -> has_order peris' = false ->
  walk_order (chapter_rows peris' chap) = chapter_rows peris' chap.
Proof.
  intros Hload Hno. rewrite <- (canonical_order_loaded _ _ chap Hload) at 2.
  unfold canonical_order. by rewrite Hno.
Qed.

(** X11.  On a verses frame from [load_verses] and a pericopes frame from
    [load_pericopes] the assembler's sorts change nothing: each chapter
    block lists the chapter's pericopes in table order, and each pericope
    block the chapter's verse rows of its interval in table order.  When
    the pericopes frame has no [order] column the validator, too, walks
    each chapter in table order. *)
Theorem assembled_from_loaded {T} (tokenize : option pystr -> list T)
    df peris peris' :
  load_pericopes peris = Some peris' ->
  build_chapters tokenize (load_verses df) peris'
  = map (fun chap =>
           J.mk_chapter chap
             (map (fun r =>
                     J.mk_pericope (P.pericope_id r) (P.title r)
                       (P.start_verse r) (P.end_verse r)
                       (map (verse_payload tokenize)
                          (filter (fun v => V.chapter v = chap
                                            /\ P.start_verse r <= V.verse v
                                            /\ V.verse v <= P.end_verse r)
                                  (load_verses df))))
                  (chapter_rows peris' chap)))
        (chapter_keys (load_verses df) peris')
  /\ (has_order peris' = false ->
      forall chap, (chapter_visits peris' chap).*1 = chapter_rows peris' chap).
Proof.
  intros Hload. split.
  - rewrite build_chapters_spec. apply map_ext. intros chap. f_equal.
    rewrite (canonical_order_loaded _ _ chap Hload).
    apply map_ext. intros r. unfold pericope_payload. f_equal.
    by rewrite select_verses_loaded, filter_chapter_interval.
  - intros Hno chap. unfold chapter_visits. rewrite visits_rows.
    by apply (walk_order_loaded peris).
Qed.

(** [assembled_from_loaded] on a table out of order. *)
Lemma assembled_from_loaded_witness :
  map J.id
    (concat (map J.pericopes
       (build_chapter_structure
          (load_verses (logos_verses 2 2 ++ logos_verses 6 1)) loaded_table)))
  = ["A"; "B"; "C"].
Proof.
  unfold build_chapter_structure.
  rewrite (proj1 (assembled_from_loaded parse_tokens
                    (logos_verses 2 2 ++ logos_verses 6 1) shuffled_table
                    loaded_table eq_refl)).
  vm_compute. reflexivity.
Defined.

(** ** Nothing lost in assembly *)

Lemma filter_all {A} (Q : A -> Prop) `{!forall x, Decision (Q x)} (l : list A) :
  (forall x, x ∈ l -> Q x) -> filter Q l = l.
Proof.
  induction l as [|x l IH]; intros Hall; [done|].
  rewrite filter_cons, decide_True by (apply Hall; left).
  f_equal. apply IH. intros y Hy. apply Hall. by right.
Qed.

Lemma filter_key_split {A} (key : A -> Z) k ks (l : list A) :
  k ∉ ks ->
  filter (fun x => key x = k) l ++ filter (fun x => key x ∈ ks) l
  ≡ₚ filter (fun x => key x ∈ k :: ks) l.
Proof.
  intros Hk. induction l as [|x l IH]; [done|].
  rewrite !filter_cons.
  destruct (decide (key x = k)) as [Hx|Hx].
  - rewrite decide_False by (by rewrite Hx).
    rewrite decide_True by (rewrite Hx; left). simpl. by rewrite IH.
  - destruct (decide (key x ∈ ks)) as [Hin|Hin].
    + rewrite decide_True by (by right).
      rewrite <- Permutation_middle. by rewrite IH.
    + rewrite decide_False; [done|].
      by intros [?|?]%elem_of_cons.
Qed.

(** Grouping by the values of a key splits a frame. *)
Lemma groups_perm {A} (key : A -> Z) ks (l : list A) :
  NoDup ks ->
  concat (map (fun k => filter (fun x => key x = k) l) ks)
  ≡ₚ filter (fun x => key x ∈ ks) l.
Proof.
  induction 1 as [|k ks Hk Hnd IH]; simpl.
  - assert (filter (fun x => key x ∈ @nil Z) l = []) as ->; [|done].
    apply filter_nil_iff. intros x _. apply not_elem_of_nil.
  - rewrite IH. by apply filter_key_split.
Qed.

Lemma concat_map_perm {A B} (f g : A -> list B) (l : list A) :
  (forall x, x ∈ l -> f x ≡ₚ g x) ->
  concat (map f l) ≡ₚ concat (map g l).
Proof.
  induction l as [|x l IH]; intros Hfg; simpl; [done|].
  rewrite (Hfg x) by left. rewrite IH; [done|].
  intros y Hy. apply Hfg. by right.
Qed.

Lemma concat_map_map {A B C} (f : A -> list B) (g : B -> C) (l : list A) :
  concat (map (fun x => map g (f x)) l) = map g (concat (map f l)).
Proof.
  induction l as [|x l IH]; simpl; [done|]. by rewrite IH, map_app.
Qed.

(** X12.  Assembly neither drops nor repeats a pericope: the pericope
    blocks of the output, each taken with the chapter of its chapter
    block, are the rows of the pericopes table, each once. *)
Theorem every_pericope_once {T} (tokenize : option pystr -> list T)
    verses_df peris :
  concat (map (fun cb => map (block_key cb) (J.pericopes cb))
              (build_chapters tokenize verses_df peris))
  ≡ₚ map row_key (rows peris).
Proof.
  rewrite build_chapters_spec, map_map. cbn [J.pericopes].
  transitivity
    (concat (map (fun chap => map row_key (chapter_rows peris chap))
                 (chapter_keys verses_df peris))).
  - apply concat_map_perm. intros chap _. rewrite map_map.
    rewrite canonical_order_perm. unfold chapter_rows.
    apply Permutation_refl', map_ext_in.
    intros r Hr%list_elem_of_In. apply list_elem_of_filter in Hr as [<- _].
    reflexivity.
  - rewrite (concat_map_map (chapter_rows peris) row_key).
    unfold chapter_rows.
    rewrite (groups_perm P.chapter) by apply chapter_keys_NoDup.
    rewrite filter_all; [done|].
    intros r Hr. apply elem_of_chapter_keys. right.
    apply elem_of_map. by exists r.
Qed.

(** ** The run *)

Lemma main_cases args verses peris :
  main args verses peris
  = match load_pericopes peris with
    | None => Exit 1
    | Some pericopes_df =>
        match arg_strict args, all_warnings (load_verses verses) pericopes_df with
        | true, _ :: _ => Exit 2
        | _, _ => Saved (build_json (load_verses verses) pericopes_df
                           (arg_fallback_whitespace args))
        end
    end.
Proof.
  unfold main. destruct (load_pericopes peris) as [pdf|]; [|done].
  by rewrite validate_pericopes_spec.
Qed.

(** X13.  The run never looks at the validator's verdict:
    [--require-full-coverage] changes neither the exit status nor the
    output.  The run exits with status 1 exactly when a pericope has
    [start_verse > end_verse]; it exits with status 2 exactly when
    [--strict] is given, the table loads and the validator returns a
    warning; in every other case it writes the tree assembled from the
    loaded frames. *)
Theorem main_outcomes rfc strict fb verses peris :
  (forall rfc',
      main (mk_args rfc strict fb) verses peris
      = main (mk_args rfc' strict fb) verses peris)
  /\ (main (mk_args rfc strict fb) verses peris = Exit 1
      <-> exists r, r ∈ rows peris /\ P.end_verse r < P.start_verse r)
  /\ (main (mk_args rfc strict fb) verses peris = Exit 2
      <-> strict = true
          /\ exists peris',
               load_pericopes peris = Some peris'
               /\ (validate_pericopes (load_verses verses) peris' rfc).2 <> [])
  /\ (forall data,
        main (mk_args rfc strict fb) verses peris = Saved data ->
        exists peris',
          load_pericopes peris = Some peris'
          /\ data = build_json (load_verses verses) peris' fb
          /\ (strict = true ->
              (validate_pericopes (load_verses verses) peris' rfc).2 = [])).
Proof.
  split; [|split; [|split]].
  - intros rfc'. by rewrite !main_cases.
  - rewrite main_cases, <- load_pericopes_cases_None.
    destruct (load_pericopes peris) as [pdf|]; [|done].
    cbn [arg_strict arg_fallback_whitespace].
    destruct strict, (all_warnings (load_verses verses) pdf); done.
  - rewrite main_cases. cbn [arg_strict arg_fallback_whitespace].
    destruct (load_pericopes peris) as [pdf|].
    + setoid_rewrite validate_warnings.
      destruct strict, (all_warnings (load_verses verses) pdf) eqn:Hw; split; try done.
      * intros [_ (pdf' & [= <-] & Hne)]. by rewrite Hw in Hne.
      * intros _. split; [done|]. exists pdf. split; [done|].
        by rewrite Hw.
      * by intros [? _].
      * by intros [? _].
    + split; [done|]. by intros [_ (pdf' & ? & _)].
  - intros data. rewrite main_cases. cbn [arg_strict arg_fallback_whitespace].
    destruct (load_pericopes peris) as [pdf|]; [|done].
    setoid_rewrite validate_warnings.
    destruct strict, (all_warnings (load_verses verses) pdf) eqn:Hw; try done;
      intros [= <-]; exists pdf; repeat split; try done.
    all: by rewrite Hw.
Qed.

(** [main_outcomes] on a table with an inverted pericope, and on the
    overlap table under [--strict]. *)
Lemma main_outcomes_witness :
  main (mk_args false false false) (verses_1_to 6 1) inverted_table = Exit 1
  /\ main (mk_args false true false) (verses_1_to 5 1) overlap_table = Exit 2.
Proof.
  split.
  - apply (main_outcomes false false false (verses_1_to 6 1) inverted_table).
    exists (peri "P2" 1 6 4). split; [|simpl; lia].
    apply list_elem_of_In. simpl. tauto.
  - apply (main_outcomes false true false (verses_1_to 5 1) overlap_table).
    split; [done|]. exists overlap_table. split; [reflexivity|].
    vm_compute. discriminate.
Defined.

(** ** Words: [GREEK_WORD_RE.findall] and [str.split] *)

Lemma run_length_stops cls s : stops cls (drop (run_length cls s) s).
Proof.
  induction s as [|c s IH]; simpl; [done|].
  destruct (cls c) eqn:Hc; simpl; [done|done].
Qed.

Lemma run_length_zero cls c s : cls c = false -> run_length cls (c :: s) = O.
Proof. intros Hc. simpl. by rewrite Hc. Qed.

Lemma match_here_plus_none cls c s :
  cls c = false -> match_here [Plus true cls] (c :: s) = None.
Proof. intros Hc. cbn [match_here]. by rewrite run_length_zero. Qed.

Lemma match_here_plus_run cls w s :
  w <> [] -> Forall (fun c => cls c = true) w -> stops cls s ->
  match_here [Plus true cls] (w ++ s) = Some ([w], s).
Proof. intros. by apply (match_here_plus_greedy true cls [] w s [] s). Qed.

(** [findall] of a one-class pattern gives the words of the class. *)
Lemma findall_Words cls s ws :
  Words cls s ws -> findall [Plus true cls] s = map (fun w => [w]) ws.
Proof.
  induction 1 as [|c s ws Hc _ IH|w s ws Hne Hw Hstop _ IH].
  - done.
  - by rewrite findall_skip by by apply match_here_plus_none.
  - pose proof (match_here_plus_run cls w s Hne Hw Hstop) as Hm.
    destruct (w ++ s) as [|c s'] eqn:Hs; [by destruct w|].
    rewrite (findall_match _ _ _ _ w s Hm (eq_sym Hs) Hne). simpl.
    by rewrite IH.
Qed.

(** Every text has its words. *)
Lemma Words_total cls s : exists ws, Words cls s ws.
Proof.
  remember (length s) as n eqn:Hn. revert s Hn.
  induction n as [n IH] using lt_wf_ind. intros s ->.
  destruct s as [|c s]; [exists []; constructor|].
  destruct (cls c) eqn:Hc.
  - set (k := run_length cls (c :: s)).
    assert (k <> O) as Hk by (unfold k; simpl; by rewrite Hc).
    destruct (IH (length (drop k (c :: s)))) with (s := drop k (c :: s))
      as [ws Hws]; [|done|].
    { rewrite length_drop. simpl. lia. }
    exists (take k (c :: s) :: ws).
    rewrite <- (take_drop k (c :: s)) at 1. constructor; [| | |done].
    + destruct k; [done|]. done.
    + by apply take_run_Forall.
    + apply run_length_stops.
  - destruct (IH (length s)) with (s := s) as [ws Hws]; [simpl; lia|done|].
    exists ws. by constructor.
Qed.

Lemma Words_wf cls s ws :
  Words cls s ws ->
  Forall (fun w => w <> [] /\ Forall (fun c => cls c = true) w) ws.
Proof. induction 1; [constructor|done|by constructor]. Qed.

(** The words hold the characters of the class, in order, and no other. *)
Lemma Words_concat cls s ws :
  Words cls s ws -> concat ws = filter (fun c => cls c = true) s.
Proof.
  induction 1 as [|c s ws Hc _ IH|w s ws Hne Hw Hstop _ IH]; simpl.
  - done.
  - rewrite filter_cons, decide_False; [done|]. by rewrite Hc.
  - rewrite filter_app, IH. f_equal. symmetry. apply filter_all.
    by apply Forall_forall.
Qed.

Lemma Words_nil_iff cls s ws :
  Words cls s ws -> ws = [] <-> Forall (fun c => cls c = false) s.
Proof.
  induction 1 as [|c s ws Hc _ IH|w s ws Hne Hw Hstop _ IH].
  - split; [constructor|done].
  - rewrite Forall_cons, IH. tauto.
  - split; [done|]. intros Hall. destruct w as [|c w]; [done|].
    apply Forall_cons in Hw as [Hc _]. simpl in Hall.
    apply Forall_cons in Hall as [Hc' _]. congruence.
Qed.

Lemma split_from_run w : forall cur s,
  Forall (fun c => notspace c = true) w ->
  split_from cur (w ++ s) = split_from (rev w ++ cur) s.
Proof.
  induction w as [|c w IH]; intros cur s Hw; [done|].
  apply Forall_cons in Hw as [Hc Hw]. simpl.
  unfold notspace in Hc. apply negb_true_iff in Hc. rewrite Hc.
  rewrite IH by done. by rewrite <- app_assoc.
Qed.

(** [str.split()] gives the words of the characters that are not
    whitespace. *)
Lemma split_Words s ws : Words notspace s ws -> split s = ws.
Proof.
  unfold split.
  induction 1 as [|c s ws Hc _ IH|w s ws Hne Hw Hstop _ IH].
  - done.
  - simpl. unfold notspace in Hc. apply negb_false_iff in Hc. by rewrite Hc.
  - rewrite split_from_run by done. rewrite app_nil_r.
    assert (rev w <> []) as Hrev.
    { intros Hr. apply Hne. by rewrite <- (rev_involutive w), Hr. }
    destruct s as [|c s]; simpl in *.
    + destruct (rev w) eqn:Hr; [done|]. rewrite <- Hr, rev_involutive.
      by rewrite <- IH.
    + unfold notspace in Hstop. apply negb_false_iff in Hstop.
      rewrite Hstop in *. destruct (rev w) eqn:Hr; [done|].
      rewrite <- Hr, rev_involutive. by rewrite IH.
Qed.

Lemma lstrip_word w :
  w <> [] -> Forall (fun c => notspace c = true) w -> lstrip w = w.
Proof.
  intros Hne Hw. unfold lstrip. destruct w as [|c w]; [done|].
  apply Forall_cons in Hw as [Hc _]. unfold notspace in Hc.
  apply negb_true_iff in Hc. simpl. by rewrite Hc.
Qed.

Lemma strip_word w :
  w <> [] -> Forall (fun c => notspace c = true) w -> strip w = w.
Proof.
  intros Hne Hw. unfold strip. rewrite (lstrip_word w) by done.
  rewrite lstrip_word; [apply rev_involutive| |].
  - intros Hr. apply Hne. by rewrite <- (rev_involutive w), Hr.
  - apply Forall_forall. intros c Hc%list_elem_of_In%in_rev%list_elem_of_In.
    rewrite Forall_forall in Hw. by apply Hw.
Qed.

(** The [if w.strip()] of the fallback drops nothing. *)
Lemma fallback_filter_id s :
  filter (fun w => strip w <> []) (split s) = split s.
Proof.
  destruct (Words_total notspace s) as [ws Hws].
  rewrite (split_Words _ _ Hws). apply filter_all.
  intros w Hw. pose proof (Words_wf _ _ _ Hws) as Hwf.
  rewrite Forall_forall in Hwf. destruct (Hwf w Hw) as [Hne Hall].
  by rewrite strip_word.
Qed.

Lemma parse_lemmas_text_only_cases fb t wg wp :
  Words greek_char t wg -> Words notspace t wp ->
  parse_lemmas_text_only fb (Some t)
  = map mk_lemma (match wg, fb with
                  | [], true => wp
                  | _, _ => wg
                  end).
Proof.
  intros Hg Hp. unfold parse_lemmas_text_only, GREEK_WORD_RE.
  rewrite (findall_Words _ _ _ Hg).
  assert (omap word_of_groups (map (fun w : pystr => [w]) wg) = wg) as ->.
  { clear. induction wg as [|w wg IH]; [done|]. simpl. f_equal. apply IH. }
  destruct wg, fb; try done.
  by rewrite fallback_filter_id, (split_Words _ _ Hp).
Qed.

Lemma map_lemma_mk ws : map lemma (map mk_lemma ws) = ws.
Proof. induction ws as [|w ws IH]; [done|]. simpl. by rewrite IH. Qed.

(** X14.  [parse_lemmas_text_only] on a string returns the Greek words of
    the text, its maximal runs of characters of the two Greek blocks, from
    left to right; when there is none and the fallback is on, it returns
    the maximal runs of characters that are not whitespace.  There is no
    Greek word exactly when the text has no character of the Greek
    blocks. *)
Theorem parse_lemmas_text_only_words fallback_ws text greek_words plain_words :
  Words greek_char text greek_words ->
  Words notspace text plain_words ->
  parse_lemmas_text_only fallback_ws (Some text)
  = map mk_lemma (match greek_words, fallback_ws with
                  | [], true => plain_words
                  | _, _ => greek_words
                  end)
  /\ (greek_words = [] <-> Forall (fun c => greek_char c = false) text).
Proof.
  intros Hg Hp. split; [by apply parse_lemmas_text_only_cases|].
  by apply Words_nil_iff.
Qed.

(** [parse_lemmas_text_only_words] on "ἐν ἀρχῇ". *)
Lemma parse_lemmas_text_only_words_witness :
  parse_lemmas_text_only true (Some en_arche)
  = map mk_lemma [[0x1f10; 0x3bd]; [0x1f00; 0x3c1; 0x3c7; 0x1fc7]].
Proof.
  apply (parse_lemmas_text_only_words true en_arche
           [[0x1f10; 0x3bd]; [0x1f00; 0x3c1; 0x3c7; 0x1fc7]]
           [[0x1f10; 0x3bd]; [0x1f00; 0x3c1; 0x3c7; 0x1fc7]]).
  - apply (words_run greek_char [0x1f10; 0x3bd]);
      [discriminate|repeat constructor|reflexivity|].
    apply words_skip; [reflexivity|].
    apply (words_run greek_char [0x1f00; 0x3c1; 0x3c7; 0x1fc7] []);
      [discriminate|repeat constructor|exact I|constructor].
  - apply (words_run notspace [0x1f10; 0x3bd]);
      [discriminate|repeat constructor|reflexivity|].
    apply words_skip; [reflexivity|].
    apply (words_run notspace [0x1f00; 0x3c1; 0x3c7; 0x1fc7] []);
      [discriminate|repeat constructor|exact I|constructor].
Defined.

(** X15.  What [parse_lemmas_text_only] keeps of a text.  Without the
    fallback the lemmas hold the characters of the Greek blocks, in order,
    and nothing else.  The fallback changes nothing for a text with a
    Greek character; for a text without one it gives the words of
    [str.split()] (its [if w.strip()] test drops none of them), which hold
    the characters that are not whitespace, where the plain mode gives
    nothing.  No lemma is ever empty, and a missing text gives none. *)
Theorem parse_lemmas_text_only_content :
  (forall fb, parse_lemmas_text_only fb None = [])
  /\ (forall text,
        concat (map lemma (parse_lemmas_text_only false (Some text)))
        = filter (fun c => greek_char c = true) text)
  /\ (forall text,
        Exists (fun c => greek_char c = true) text ->
        parse_lemmas_text_only true (Some text)
        = parse_lemmas_text_only false (Some text))
  /\ (forall text,
        Forall (fun c => greek_char c = false) text ->
        parse_lemmas_text_only false (Some text) = []
        /\ parse_lemmas_text_only true (Some text) = map mk_lemma (split text)
        /\ concat (map lemma (parse_lemmas_text_only true (Some text)))
           = filter (fun c => notspace c = true) text)
  /\ (forall fb text tok,
        tok ∈ parse_lemmas_text_only fb (Some text) -> lemma tok <> []).
Proof.
  split; [done|]. split; [|split; [|split]].
  - intros text. destruct (Words_total greek_char text) as [wg Hg].
    destruct (Words_total notspace text) as [wp Hp].
    rewrite (parse_lemmas_text_only_cases false text wg wp Hg Hp).
    rewrite map_lemma_mk.
    replace (match wg with [] | _ => wg end) with wg by by destruct wg.
    by apply Words_concat.
  - intros text Hex. destruct (Words_total greek_char text) as [wg Hg].
    destruct (Words_total notspace text) as [wp Hp].
    rewrite !(parse_lemmas_text_only_cases _ text wg wp Hg Hp).
    destruct wg as [|w wg]; [|done]. exfalso.
    pose proof (proj1 (Words_nil_iff _ _ _ Hg) eq_refl) as Hall.
    apply Exists_exists in Hex as (c & Hc & Hgc).
    rewrite Forall_forall in Hall. specialize (Hall c Hc). congruence.
  - intros text Hall. destruct (Words_total greek_char text) as [wg Hg].
    destruct (Words_total notspace text) as [wp Hp].
    rewrite !(parse_lemmas_text_only_cases _ text wg wp Hg Hp).
    rewrite (proj2 (Words_nil_iff _ _ _ Hg) Hall).
    split; [done|]. rewrite (split_Words _ _ Hp). split; [done|].
    rewrite map_lemma_mk. by apply Words_concat.
  - intros fb text tok. destruct (Words_total greek_char text) as [wg Hg].
    destruct (Words_total notspace text) as [wp Hp].
    rewrite (parse_lemmas_text_only_cases fb text wg wp Hg Hp).
    intros (w & -> & Hw)%elem_of_map. simpl.
    pose proof (Words_wf _ _ _ Hg) as Hwg.
    pose proof (Words_wf _ _ _ Hp) as Hwp.
    rewrite Forall_forall in Hwg, Hwp.
    destruct wg, fb; first [by apply Hwg | by apply Hwp].
Qed.

(** [parse_lemmas_text_only_content] on "ἐν ἀρχῇ" and on "abc 12". *)
Lemma parse_lemmas_text_only_content_witness :
  parse_lemmas_text_only true (Some en_arche)
  = parse_lemmas_text_only false (Some en_arche)
  /\ parse_lemmas_text_only true (Some abc_12) = map mk_lemma (split abc_12).
Proof.
  destruct parse_lemmas_text_only_content as (_ & _ & Hgreek & Hplain & _).
  split.
  - apply Hgreek. apply Exists_cons_hd. reflexivity.
  - apply Hplain. repeat constructor.
Defined.

(** ** Tokens and their text *)

Lemma Triple_fits src tok : Triple src tok -> token_fits tok.
Proof. intros [g w1 d w2 m ? ? _ _ ? ? _ _ ? ?]. by repeat split. Qed.

Lemma Occurrences_fits text toks :
  Occurrences text toks -> Forall token_fits toks.
Proof.
  induction 1 as [|c s toks _ _ IH|src tok rest toks Ht _ IH];
    [constructor|done|].
  constructor; [by eapply Triple_fits|done].
Qed.

Lemma Triple_format tok : token_fits tok -> Triple (format_token tok) tok.
Proof.
  destruct tok as [g d m]. intros (Hg & Hgs & Hd & Hds & Hm & Hms).
  simpl in *. unfold format_token. cbn [greek strongs morph].
  apply (triple_intro g [0x20] d [0x20] m); try done; by repeat constructor.
Qed.

Lemma Occurrences_format toks :
  Forall token_fits toks -> Occurrences (format_tokens toks) toks.
Proof.
  induction 1 as [|tok toks Hfit _ IH]; [constructor|].
  cbn [format_tokens]. destruct toks as [|tok' toks].
  - rewrite <- (app_nil_r (format_token tok)).
    apply occ_match; [by apply Triple_format|constructor].
  - apply occ_match; [by apply Triple_format|].
    apply occ_skip; [by apply no_Triple_at_space|done].
Qed.

(** X16.  The extractor reads back a text written in the format of the
    docstring: formatting tokens whose parts fit the pattern and
    extracting gives the same tokens.  The tokens the extractor returns
    always fit, so formatting what it returned and extracting again
    changes nothing. *)
Theorem parse_tokens_round_trip :
  (forall toks,
      Forall token_fits toks ->
      parse_tokens (Some (format_tokens toks)) = toks)
  /\ (forall text, Forall token_fits (parse_tokens (Some text)))
  /\ (forall text,
        parse_tokens (Some (format_tokens (parse_tokens (Some text))))
        = parse_tokens (Some text)).
Proof.
  assert (forall toks, Forall token_fits toks ->
            parse_tokens (Some (format_tokens toks)) = toks) as Hback.
  { intros toks Hfit. by apply Occurrences_parse_tokens, Occurrences_format. }
  assert (forall text, Forall token_fits (parse_tokens (Some text))) as Hfits.
  { intros text. eapply Occurrences_fits, parse_tokens_Occurrences. }
  split; [done|]. split; [done|]. intros text. by apply Hback.
Qed.

(** [parse_tokens_round_trip] on the two tokens of the example. *)
Lemma parse_tokens_round_trip_witness :
  parse_tokens (Some (format_tokens logos_tokens)) = logos_tokens.
Proof.
  apply (proj1 parse_tokens_round_trip logos_tokens).
  repeat constructor; discriminate.
Defined.

Lemma Triple_size src tok :
  Triple src tok -> (7 <= token_size tok <= length src)%nat.
Proof.
  intros [g w1 d w2 m Hg _ Hw1 _ Hd _ Hw2 _ Hm _].
  unfold token_size. cbn [greek strongs morph]. rewrite !length_app. simpl.
  destruct g, w1, d, w2, m; try done; simpl; lia.
Qed.

Lemma Occurrences_size text toks :
  Occurrences text toks ->
  (sum_list_with token_size toks <= length text
   /\ 7 * length toks <= sum_list_with token_size toks)%nat.
Proof.
  induction 1 as [|c s toks _ _ IH|src tok rest toks Ht _ IH]; simpl.
  - lia.
  - lia.
  - rewrite length_app. pose proof (Triple_size _ _ Ht). lia.
Qed.

(** X17.  The tokens of a text fit in it: the characters of their parts,
    with the two separators and the two braces of each, are no more than
    the text has; so a text of fewer than seven characters has no token,
    and a text never has more than one token for seven characters. *)
Theorem parse_tokens_size text :
  (sum_list_with token_size (parse_tokens (Some text)) <= length text)%nat
  /\ (7 * length (parse_tokens (Some text)) <= length text)%nat.
Proof.
  destruct (Occurrences_size _ _ (parse_tokens_Occurrences text)). lia.
Qed.

(** ** The lemma-only pattern *)

Lemma match_here_Triple_lemma src tok rest :
  Triple src tok ->
  match_here LemmasJson.TOKEN_RE (src ++ rest) = Some ([greek tok], rest).
Proof.
  intros [g w1 d w2 m Hg Hg' Hw1 Hw1' Hd Hd' Hw2 Hw2' Hm Hm'].
  rewrite <- !app_assoc. unfold LemmasJson.TOKEN_RE. cbn [greek].
  apply (match_here_plus_greedy true); [done|done|..].
  { eapply stops_app_head; [exact Hw1|exact Hw1'|]. apply isspace_not_surface. }
  apply (match_here_plus_greedy false); [done|done|..].
  { eapply stops_app_head; [exact Hd|exact Hd'|]. apply isdigit_not_space. }
  apply (match_here_plus_greedy false); [done|done|..].
  { eapply stops_app_head; [exact Hw2|exact Hw2'|]. apply isspace_not_digit. }
  apply (match_here_plus_greedy false); [done|done|reflexivity|].
  cbn [app]. rewrite match_here_lit.
  apply (match_here_plus_greedy false); [done|done|reflexivity|].
  cbn [app]. by rewrite match_here_lit.
Qed.

Lemma match_here_lemma_sound s groups rest :
  match_here LemmasJson.TOKEN_RE s = Some (groups, rest) ->
  exists src tok, Triple src tok /\ s = src ++ rest /\ groups = [greek tok].
Proof.
  intros H%match_here_sound. unfold LemmasJson.TOKEN_RE in H.
  repeat invert_match.
  exists (run ++ run0 ++ run1 ++ run2 ++ [lbrace] ++ run3 ++ [rbrace]),
         (mk_token run run1 run3).
  split; [by constructor|]. split; [|done].
  by rewrite <- !app_assoc.
Qed.

Lemma Occurrences_parse_lemmas text toks :
  Occurrences text toks ->
  LemmasJson.parse_lemmas (Some text)
  = map (fun tok => mk_lemma (greek tok)) toks.
Proof.
  unfold LemmasJson.parse_lemmas.
  induction 1 as [|c s toks Hno _ IH|src tok rest toks Ht _ IH].
  - done.
  - rewrite findall_skip; [done|].
    destruct (match_here LemmasJson.TOKEN_RE (c :: s)) as [[groups rest]|]
      eqn:Hm; [|done].
    apply match_here_lemma_sound in Hm as (src & tok & Ht & Hs & _).
    by destruct (Hno src tok rest).
  - pose proof (match_here_Triple_lemma _ _ rest Ht) as Hm.
    pose proof (Triple_nonempty _ _ Ht) as Hne.
    destruct (src ++ rest) as [|c s] eqn:Hs; [by destruct src|].
    rewrite (findall_match _ _ _ _ src rest Hm (eq_sym Hs) Hne). simpl.
    f_equal. apply IH.
Qed.

(** X18.  The lemma-only extractor of convert_to_lemmas_json.py returns
    the surface forms of the tokens that [parse_tokens] returns, in the
    same order: the two scripts find the same occurrences. *)
Theorem parse_lemmas_is_parse_tokens_greek text :
  LemmasJson.parse_lemmas text
  = map (fun tok => mk_lemma (greek tok)) (parse_tokens text).
Proof.
  destruct text as [text|]; [|done].
  apply Occurrences_parse_lemmas, parse_tokens_Occurrences.
Qed.

(** ** Column names *)

Lemma last_snoc_filter {A} (Q : A -> Prop) `{!forall x, Decision (Q x)}
    (l : list A) x :
  last (filter Q (l ++ [x]))
  = if decide (Q x) then Some x else last (filter Q l).
Proof.
  rewrite filter_app, filter_cons, filter_nil.
  destruct (decide (Q x)); [by rewrite last_snoc|by rewrite app_nil_r].
Qed.

(** X19.  The name a lower-case column name stands for is the last
    column of the file that lower-cases to it: of two columns that differ
    in case only, the later one is read.  A required column is missing
    exactly when no column lower-cases to its name. *)
Theorem lower_map_cols_last (lower : pystr -> pystr) (columns : list pystr) :
  (forall k,
      lower_map_cols lower columns !! k
      = last (filter (fun c => lower c = k) columns))
  /\ (forall required,
        resolve_columns lower required columns = None
        <-> exists k, k ∈ required /\ forall c, c ∈ columns -> lower c <> k).
Proof.
  assert (forall k, lower_map_cols lower columns !! k
                    = last (filter (fun c => lower c = k) columns)) as Hlast.
  { intros k. unfold lower_map_cols.
    induction columns as [|c columns IH] using rev_ind; [done|].
    rewrite fold_left_app, last_snoc_filter. cbn [fold_left].
    destruct (decide (lower c = k)) as [<-|Hne].
    - by rewrite lookup_insert_eq.
    - by rewrite lookup_insert_ne. }
  split; [done|]. intros required. unfold resolve_columns.
  rewrite eq_None_not_Some, mapM_is_Some.
  assert (forall k, is_Some (lower_map_cols lower columns !! k)
                    <-> exists c, c ∈ columns /\ lower c = k) as Hsome.
  { intros k. rewrite Hlast. split.
    - intros [c Hc]. exists c.
      assert (c ∈ filter (fun c => lower c = k) columns) as Hin.
      { destruct (filter _ columns) as [|c0 l] using rev_ind; [done|].
        rewrite last_snoc in Hc. injection Hc as ->.
        apply elem_of_app. right. left. }
      apply list_elem_of_filter in Hin. tauto.
    - intros (c & Hc & Hk). apply not_eq_None_Some. rewrite last_None.
      intros Hnil. apply (proj1 (filter_nil_iff _ _) Hnil c Hc Hk). }
  split.
  - intros Hnot. apply not_Forall_Exists in Hnot; [|intros k; apply _].
    apply Exists_exists in Hnot as (k & Hk & Hn). exists k. split; [done|].
    intros c Hc Hlow. apply Hn. apply Hsome. by exists c.
  - intros (k & Hk & Hall) HF. rewrite Forall_forall in HF.
    destruct (proj1 (Hsome k) (HF k Hk)) as (c & Hc & Hlow).
    by apply (Hall c).
Qed.

(** [lower_map_cols_last] on a file with columns "Chapter" and "VERSE":
    the text column is missing. *)
Lemma lower_map_cols_last_witness :
  resolve_columns ascii_lower [col_chapter; col_verse; col_text]
    [col_Chapter; col_VERSE] = None.
Proof.
  apply (lower_map_cols_last ascii_lower [col_Chapter; col_VERSE]).
  exists col_text. split.
  - apply list_elem_of_In. simpl. tauto.
  - intros c Hc. apply list_elem_of_In in Hc. simpl in Hc.
    intuition (subst; discriminate).
Defined.

(** ** The converter without pericopes *)

Lemma gc_concat {A} (key : A -> Z) (l : list A) :
  concat (map snd (Nested.groupby_consecutive key l)) = l.
Proof.
  induction l as [|x l IH]; [done|]. cbn [Nested.groupby_consecutive].
  destruct (Nested.groupby_consecutive key l) as [|[k g] rest].
  - simpl in *. by rewrite <- IH.
  - destruct (decide (key x = k)); simpl in *; by rewrite <- IH.
Qed.

Lemma gc_groups {A} (key : A -> Z) (l : list A) :
  Forall (fun kg : Z * list A =>
            kg.2 <> [] /\ Forall (fun x => key x = kg.1) kg.2)
         (Nested.groupby_consecutive key l).
Proof.
  induction l as [|x l IH]; [constructor|]. cbn [Nested.groupby_consecutive].
  destruct (Nested.groupby_consecutive key l) as [|[k g] rest].
  - repeat constructor. done.
  - apply Forall_cons in IH as [[Hg Hk] IH].
    destruct (decide (key x = k)).
    + constructor; [|done]. simpl in *. split; [done|]. by constructor.
    + constructor; [by repeat constructor|]. by constructor.
Qed.

Lemma gc_first_key {A} (key : A -> Z) x (l : list A) :
  exists g rest,
    Nested.groupby_consecutive key (x :: l) = (key x, g) :: rest.
Proof.
  cbn [Nested.groupby_consecutive].
  destruct (Nested.groupby_consecutive key l) as [|[k g] rest].
  - by eexists _, _.
  - destruct (decide (key x = k)) as [->|]; by eexists _, _.
Qed.

(** On a frame sorted on the key, the consecutive runs are one group for
    each key, in ascending order. *)
Lemma gc_sorted_keys {A} (key : A -> Z) (l : list A) :
  StronglySorted (fun a b => key a <= key b) l ->
  StronglySorted Z.lt (map fst (Nested.groupby_consecutive key l)).
Proof.
  induction 1 as [|x l Hs IH Hx]; [constructor|].
  cbn [Nested.groupby_consecutive].
  destruct l as [|y l].
  - simpl. repeat constructor.
  - destruct (gc_first_key key y l) as (g & rest & Hgc).
    rewrite Hgc in *. cbn [map fst] in IH.
    apply Forall_cons in Hx as [Hxy _].
    apply StronglySorted_inv in IH as [IH Hy].
    destruct (decide (key x = key y)) as [Heq|Hne]; cbn [map fst].
    + by constructor.
    + constructor; [by constructor|].
      constructor; [lia|].
      eapply Forall_impl; [exact Hy|]. intros k Hk. simpl in Hk. lia.
Qed.

Lemma nested_parse_tokens_Some text toks :
  Nested.parse_tokens text = Some toks ->
  toks = cell_tokens text /\ text <> Nested.Truthy.
Proof. destruct text; simpl; [| |done]; by intros [= <-]. Qed.

Lemma nested_parse_tokens_None text :
  Nested.parse_tokens text = None <-> text = Nested.Truthy.
Proof. by destruct text. Qed.

Lemma nested_verses_Some group vs :
  mapM (fun r => toks ← Nested.parse_tokens (Nested.text r);
                 Some (Nested.verse r, toks)) group = Some vs ->
  vs = map (fun r => (Nested.verse r, cell_tokens (Nested.text r))) group.
Proof.
  intros HF%mapM_Some. induction HF as [|r vt group vs Hr _ IH]; [done|].
  simpl. rewrite <- IH. f_equal.
  destruct (Nested.parse_tokens (Nested.text r)) as [toks|] eqn:Hp; [|done].
  simpl in Hr. injection Hr as <-.
  by destruct (nested_parse_tokens_Some _ _ Hp) as [-> _].
Qed.

Lemma nested_verses_None group :
  mapM (fun r => toks ← Nested.parse_tokens (Nested.text r);
                 Some (Nested.verse r, toks)) group = None
  <-> exists r, r ∈ group /\ Nested.text r = Nested.Truthy.
Proof.
  rewrite mapM_None, Exists_exists. apply exist_proper. intros r.
  apply and_iff_compat_l. rewrite <- nested_parse_tokens_None.
  by destruct (Nested.parse_tokens (Nested.text r)).
Qed.

Lemma elem_of_concat {A} (x : A) (ls : list (list A)) :
  x ∈ concat ls <-> exists l, x ∈ l /\ l ∈ ls.
Proof.
  rewrite list_elem_of_In, in_concat. split.
  - intros (l & Hl & Hx). exists l. by rewrite !list_elem_of_In.
  - intros (l & Hx & Hl). exists l. by rewrite <- !list_elem_of_In.
Qed.

(** X20.  [convert_csv_to_json] fails exactly when some row has a text
    that is neither a string nor falsy (an empty cell, read as NaN, is
    one).  Otherwise its tree has one entry for each chapter of the frame,
    in ascending order, none without verses, and lists under the chapters
    every row once, in ascending [(chapter, verse)], with the tokens of
    its text. *)
Theorem convert_csv_to_json_result (df : list Nested.row) :
  (Nested.convert_csv_to_json df = None
   <-> exists r, r ∈ df /\ Nested.text r = Nested.Truthy)
  /\ forall tree,
       Nested.convert_csv_to_json df = Some tree ->
       StronglySorted Z.lt (map fst tree)
       /\ Forall (fun cv : Z * list (Z * list token) => cv.2 <> []) tree
       /\ nested_flat tree
          = map nested_entry
                (sort_values [Nested.chapter; Nested.verse] df).
Proof.
  unfold Nested.convert_csv_to_json.
  set (sdf := sort_values [Nested.chapter; Nested.verse] df).
  pose proof (gc_concat Nested.chapter sdf) as Hcat.
  pose proof (gc_groups Nested.chapter sdf) as Hgroups.
  assert (StronglySorted Z.lt
            (map fst (Nested.groupby_consecutive Nested.chapter sdf))) as Hkeys.
  { apply gc_sorted_keys. eapply StronglySorted_weaken; [|apply sort_values_sorted].
    intros a b. cbn [lex_leb]. repeat (rewrite ?orb_true_iff, ?andb_true_iff).
    rewrite !Z.ltb_lt, !Z.eqb_eq. lia. }
  split.
  - rewrite mapM_None, Exists_exists. split.
    + intros ([c g] & Hcg & Hnone). cbn [fst snd] in Hnone.
      destruct (mapM _ g) as [vs|] eqn:Hvs; [done|].
      apply nested_verses_None in Hvs as (r & Hr & Ht). exists r.
      split; [|done]. rewrite <- (sort_values_perm [Nested.chapter; Nested.verse] df).
      fold sdf. rewrite <- Hcat. apply elem_of_concat. exists g.
      split; [done|]. apply elem_of_map. by exists (c, g).
    + intros (r & Hr & Ht).
      rewrite <- (sort_values_perm [Nested.chapter; Nested.verse] df) in Hr.
      fold sdf in Hr. rewrite <- Hcat in Hr.
      apply elem_of_concat in Hr as (g & Hrg & Hg).
      apply elem_of_map in Hg as ([c g'] & -> & Hcg). exists (c, g').
      split; [done|]. cbn [fst snd] in *.
      assert (mapM (fun r => toks ← Nested.parse_tokens (Nested.text r);
                             Some (Nested.verse r, toks)) g' = None) as ->; [|done].
      apply nested_verses_None. by exists r.
  - intros tree HF%mapM_Some. rewrite <- Hcat. clear Hcat.
    induction HF as [|[c g] cv groups tree Hcv HF' IH]; [by repeat constructor|].
    cbn [fst snd] in Hcv.
    destruct (mapM _ g) as [vs|] eqn:Hvs; [|done]. simpl in Hcv.
    injection Hcv as <-. apply nested_verses_Some in Hvs as ->.
    apply Forall_cons in Hgroups as [[Hne Hc] Hgroups]. cbn [fst snd] in *.
    cbn [map fst] in Hkeys. apply StronglySorted_inv in Hkeys as [Hkeys Hlt].
    destruct (IH Hgroups Hkeys) as (IH1 & IH2 & IH3).
    split; [|split].
    + cbn [map fst]. constructor; [done|].
      clear -Hlt HF'. revert Hlt.
      assert (map fst tree = map fst groups) as ->; [|done].
      clear -HF'. induction HF' as [|[c g] cv groups tree Hcv _ IH]; [done|].
      simpl. rewrite IH. f_equal. cbn [fst snd] in Hcv.
      destruct (mapM _ g); [|done]. by injection Hcv as <-.
    + constructor; [|done]. cbn [snd]. by destruct g.
    + unfold nested_flat in *. cbn [map concat fst snd].
      rewrite IH3, map_app. f_equal. rewrite map_map.
      apply map_ext_in. intros r Hr%list_elem_of_In.
      rewrite Forall_forall in Hc. unfold nested_entry.
      by rewrite (Hc r Hr).
Qed.

(** [convert_csv_to_json_result] on a frame with an empty text cell, and
    on two rows of two chapters out of order. *)
Lemma convert_csv_to_json_result_witness :
  Nested.convert_csv_to_json
    [Nested.mk 1 1 (Nested.Str logos_text); Nested.mk 1 2 Nested.Truthy] = None
  /\ nested_flat [(1, [(1, logos_tokens)]); (2, [(1, [])])]
     = map nested_entry
         (sort_values [Nested.chapter; Nested.verse]
            [Nested.mk 2 1 Nested.Falsy; Nested.mk 1 1 (Nested.Str logos_text)]).
Proof.
  split.
  - apply (convert_csv_to_json_result
             [Nested.mk 1 1 (Nested.Str logos_text); Nested.mk 1 2 Nested.Truthy]).
    exists (Nested.mk 1 2 Nested.Truthy). split; [|done].
    apply list_elem_of_In. simpl. tauto.
  - apply (convert_csv_to_json_result
             [Nested.mk 2 1 Nested.Falsy; Nested.mk 1 1 (Nested.Str logos_text)]).
    vm_compute. reflexivity.
Defined.

(** ** What the validator reads of the verses table *)

Lemma last_verse_of_ext verses_df verses_df' :
  (forall chap m, chapter_max verses_df chap m <-> chapter_max verses_df' chap m) ->
  last_verse_of verses_df = last_verse_of verses_df'.
Proof.
  intros Hmax. apply map_eq. intros chap. apply option_eq. intros m.
  by rewrite !last_verse_of_Some.
Qed.

(** X21.  The validator reads of the verses table only the largest verse
    number of each chapter: two verses tables with the same chapters and
    the same largest verse numbers get the same verdict and warnings.  It
    does not notice a verse number missing below the largest. *)
Theorem validator_reads_chapter_max verses_df verses_df' peris rfc :
  (forall chap m,
      chapter_max verses_df chap m <-> chapter_max verses_df' chap m) ->
  validate_pericopes verses_df peris rfc
  = validate_pericopes verses_df' peris rfc.
Proof.
  intros Hmax. unfold validate_pericopes.
  by rewrite (last_verse_of_ext _ _ Hmax).
Qed.

(** [validator_reads_chapter_max] on verses 1..6 and on verse 6 alone. *)
Lemma validator_reads_chapter_max_witness :
  validate_pericopes (verses_1_to 6 1) clean_table true
  = validate_pericopes [V.mk 1 6 (Some [])] clean_table true.
Proof.
  apply validator_reads_chapter_max. intros chap m.
  rewrite <- !last_verse_of_Some.
  assert (last_verse_of (verses_1_to 6 1) = last_verse_of [V.mk 1 6 (Some [])])
    as ->; [|done].
  vm_compute. reflexivity.
Defined.

(** ** The order of the output *)

(** X22.  In every chapter block the pericope blocks stand for the
    chapter's pericopes sorted by [order] when the table has the column,
    then by [start_verse], then by [end_verse], and by the interval alone
    when it has not; pericopes that tie on all the sort columns keep
    their table order. *)
Theorem chapter_block_order {T} (tokenize : option pystr -> list T)
    verses_df peris cb :
  cb ∈ build_chapters tokenize verses_df peris ->
  exists pdf,
    J.pericopes cb
    = map (pericope_payload tokenize
             (filter (fun v => V.chapter v = J.chapter cb) verses_df)) pdf
    /\ pdf ≡ₚ chapter_rows peris (J.chapter cb)
    /\ StronglySorted
         (fun a b =>
            lex_leb (if has_order peris
                     then [P.order; P.start_verse; P.end_verse]
                     else [P.start_verse; P.end_verse]) a b = true) pdf
    /\ forall o s e,
         filter (fun r => (has_order peris = true -> P.order r = o)
                          /\ P.start_verse r = s /\ P.end_verse r = e) pdf
         = filter (fun r => (has_order peris = true -> P.order r = o)
                            /\ P.start_verse r = s /\ P.end_verse r = e)
                  (chapter_rows peris (J.chapter cb)).
Proof.
  intros (chap & _ & ->)%elem_of_build_chapters. cbn [J.pericopes J.chapter].
  exists (canonical_order peris (chapter_rows peris chap)).
  split; [done|]. split; [apply canonical_order_perm|].
  unfold canonical_order. destruct (has_order peris).
  - split; [apply sort_values_sorted|]. intros o s e.
    apply sort_values_stable. intros x y (Hx1 & Hx2 & Hx3) (Hy1 & Hy2 & Hy3).
    cbn [lex_leb]. rewrite (Hx1 eq_refl), (Hy1 eq_refl), Hx2, Hx3, Hy2, Hy3.
    rewrite !Z.eqb_refl, !Z.ltb_irrefl. reflexivity.
  - split; [apply sort_values_sorted|]. intros o s e.
    apply sort_values_stable. intros x y (_ & Hx2 & Hx3) (_ & Hy2 & Hy3).
    cbn [lex_leb]. rewrite Hx2, Hx3, Hy2, Hy3.
    rewrite !Z.eqb_refl, !Z.ltb_irrefl. reflexivity.
Qed.

(** [chapter_block_order] on the block of chapter 1 of the table whose
    [order] column puts verses 4-6 first. *)
Lemma chapter_block_order_witness :
  exists pdf,
    map (pericope_payload parse_tokens (logos_verses 6 1))
        [P.mk "A" "t" 1 4 6 1; P.mk "B" "t" 1 1 3 2]
    = map (pericope_payload parse_tokens
             (filter (fun v => V.chapter v = 1) (logos_verses 6 1))) pdf
    /\ pdf ≡ₚ chapter_rows reordered_table 1
    /\ StronglySorted
         (fun a b => lex_leb [P.order; P.start_verse; P.end_verse] a b = true)
         pdf
    /\ forall o s e,
         filter (fun r => (true = true -> P.order r = o)
                          /\ P.start_verse r = s /\ P.end_verse r = e) pdf
         = filter (fun r => (true = true -> P.order r = o)
                            /\ P.start_verse r = s /\ P.end_verse r = e)
                  (chapter_rows reordered_table 1).
Proof.
  apply (chapter_block_order parse_tokens (logos_verses 6 1) reordered_table
           (J.mk_chapter 1
              (map (pericope_payload parse_tokens (logos_verses 6 1))
                   [P.mk "A" "t" 1 4 6 1; P.mk "B" "t" 1 1 3 2]))).
  apply list_elem_of_In. vm_compute. tauto.
Defined.

(** ** Overlap warnings are real *)

Lemma visits_adjacent r c grp : forall c0,
  (r, c) ∈ visits c0 grp ->
  (c = c0 /\ exists grp', grp = r :: grp')
  \/ exists l1 r0 l2, grp = l1 ++ r0 :: r :: l2 /\ c = P.end_verse r0.
Proof.
  induction grp as [|r1 grp IH]; intros c0 Hin.
  - by apply elem_of_nil in Hin.
  - cbn [visits] in Hin. apply elem_of_cons in Hin as [[= -> ->]|Hin].
    + left. split; [done|]. by exists grp.
    + right. rewrite step_cursor_end in Hin.
      destruct (IH _ Hin) as [[-> [grp' ->]]|(l1 & r0 & l2 & -> & ->)].
      * by exists [], r1, grp'.
      * by exists (r1 :: l1), r0, l2.
Qed.

(** X23.  On a table without inverted pericopes an overlap warning is
    never a false alarm: it comes from two pericopes next to each other
    in the walk of the chapter, the second starting at the reported
    start, inside the first, whose end is the reported cursor. *)
Theorem overlap_warning_is_real verses_df peris rfc chap s c :
  (forall r, r ∈ rows peris -> P.start_verse r <= P.end_verse r) ->
  W_overlap chap s c ∈ (validate_pericopes verses_df peris rfc).2 ->
  exists l1 r0 r l2,
    (chapter_visits peris chap).*1 = l1 ++ r0 :: r :: l2
    /\ P.end_verse r0 = c /\ P.start_verse r = s
    /\ P.start_verse r0 <= s /\ s <= P.end_verse r0 /\ s <= P.end_verse r.
Proof.
  intros Hvalid. rewrite validate_warnings.
  intros (r & Hv & <- & Hle & Hne)%overlap_in_all_warnings.
  destruct (chapter_visits_chapter _ _ _ _ Hv) as [Hr _].
  unfold chapter_visits in *. rewrite visits_rows.
  destruct (visits_adjacent _ _ _ _ Hv) as [[-> _]|(l1 & r0 & l2 & Hgrp & ->)];
    [done|].
  exists l1, r0, r, l2. split; [done|]. repeat split; try done.
  - pose proof (sort_values_sorted [P.start_verse; P.end_verse]
                  (chapter_rows peris chap)) as Hs.
    unfold walk_order in Hgrp. rewrite Hgrp in Hs.
    apply StronglySorted_app_1_r in Hs.
    apply StronglySorted_inv in Hs as [_ Hr0].
    apply Forall_cons in Hr0 as [Hr0 _]. cbn [lex_leb] in Hr0.
    repeat (rewrite ?orb_true_iff, ?andb_true_iff in Hr0).
    rewrite !Z.ltb_lt, !Z.eqb_eq in Hr0. lia.
  - by apply Hvalid.
Qed.

(** [overlap_warning_is_real] on pericopes 1-3 and 3-5. *)
Lemma overlap_warning_is_real_witness :
  exists l1 r0 r l2,
    (chapter_visits overlap_table 1).*1 = l1 ++ r0 :: r :: l2
    /\ P.end_verse r0 = 3 /\ P.start_verse r = 3
    /\ P.start_verse r0 <= 3 /\ 3 <= P.end_verse r0 /\ 3 <= P.end_verse r.
Proof.
  apply (overlap_warning_is_real (verses_1_to 5 1) overlap_table false).
  - intros r Hr. apply list_elem_of_In in Hr. simpl in Hr.
    intuition (subst; simpl; lia).
  - apply list_elem_of_In. vm_compute. tauto.
Defined.
